(** * TodoService: a shallow embedding of [src/services/todoService.js]

    The service object holds the todo array and the id counter in memory and
    rewrites one JSON file on every mutation.  The embedding keeps the shape
    of the JavaScript:

    - a todo is a record [{ id; title; completed }];
    - an [async] method is a program over the world (the service object and
      the disk) that either returns a value or throws;
    - [writeFile], [readFile] and [mkdir] are the only contact with the
      operating system; whether such a call fails is decided by the
      environment, so each call takes the error code the system answers with
      ([None] when the call goes through);
    - the counter [nextId] is a JavaScript Number that only ever holds
      integers; it is modelled by the integer in [Z], and [nextId++] by the
      double nearest to the sum ([to_double]), so that the counter stops
      moving at 2^53 as it does in the code;
    - a string is the sequence of its characters (the bytes of its UTF-8
      text); the file is text, written by [JSON.stringify] with an
      indentation of two and read by [JSON.parse], both modelled on the
      characters.

    Contents: the outcome monad, the data model, the disk, the writer, the
    service methods, the JSON reader and [create]; then the properties, in
    the order of the methods, the read-back of what the writer wrote, and
    loading. *)

From Stdlib Require Import Ascii String ZArith Lia Sorted.
From stdpp Require Import gmap strings list pretty.

Open Scope Z_scope.

(** ** Outcomes of JavaScript calls *)

Inductive exn : Type :=
| SystemError (code : string)   (* a rejected fs call, [error.code] is set *)
| SyntaxError                   (* [JSON.parse] on text that is not JSON *)
| TypeError.                    (* property access on [null] *)

Inductive outcome (A : Type) : Type :=
| Returned (a : A)
| Threw (e : exn).
Arguments Returned {A} a.
Arguments Threw {A} e.

(** [error?.code] *)
Definition error_code (e : exn) : option string :=
  match e with
  | SystemError code => Some code
  | SyntaxError | TypeError => None
  end.

(** A program over a state [S]: it runs to an outcome and leaves a state. *)
Definition Prog (S A : Type) : Type := S -> outcome A * S.

Definition ret {S A} (a : A) : Prog S A := fun s => (Returned a, s).
Definition throw {S A} (e : exn) : Prog S A := fun s => (Threw e, s).
Definition bind {S A B} (m : Prog S A) (k : A -> Prog S B) : Prog S B :=
  fun s =>
    match m s with
    | (Returned a, s') => k a s'
    | (Threw e, s') => (Threw e, s')
    end.
(** [try { m } catch (error) { h error }] *)
Definition try_catch {S A} (m : Prog S A) (h : exn -> Prog S A) : Prog S A :=
  fun s =>
    match m s with
    | (Returned a, s') => (Returned a, s')
    | (Threw e, s') => h e s'
    end.

Notation "'let*' x ':=' m 'in' k" := (bind m (fun x => k))
  (at level 10, x pattern, m at level 100, k at level 200).

(** ** Data model *)

Record Todo : Type := mkTodo {
  id : string;
  title : string;
  completed : bool
}.

(** [{ ...task, completed: true }] *)
Definition mark_completed (task : Todo) : Todo :=
  {| id := id task; title := title task; completed := true |}.

(** The class, generic in what the [todos] array holds: records of the data
    model for a running service, parsed JSON values right after loading. *)
Record TodoService (T : Type) : Type := mkTodoService {
  dataFile : string;
  todos : list T;
  nextId : Z
}.
Arguments mkTodoService {T} dataFile todos nextId.
Arguments dataFile {T} t.
Arguments todos {T} t.
Arguments nextId {T} t.

(** Results of the methods that can miss: [{ ok: true, ... }] or
    [{ ok: false, reason }]. *)
Inductive reason : Type := not_found | invalid_index.

Inductive result (A : Type) : Type :=
| Ok (a : A)
| NotOk (r : reason).
Arguments Ok {A} a.
Arguments NotOk {A} r.

(** ** The disk *)

(** Files by resolved path, and the [writeFile] calls made so far (newest
    first, failed ones included). *)
Record Disk : Type := mkDisk {
  files : gmap string string;
  writes : list (string * string)
}.

Definition readFile (fault : option string) (path : string) : Prog Disk string :=
  fun d =>
    match fault with
    | Some code => (Threw (SystemError code), d)
    | None =>
        match files d !! path with
        | Some text => (Returned text, d)
        | None => (Threw (SystemError "ENOENT"), d)
        end
    end.

Definition mkdir (fault : option string) : Prog Disk unit :=
  fun d =>
    match fault with
    | Some code => (Threw (SystemError code), d)
    | None => (Returned tt, d)
    end.

(** [writeFile(path, data, "utf8")].  A call that goes through replaces the
    content of the file.  A rejected call is logged and leaves the file as
    it was, as when the file cannot be opened; a failure after the file was
    opened, which can leave it empty or cut short, is not told apart from
    that.  What is proved of a rejected write is therefore about the
    memory, the log of calls and the other files. *)
Definition writeFile (fault : option string) (path data : string) : Prog Disk unit :=
  fun d =>
    let called := (path, data) :: writes d in
    match fault with
    | Some code => (Threw (SystemError code), mkDisk (files d) called)
    | None => (Returned tt, mkDisk (<[path := data]> (files d)) called)
    end.

(** ** What [JSON.stringify(value, null, 2)] writes for a service state *)

Definition dquote : ascii := "034".
Definition newline : ascii := "010".

Definition hex_digit (n : N) : ascii :=
  match n with
  | 0 => "0" | 1 => "1" | 2 => "2" | 3 => "3" | 4 => "4" | 5 => "5"
  | 6 => "6" | 7 => "7" | 8 => "8" | 9 => "9" | 10 => "a" | 11 => "b"
  | 12 => "c" | 13 => "d" | 14 => "e" | _ => "f"
  end%char%N.

(** One character of a quoted string, written in front of [k]: the quote and
    the backslash are escaped, control characters take their short escape or
    a [\u00XX] one, everything else is written as it is. *)
Definition quote_char (c : ascii) (k : string) : string :=
  if Ascii.eqb c dquote then String "\" (String dquote k)
  else if Ascii.eqb c "\" then String "\" (String "\" k)
  else if Ascii.eqb c "008" then String "\" (String "b" k)
  else if Ascii.eqb c "009" then String "\" (String "t" k)
  else if Ascii.eqb c "010" then String "\" (String "n" k)
  else if Ascii.eqb c "012" then String "\" (String "f" k)
  else if Ascii.eqb c "013" then String "\" (String "r" k)
  else if (N_of_ascii c <? 32)%N then
    String "\" (String "u" (String "0" (String "0"
      (String (hex_digit (N_of_ascii c / 16)) (String (hex_digit (N_of_ascii c mod 16)) k)))))
  else String c k.

Fixpoint quote_body (s : string) (k : string) : string :=
  match s with
  | EmptyString => k
  | String c s' => quote_char c (quote_body s' k)
  end.

Definition quote (s : string) (k : string) : string :=
  String dquote (quote_body s (String dquote k)).

(** [indent n k]: a line break and [n] spaces in front of [k]. *)
Fixpoint spaces (n : nat) (k : string) : string :=
  match n with
  | O => k
  | S n' => String " " (spaces n' k)
  end.
Definition indent (n : nat) (k : string) : string := String newline (spaces n k).

(** A member ["key": ] of an object, in front of its value. *)
Definition member (key : string) (k : string) : string :=
  quote key (String ":" (String " " k)).

Definition stringify_bool (b : bool) (k : string) : string :=
  (if b then "true" else "false") +:+ k.

(** A todo record, an element of the [todos] array (two levels deep). *)
Definition stringify_todo (t : Todo) (k : string) : string :=
  String "{" (indent 6 (member "id" (quote (id t) (String ","
    (indent 6 (member "title" (quote (title t) (String ","
      (indent 6 (member "completed" (stringify_bool (completed t)
        (indent 4 (String "}" k))))))))))))).

Fixpoint stringify_more_todos (l : list Todo) (k : string) : string :=
  match l with
  | [] => k
  | t :: l' => String "," (indent 4 (stringify_todo t (stringify_more_todos l' k)))
  end.

Definition stringify_todos (l : list Todo) (k : string) : string :=
  match l with
  | [] => String "[" (String "]" k)
  | t :: l' =>
      String "[" (indent 4 (stringify_todo t
        (stringify_more_todos l' (indent 2 (String "]" k)))))
  end.

(** [JSON.stringify({ todos: newTodos, nextId: this.nextId }, null, 2)] *)
Definition JSON_stringify (newTodos : list Todo) (next : Z) : string :=
  String "{" (indent 2 (member "todos" (stringify_todos newTodos (String ","
    (indent 2 (member "nextId" (pretty next +:+
      indent 0 (String "}" EmptyString)))))))).

(** ** The service *)

Record World : Type := mkWorld {
  this : TodoService Todo;
  disk : Disk
}.

Definition get_this : Prog World (TodoService Todo) :=
  fun w => (Returned (this w), w).

(** [this.todos = newTodos] *)
Definition set_todos (newTodos : list Todo) : Prog World unit :=
  fun w =>
    (Returned tt,
     mkWorld (mkTodoService (dataFile (this w)) newTodos (nextId (this w))) (disk w)).

(** The double nearest to an integer, the even significand winning a tie:
    what [x + 1] evaluates to from the exact sum.  An integer up to 2^53 in
    size is a double; a larger one lies between two multiples of its unit
    in the last place.  (Sums of a double and 1 stay below the range where
    doubles overflow.) *)
Definition to_double (z : Z) : Z :=
  let a := Z.abs z in
  if a <=? 2 ^ 53 then z
  else
    let ulp := 2 ^ (Z.log2 a - 52) in
    let q := a / ulp in
    let r := a mod ulp in
    let k := if 2 * r <? ulp then q
             else if ulp <? 2 * r then q + 1
             else if Z.even q then q else q + 1 in
    Z.sgn z * (k * ulp).
Arguments to_double : simpl never.

(** [this.nextId++]: the value before the increment. *)
Definition post_increment_nextId : Prog World Z :=
  fun w =>
    (Returned (nextId (this w)),
     mkWorld (mkTodoService (dataFile (this w)) (todos (this w))
                (to_double (nextId (this w) + 1)))
             (disk w)).

Definition on_disk {A} (io : Prog Disk A) : Prog World A :=
  fun w => let (r, d) := io (disk w) in (r, mkWorld (this w) d).

(** [list()] *)
Definition list_todos (w : World) : list Todo := todos (this w).

(** [#saveAtomically(newTodos)]: write to disk first, then update the
    in-memory array. *)
Definition saveAtomically (wf : option string) (newTodos : list Todo) : Prog World unit :=
  let* self := get_this in
  let payload := JSON_stringify newTodos (nextId self) in
  let* _ := on_disk (writeFile wf (dataFile self) payload) in
  set_todos newTodos.

Definition save (wf : option string) : Prog World unit :=
  let* self := get_this in
  saveAtomically wf (todos self).

(** [add(title)].  The counter goes into the id in decimal digits,
    which is how JavaScript writes an integer up to 2^53 in size (beyond
    that it writes the shortest digits that name the double, which
    [pretty] does not follow). *)
Definition add (wf : option string) (title : string) : Prog World Todo :=
  let* n := post_increment_nextId in
  let todo := {| id := "todo-" +:+ pretty n; title := title; completed := false |} in
  let* self := get_this in
  let newTodos := todos self ++ [todo] in
  let* _ := saveAtomically wf newTodos in
  ret todo.

(** [(task) => task.id === id] *)
Definition has_id (i : string) (task : Todo) : bool := String.eqb (id task) i.

(** [(task) => task.id === id ? { ...task, completed: true } : task] *)
Definition complete_if_id (i : string) (task : Todo) : Todo :=
  if has_id i task then mark_completed task else task.

Definition completeById (wf : option string) (i : string)
  : Prog World (result (option Todo)) :=
  let* self := get_this in
  match List.find (has_id i) (todos self) with
  | None => ret (NotOk not_found)
  | Some exists_ =>
      if completed exists_ then ret (Ok (Some exists_))
      else
        let newTodos := map (complete_if_id i) (todos self) in
        let* _ := saveAtomically wf newTodos in
        let* self' := get_this in
        let updated := List.find (has_id i) (todos self') in
        ret (Ok updated)
  end.

(** [(task, i) => i === index - 1 ? { ...task, completed: true } : task] *)
Definition complete_if_at (index : Z) (i : nat) (task : Todo) : Todo :=
  if Z.of_nat i =? index - 1 then mark_completed task else task.

Definition completeByIndex (wf : option string) (index : Z)
  : Prog World (result (option Todo * Z)) :=
  let* self := get_this in
  if (index <? 1) || (Z.of_nat (length (todos self)) <? index)
  then ret (NotOk invalid_index)
  else
    match todos self !! Z.to_nat (index - 1) with
    | None => throw TypeError       (* [existing.completed] on [undefined] *)
    | Some existing =>
        if completed existing then ret (Ok (Some existing, index))
        else
          let newTodos := imap (complete_if_at index) (todos self) in
          let* _ := saveAtomically wf newTodos in
          let* self' := get_this in
          let updated := todos self' !! Z.to_nat (index - 1) in
          ret (Ok (updated, index))
    end.

(** [String.prototype.includes]: [sub] occurs in [s] as a substring. *)
Fixpoint starts_with (sub s : string) : bool :=
  match sub, s with
  | EmptyString, _ => true
  | String a sub', String b s' => Ascii.eqb a b && starts_with sub' s'
  | String _ _, EmptyString => false
  end.

Fixpoint includes (s sub : string) : bool :=
  starts_with sub s ||
  match s with
  | EmptyString => false
  | String _ s' => includes s' sub
  end.

(** [String.prototype.toLowerCase] on ASCII text.  The methods below take the
    case folding as an argument, so what is proved of them holds for the
    runtime's Unicode folding as well. *)
Definition lower_ascii (c : ascii) : ascii :=
  let n := N_of_ascii c in
  if (65 <=? n)%N && (n <=? 90)%N then ascii_of_N (n + 32) else c.

Fixpoint ascii_toLowerCase (s : string) : string :=
  match s with
  | EmptyString => EmptyString
  | String c s' => String (lower_ascii c) (ascii_toLowerCase s')
  end.

Section ByTitle.
Variable toLowerCase : string -> string.

(** [(task) => !task.completed &&
     task.title.toLowerCase().includes(normalizedTitle)] *)
Definition is_candidate (normalizedTitle : string) (task : Todo) : bool :=
  negb (completed task) && includes (toLowerCase (title task)) normalizedTitle.

Definition completeByTitle (wf : option string) (searchTitle : string)
  : Prog World (result (option Todo)) :=
  let normalizedTitle := toLowerCase searchTitle in
  let* self := get_this in
  match List.find (is_candidate normalizedTitle) (todos self) with
  | None => ret (NotOk not_found)
  | Some match_ =>
      let newTodos := map (complete_if_id (id match_)) (todos self) in
      let* _ := saveAtomically wf newTodos in
      let* self' := get_this in
      let updated := List.find (has_id (id match_)) (todos self') in
      ret (Ok updated)
  end.
End ByTitle.

Definition deleteById (wf : option string) (i : string) : Prog World (result Todo) :=
  let* self := get_this in
  match List.find (has_id i) (todos self) with
  | None => ret (NotOk not_found)
  | Some todo =>
      let newTodos := List.filter (fun task => negb (has_id i task)) (todos self) in
      let* _ := saveAtomically wf newTodos in
      ret (Ok todo)
  end.

(** Returns [{ ok: true, deleted, todos: this.todos }] as the pair
    [(deleted, todos)]. *)
Definition deleteCompleted (wf : option string) : Prog World (list Todo * list Todo) :=
  let* self := get_this in
  let completed_ := List.filter completed (todos self) in
  if Nat.eqb (length completed_) 0 then ret ([], todos self)
  else
    let newTodos := List.filter (fun task => negb (completed task)) (todos self) in
    let* _ := saveAtomically wf newTodos in
    let* self' := get_this in
    ret (completed_, todos self').

(** ** JSON values and [JSON.parse] *)

(** A number as the text gives it, [mantissa * 10 ^ exponent], kept exact
    (no rounding to a double). *)
Record number : Type := mkNumber {
  mantissa : Z;
  exponent : Z
}.

#[warnings="-register-all"]
Inductive json : Type :=
| JNull
| JBool (b : bool)
| JNumber (x : number)
| JString (s : string)
| JArray (elements : list json)
| JObject (members : list (string * json)).

(** The object [add] builds, [{ id, title, completed }]. *)
Definition json_of_todo (t : Todo) : json :=
  JObject [("id", JString (id t)); ("title", JString (title t));
           ("completed", JBool (completed t))].

Definition json_of_service (s : TodoService Todo) : TodoService json :=
  mkTodoService (dataFile s) (map json_of_todo (todos s)) (nextId s).

Definition is_ws (c : ascii) : bool :=
  Ascii.eqb c " " || Ascii.eqb c "009" || Ascii.eqb c "010" || Ascii.eqb c "013".

Fixpoint skip_ws (s : string) : string :=
  match s with
  | EmptyString => EmptyString
  | String c s' => if is_ws c then skip_ws s' else s
  end.

Definition digit_value (c : ascii) : option N :=
  let n := N_of_ascii c in
  if (48 <=? n)%N && (n <=? 57)%N then Some (n - 48)%N else None.

(** The longest run of digits at the head of [s]: its value appended to
    [acc] in base ten, how many digits it had, and what follows. *)
Fixpoint read_digits (s : string) (acc : N) (count : nat) : N * nat * string :=
  match s with
  | EmptyString => (acc, count, s)
  | String c s' =>
      match digit_value c with
      | Some d => read_digits s' (acc * 10 + d)%N (S count)
      | None => (acc, count, s)
      end
  end.

Definition signed (negative : bool) (n : N) : Z :=
  if negative then - Z.of_N n else Z.of_N n.

(** [s] without its first character, when that is [c]. *)
Definition starts_with_char (c : ascii) (s : string) : option string :=
  match s with
  | EmptyString => None
  | String c' s' => if Ascii.eqb c c' then Some s' else None
  end.

(** After the integer part [m]: an optional fraction, an optional exponent. *)
Definition parse_fraction_exponent (negative : bool) (m : N) (s : string)
  : option (number * string) :=
  let fraction :=
    match starts_with_char "." s with
    | Some s1 =>
        match read_digits s1 m 0 with
        | (_, O, _) => None
        | (m', S k, s2) => Some (m', S k, s2)
        end
    | None => Some (m, O, s)
    end in
  match fraction with
  | None => None
  | Some (m', k, s2) =>
      let exponent_part :=
        match starts_with_char "e" s2 with
        | Some s3 => Some s3
        | None => starts_with_char "E" s2
        end in
      match exponent_part with
      | None => Some (mkNumber (signed negative m') (- Z.of_nat k), s2)
      | Some s3 =>
          let '(eneg, s4) :=
            match starts_with_char "-" s3 with
            | Some s' => (true, s')
            | None =>
                match starts_with_char "+" s3 with
                | Some s' => (false, s')
                | None => (false, s3)
                end
            end in
          match read_digits s4 0 0 with
          | (_, O, _) => None
          | (e, S _, s5) =>
              Some (mkNumber (signed negative m') (signed eneg e - Z.of_nat k), s5)
          end
      end
  end.

(** A number: an optional minus, an integer part without leading zeros,
    an optional fraction, an optional exponent. *)
Definition parse_number (s : string) : option (number * string) :=
  let '(negative, s1) :=
    match starts_with_char "-" s with
    | Some s' => (true, s')
    | None => (false, s)
    end in
  match s1 with
  | EmptyString => None
  | String c s2 =>
      match digit_value c with
      | None => None
      | Some N0 => parse_fraction_exponent negative 0 s2
      | Some (Npos _) =>
          let '(m, _, s3) := read_digits s1 0 0 in
          parse_fraction_exponent negative m s3
      end
  end.

(** What a string literal holds: characters of the text as they are, and
    UTF-16 code units written as escapes. *)
Inductive item : Type :=
| Raw (c : ascii)
| Unit16 (u : N).

Definition hex_value (c : ascii) : option N :=
  let n := N_of_ascii c in
  if (48 <=? n)%N && (n <=? 57)%N then Some (n - 48)%N
  else if (97 <=? n)%N && (n <=? 102)%N then Some (n - 87)%N
  else if (65 <=? n)%N && (n <=? 70)%N then Some (n - 55)%N
  else None.

Definition hex4 (a b c d : ascii) : option N :=
  match hex_value a, hex_value b, hex_value c, hex_value d with
  | Some x, Some y, Some z, Some w => Some (((x * 16 + y) * 16 + z) * 16 + w)%N
  | _, _, _, _ => None
  end.

Definition simple_escape (c : ascii) : option ascii :=
  if Ascii.eqb c dquote then Some dquote
  else if Ascii.eqb c "\" then Some "\"%char
  else if Ascii.eqb c "/" then Some "/"%char
  else if Ascii.eqb c "b" then Some "008"%char
  else if Ascii.eqb c "f" then Some "012"%char
  else if Ascii.eqb c "n" then Some "010"%char
  else if Ascii.eqb c "r" then Some "013"%char
  else if Ascii.eqb c "t" then Some "009"%char
  else None.

(** The characters of a string literal up to its closing quote. *)
Fixpoint parse_chars (s : string) : option (list item * string) :=
  match s with
  | EmptyString => None
  | String c s1 =>
      if Ascii.eqb c dquote then Some ([], s1)
      else if Ascii.eqb c "\" then
        match s1 with
        | EmptyString => None
        | String e s2 =>
            if Ascii.eqb e "u" then
              match s2 with
              | String h1 (String h2 (String h3 (String h4 s3))) =>
                  match hex4 h1 h2 h3 h4 with
                  | Some u =>
                      match parse_chars s3 with
                      | Some (l, rest) => Some (Unit16 u :: l, rest)
                      | None => None
                      end
                  | None => None
                  end
              | _ => None
              end
            else
              match simple_escape e with
              | Some x =>
                  match parse_chars s2 with
                  | Some (l, rest) => Some (Raw x :: l, rest)
                  | None => None
                  end
              | None => None
              end
        end
      else if (N_of_ascii c <? 32)%N then None
      else
        match parse_chars s1 with
        | Some (l, rest) => Some (Raw c :: l, rest)
        | None => None
        end
  end.

(** UTF-8 of a code point. *)
Definition utf8 (p : N) (k : string) : string :=
  if (p <? 128)%N then String (ascii_of_N p) k
  else if (p <? 2048)%N then
    String (ascii_of_N (192 + p / 64)) (String (ascii_of_N (128 + p mod 64)) k)
  else if (p <? 65536)%N then
    String (ascii_of_N (224 + p / 4096))
      (String (ascii_of_N (128 + (p / 64) mod 64))
         (String (ascii_of_N (128 + p mod 64)) k))
  else
    String (ascii_of_N (240 + p / 262144))
      (String (ascii_of_N (128 + (p / 4096) mod 64))
         (String (ascii_of_N (128 + (p / 64) mod 64))
            (String (ascii_of_N (128 + p mod 64)) k))).

Definition is_high_surrogate (u : N) : bool := (55296 <=? u)%N && (u <=? 56319)%N.
Definition is_low_surrogate (u : N) : bool := (56320 <=? u)%N && (u <=? 57343)%N.

(** The string a literal denotes, as UTF-8; a surrogate pair is one code
    point. *)
Fixpoint string_of_items (l : list item) : string :=
  match l with
  | [] => EmptyString
  | Raw c :: l' => String c (string_of_items l')
  | Unit16 u :: l' =>
      match l' with
      | Unit16 v :: l'' =>
          if is_high_surrogate u && is_low_surrogate v
          then utf8 (65536 + (u - 55296) * 1024 + (v - 56320)) (string_of_items l'')
          else utf8 u (string_of_items l')
      | _ => utf8 u (string_of_items l')
      end
  end.

(** A string literal, after its opening quote. *)
Definition parse_string (s : string) : option (string * string) :=
  match parse_chars s with
  | Some (l, rest) => Some (string_of_items l, rest)
  | None => None
  end.

Fixpoint strip_prefix (p s : string) : option string :=
  match p, s with
  | EmptyString, _ => Some s
  | String a p', String b s' => if Ascii.eqb a b then strip_prefix p' s' else None
  | String _ _, EmptyString => None
  end.

(** A value, the elements of an array after its bracket, the members of an
    object after its brace.  [fuel] bounds the depth of the calls. *)
Fixpoint parse_value (fuel : nat) (s : string) {struct fuel} : option (json * string) :=
  match fuel with
  | O => None
  | S fuel' =>
      match skip_ws s with
      | EmptyString => None
      | String c s1 =>
          if Ascii.eqb c "{" then
            match starts_with_char "}" (skip_ws s1) with
            | Some s2 => Some (JObject [], s2)
            | None =>
                match parse_members fuel' s1 with
                | Some (ms, s2) => Some (JObject ms, s2)
                | None => None
                end
            end
          else if Ascii.eqb c "[" then
            match starts_with_char "]" (skip_ws s1) with
            | Some s2 => Some (JArray [], s2)
            | None =>
                match parse_elements fuel' s1 with
                | Some (vs, s2) => Some (JArray vs, s2)
                | None => None
                end
            end
          else if Ascii.eqb c dquote then
            match parse_string s1 with
            | Some (x, s2) => Some (JString x, s2)
            | None => None
            end
          else if Ascii.eqb c "t" then
            option_map (pair (JBool true)) (strip_prefix "rue" s1)
          else if Ascii.eqb c "f" then
            option_map (pair (JBool false)) (strip_prefix "alse" s1)
          else if Ascii.eqb c "n" then
            option_map (pair JNull) (strip_prefix "ull" s1)
          else
            match parse_number (String c s1) with
            | Some (x, s2) => Some (JNumber x, s2)
            | None => None
            end
      end
  end
with parse_elements (fuel : nat) (s : string) {struct fuel}
  : option (list json * string) :=
  match fuel with
  | O => None
  | S fuel' =>
      match parse_value fuel' s with
      | None => None
      | Some (v, s1) =>
          match starts_with_char "," (skip_ws s1) with
          | Some s2 =>
              match parse_elements fuel' s2 with
              | Some (vs, s3) => Some (v :: vs, s3)
              | None => None
              end
          | None =>
              match starts_with_char "]" (skip_ws s1) with
              | Some s2 => Some ([v], s2)
              | None => None
              end
          end
      end
  end
with parse_members (fuel : nat) (s : string) {struct fuel}
  : option (list (string * json) * string) :=
  match fuel with
  | O => None
  | S fuel' =>
      match starts_with_char dquote (skip_ws s) with
      | None => None
      | Some s1 =>
          match parse_string s1 with
          | None => None
          | Some (key, s2) =>
              match starts_with_char ":" (skip_ws s2) with
              | None => None
              | Some s3 =>
                  match parse_value fuel' s3 with
                  | None => None
                  | Some (v, s4) =>
                      match starts_with_char "," (skip_ws s4) with
                      | Some s5 =>
                          match parse_members fuel' s5 with
                          | Some (ms, s6) => Some ((key, v) :: ms, s6)
                          | None => None
                          end
                      | None =>
                          match starts_with_char "}" (skip_ws s4) with
                          | Some s5 => Some ([(key, v)], s5)
                          | None => None
                          end
                      end
                  end
              end
          end
      end
  end.

(** [JSON.parse(text)]; [None] is the [SyntaxError]. *)
Definition JSON_parse (text : string) : option json :=
  match parse_value (S (String.length text)) text with
  | Some (v, rest) =>
      match skip_ws rest with
      | EmptyString => Some v
      | String _ _ => None
      end
  | None => None
  end.

(** ** Loading: [TodoService.create] *)

(** [value.key] for the keys [create] reads ([todos], [nextId]): own
    property of an object (the last of duplicate members, as [JSON.parse]
    keeps it), [undefined] on the other values, a [TypeError] on [null]. *)
Fixpoint last_member (key : string) (ms : list (string * json)) : option json :=
  match ms with
  | [] => None
  | (k, v) :: ms' =>
      match last_member key ms' with
      | Some v' => Some v'
      | None => if String.eqb k key then Some v else None
      end
  end.

Definition own_property (v : json) (key : string) : option json :=
  match v with
  | JObject ms => last_member key ms
  | _ => None
  end.

Definition get_property {S} (v : json) (key : string) : Prog S (option json) :=
  match v with
  | JNull => throw TypeError
  | _ => ret (own_property v key)
  end.

(** [Array.isArray(x) ? x : []] *)
Definition array_or_empty (x : option json) : list json :=
  match x with
  | Some (JArray l) => l
  | _ => []
  end.

(** [Number.isInteger(x)], with the integer, read off the number as the
    text gives it. *)
Definition integer_value (x : option json) : option Z :=
  match x with
  | Some (JNumber n) =>
      if 0 <=? exponent n then Some (mantissa n * 10 ^ exponent n)
      else if mantissa n mod 10 ^ (- exponent n) =? 0
           then Some (mantissa n / 10 ^ (- exponent n))
           else None
  | _ => None
  end.


(** [error?.code !== "ENOENT"] *)
Definition not_ENOENT (error : exn) : bool :=
  match error_code error with
  | Some code => negb (String.eqb code "ENOENT")
  | None => true
  end.

(** [TodoService.create(dataFile)], the path taken as already resolved
    against the working directory.  [rf], [mf] and [wf] are what the system
    answers to [readFile], [mkdir] and [writeFile]. *)
Definition create (rf mf wf : option string) (resolvedPath : string)
  : Prog Disk (TodoService json) :=
  try_catch
    (let* contents := readFile rf resolvedPath in
     let* parsed :=
       match JSON_parse contents with
       | Some v => ret v
       | None => throw SyntaxError
       end in
     let* parsed_todos := get_property parsed "todos" in
     let todos := array_or_empty parsed_todos in
     let* parsed_nextId := get_property parsed "nextId" in
     let nextId :=
       match integer_value parsed_nextId with
       | Some n => n
       | None => Z.of_nat (length todos) + 1
       end in
     ret (mkTodoService resolvedPath todos nextId))
    (fun error =>
       if not_ENOENT error then throw error
       else
         let* _ := mkdir mf in
         let service := mkTodoService resolvedPath [] 1 in
         fun d =>
           match save wf (mkWorld service d) with
           | (Returned _, w) => (Returned (json_of_service (this w)), disk w)
           | (Threw e, w) => (Threw e, disk w)
           end).

(** ** Requests: one call of a mutating method *)

Inductive request : Type :=
| Add (title : string)
| CompleteById (i : string)
| CompleteByIndex (index : Z)
| CompleteByTitle (searchTitle : string)
| DeleteById (i : string)
| DeleteCompleted.

Inductive reply : Type :=
| Added (todo : Todo)
| Completed (r : result (option Todo))
| CompletedAt (r : result (option Todo * Z))
| Deleted (r : result Todo)
| DeletedCompleted (r : list Todo * list Todo).

Definition fmap_prog {S A B} (f : A -> B) (m : Prog S A) : Prog S B :=
  let* a := m in ret (f a).

Section Run.
Variable toLowerCase : string -> string.

(** One call; [wf] is what the system answers to its [writeFile]. *)
Definition perform (wf : option string) (req : request) : Prog World reply :=
  match req with
  | Add title => fmap_prog Added (add wf title)
  | CompleteById i => fmap_prog Completed (completeById wf i)
  | CompleteByIndex index => fmap_prog CompletedAt (completeByIndex wf index)
  | CompleteByTitle q => fmap_prog Completed (completeByTitle toLowerCase wf q)
  | DeleteById i => fmap_prog Deleted (deleteById wf i)
  | DeleteCompleted => fmap_prog DeletedCompleted (deleteCompleted wf)
  end.

(** A sequence of calls, one after the other; the trace pairs the world
    each call started from with its outcome. *)
Fixpoint run (calls : list (option string * request)) (w : World)
  : list (World * outcome reply) * World :=
  match calls with
  | [] => ([], w)
  | (wf, req) :: calls' =>
      let (r, w1) := perform wf req w in
      let (tr, w2) := run calls' w1 in
      ((w, r) :: tr, w2)
  end.
End Run.

(** The records a trace minted, each with the counter value its [add]
    started from. *)
Definition minted (tr : list (World * outcome reply)) : list (Z * Todo) :=
  omap (fun '(w, r) =>
          match r with
          | Returned (Added t) => Some (nextId (this w), t)
          | _ => None
          end) tr.

Definition ids (l : list Todo) : list string := map id l.

(** The counter lies above the number of every id of the form ["todo-" + n]
    in the list. *)
Definition counter_above (w : World) : Prop :=
  forall t n, t ∈ list_todos w -> id t = "todo-" +:+ pretty n -> n < nextId (this w).

(** [{ ...result, index }] *)
Definition with_index {A} (index : Z) (r : result A) : result (A * Z) :=
  match r with
  | Ok a => Ok (a, index)
  | NotOk e => NotOk e
  end.

(** What reading an escaped character yields. *)
Definition item_of (c : ascii) : item :=
  if (N_of_ascii c <? 32)%N
     && negb (Ascii.eqb c "008" || Ascii.eqb c "009" || Ascii.eqb c "010"
              || Ascii.eqb c "012" || Ascii.eqb c "013")
  then Unit16 (N_of_ascii c) else Raw c.

(** The value [JSON.parse] builds from a saved state. *)
Definition saved_document (l : list Todo) (next : Z) : json :=
  JObject [("todos", JArray (map json_of_todo l));
           ("nextId", JNumber (mkNumber next 0))].

(** A small store for the examples: two todos, the first one done. *)
Definition two_todos : World :=
  mkWorld (mkTodoService "data/todos.json"
             [mkTodo "todo-1" "Buy milk" true; mkTodo "todo-2" "Buy bread" false] 3)
          (mkDisk ∅ []).

Definition empty_store : World :=
  mkWorld (mkTodoService "data/todos.json" [] 1) (mkDisk ∅ []).

(** A data file that lost its [nextId]: four todos, the first one
    [todo-5], and no counter. *)
Definition legacy_todos : list Todo :=
  [mkTodo "todo-5" "Buy milk" false; mkTodo "todo-6" "Walk dog" true;
   mkTodo "todo-7" "Call mum" false; mkTodo "todo-8" "Pay rent" false].

Definition legacy_file : string :=
  String "{" (indent 2 (member "todos" (stringify_todos legacy_todos
    (indent 0 (String "}" EmptyString))))).

(** ** The file and the memory *)

(** The file holds the list [list()] returns, under some counter. *)
Definition list_on_disk (w : World) : Prop :=
  exists n, files (disk w) !! dataFile (this w) = Some (JSON_stringify (list_todos w) n).

(** The file holds the state in memory, list and counter. *)
Definition state_on_disk (w : World) : Prop :=
  files (disk w) !! dataFile (this w)
  = Some (JSON_stringify (list_todos w) (nextId (this w))).

(** A record after a call, against the record it was before: same id, same
    title, and completed if it was. *)
Definition advances (before after : Todo) : Prop :=
  id after = id before /\ title after = title before /\
  (completed before = true -> completed after = true).

Definition is_completion (req : request) : bool :=
  match req with
  | CompleteById _ | CompleteByIndex _ | CompleteByTitle _ => true
  | _ => false
  end.

(** ** The internal API of [server.js] *)

(** What goes out: [{ todos }], [{ todo, todos }] or [{ error }].
    [callInternalApi] adds [ok: true] to the first two and [ok: false] to
    the last. *)
Inductive payload : Type :=
| Todos (todos : list Todo)
| TodoAndTodos (todo : option Todo) (todos : list Todo)
| ErrorMessage (error : string).

Definition ok (p : payload) : bool :=
  match p with
  | Todos _ | TodoAndTodos _ _ => true
  | ErrorMessage _ => false
  end.

(** [x?.key], for the keys read from a request body ([title], [index]). *)
Definition optional_get (x : option json) (key : string) : option json :=
  match x with
  | None | Some JNull => None
  | Some v => own_property v key
  end.

(** [has_slash s]: some character of [s] is a slash. *)
Fixpoint has_slash (s : string) : bool :=
  match s with
  | EmptyString => false
  | String c s' => Ascii.eqb c "/" || has_slash s'
  end.

(** [path.match(/^<base>\/([^/]+)$/)]: the one group, when the path is the
    base, a slash and a non-empty rest without slash. *)
Definition match_id (base path : string) : option string :=
  match strip_prefix (base +:+ "/") path with
  | None => None
  | Some rest =>
      if String.eqb rest EmptyString || has_slash rest then None else Some rest
  end.

(** [String.prototype.trim] on ASCII text: blanks, tabs and line breaks
    taken off both ends.  The handlers below take the trimming as an
    argument, as they do the case folding. *)
Definition is_blank (c : ascii) : bool :=
  let n := N_of_ascii c in ((9 <=? n)%N && (n <=? 13)%N) || (n =? 32)%N.

Fixpoint trim_start (s : string) : string :=
  match s with
  | EmptyString => EmptyString
  | String c s' => if is_blank c then trim_start s' else s
  end.

Definition ascii_trim (s : string) : string :=
  String.rev (trim_start (String.rev (trim_start s))).

Section Server.
Variable toLowerCase : string -> string.
Variable trim : string -> string.

(** [x?.trim?.()]: the trimmed string for a string; [undefined] for
    [undefined], [null] and the values without a [trim]; a [TypeError] for
    an object with a member [trim], which is no function. *)
Definition optional_trim {S} (x : option json) : Prog S (option string) :=
  match x with
  | None | Some JNull => ret None
  | Some (JString s) => ret (Some (trim s))
  | Some (JObject ms) =>
      match last_member "trim" ms with
      | None | Some JNull => ret None
      | Some _ => throw TypeError
      end
  | Some _ => ret None
  end.

(** [!title] *)
Definition is_missing (title : option string) : bool :=
  match title with
  | None => true
  | Some t => String.eqb t EmptyString
  end.

Definition given (title : option string) : string :=
  match title with
  | None => EmptyString
  | Some t => t
  end.

(** [callInternalApi(method, path, body)] *)
Definition callInternalApi (wf : option string) (method path : string)
    (body : option json) : Prog World payload :=
  if String.eqb method "GET" && String.eqb path "/api/todos" then
    let* self := get_this in
    ret (Todos (todos self))
  else if String.eqb method "POST" && String.eqb path "/api/todos" then
    let* title := optional_trim (optional_get body "title") in
    if is_missing title then ret (ErrorMessage "Missing or empty title")
    else
      let* todo := add wf (given title) in
      let* self := get_this in
      ret (TodoAndTodos (Some todo) (todos self))
  else if String.eqb method "POST" && String.eqb path "/api/todos/complete-by-index" then
    let index := optional_get body "index" in
    match integer_value index with
    | None => ret (ErrorMessage "Invalid index")
    | Some n =>
        if n <? 1 then ret (ErrorMessage "Invalid index")
        else
          let* result := completeByIndex wf n in
          match result with
          | NotOk _ => ret (ErrorMessage "Invalid index")
          | Ok (todo, _) =>
              let* self := get_this in
              ret (TodoAndTodos todo (todos self))
          end
    end
  else if String.eqb method "POST" && String.eqb path "/api/todos/complete-by-title" then
    let* searchTitle := optional_trim (optional_get body "title") in
    if is_missing searchTitle then ret (ErrorMessage "Missing search title")
    else
      let* result := completeByTitle toLowerCase wf (given searchTitle) in
      match result with
      | NotOk _ => ret (ErrorMessage "No match found")
      | Ok todo =>
          let* self := get_this in
          ret (TodoAndTodos todo (todos self))
      end
  else
    match match_id "/api/todos" path with
    | Some i =>
        if String.eqb method "PUT" then
          let* result := completeById wf i in
          match result with
          | NotOk _ => ret (ErrorMessage ("Todo " +:+ i +:+ " not found"))
          | Ok todo =>
              let* self := get_this in
              ret (TodoAndTodos todo (todos self))
          end
        else if String.eqb method "DELETE" then
          let* self := get_this in
          match List.find (has_id i) (todos self) with
          | None => ret (ErrorMessage ("Todo " +:+ i +:+ " not found"))
          | Some todo =>
              let* _ :=
                set_todos (List.filter (fun t => negb (has_id i t)) (todos self)) in
              let* _ := save wf in
              let* self' := get_this in
              ret (TodoAndTodos (Some todo) (todos self'))
          end
        else ret (ErrorMessage "Not found")
    | None => ret (ErrorMessage "Not found")
    end.
End Server.

(** ** The REST routes of [routes/todoRoutes.js] *)

Definition MAX_BODY_BYTES : N := 1048576.

(** What a route can find thrown: the error of [parseJsonBody] for a body
    over the limit, or one of the errors of the service, of [JSON.parse]
    and of the request stream. *)
Inductive thrown : Type :=
| PayloadTooLargeError
| Other (e : exn).

(** A request as the routes read it: the method, and the body as the
    chunks that the stream delivers before it ends or, with [failure],
    emits [error]. *)
Record IncomingMessage : Type := mkIncomingMessage {
  method : string;
  chunks : list string;
  failure : option exn
}.

(** The variables of [parseJsonBody] and the promise it returns: pending,
    resolved with a value or rejected. *)
Record reading : Type := mkReading {
  body : string;
  bytes : N;
  rejected : bool;
  settled : option (json + thrown)
}.

(** [resolve] and [reject] settle a pending promise and do nothing to a
    settled one. *)
Definition settle (r : json + thrown) (st : reading) : reading :=
  match settled st with
  | Some _ => st
  | None => mkReading (body st) (bytes st) (rejected st) (Some r)
  end.

(** What a response carries: the status, and the data that [sendJson]
    writes as JSON.  The two headers are the same in every response. *)
Record response : Type := mkResponse {
  statusCode : Z;
  data : payload
}.

(** The service and the responses written so far, oldest first. *)
Record Exchange : Type := mkExchange {
  service : World;
  res : list response
}.

(** A route: a computation over the exchange that returns or throws. *)
Definition Route (A : Type) : Type := Exchange -> (A + thrown) * Exchange.

Definition done {A} (a : A) : Route A := fun x => (inl a, x).

Definition and_then {A B} (m : Route A) (k : A -> Route B) : Route B :=
  fun x =>
    match m x with
    | (inl a, x') => k a x'
    | (inr e, x') => (inr e, x')
    end.

Notation "'let+' x ':=' m 'in' k" := (and_then m (fun x => k))
  (at level 10, x pattern, m at level 100, k at level 200).

(** [await promise], for a promise that is settled. *)
Definition await {A} (p : A + thrown) : Route A := fun x => (p, x).

(** A call into the service. *)
Definition call {A} (m : Prog World A) : Route A :=
  fun x =>
    match m (service x) with
    | (Returned a, w) => (inl a, mkExchange w (res x))
    | (Threw e, w) => (inr (Other e), mkExchange w (res x))
    end.

Definition catching {A} (m : Route A) (h : thrown -> Route A) : Route A :=
  fun x =>
    match m x with
    | (inl a, x') => (inl a, x')
    | (inr e, x') => h e x'
    end.

(** [sendJson(res, statusCode, data)] *)
Definition sendJson (statusCode : Z) (data : payload) : Route unit :=
  fun x => (inl tt, mkExchange (service x) (res x ++ [mkResponse statusCode data])).

(** The [catch] block of the three routes that read a body. *)
Definition answer_error (error : thrown) : Route unit :=
  match error with
  | PayloadTooLargeError => sendJson 413 (ErrorMessage "Request body too large")
  | Other _ => sendJson 400 (ErrorMessage "Invalid request body")
  end.

Section Routes.
Variable toLowerCase : string -> string.
Variable trim : string -> string.
(** [body += chunk]: the text that a chunk of bytes is read as. *)
Variable toString : string -> string.

(** [req.on("data", ...)] *)
Definition on_data (st : reading) (chunk : string) : reading :=
  let bytes' := (bytes st + N.of_nat (String.length chunk))%N in
  if (MAX_BODY_BYTES <? bytes')%N && negb (rejected st) then
    settle (inr PayloadTooLargeError) (mkReading (body st) bytes' true (settled st))
  else if negb (rejected st) then
    mkReading (body st +:+ toString chunk) bytes' (rejected st) (settled st)
  else mkReading (body st) bytes' (rejected st) (settled st).

(** [req.on("end", ...)]: [body ? JSON.parse(body) : {}] *)
Definition on_end (st : reading) : reading :=
  match body st with
  | EmptyString => settle (inl (JObject [])) st
  | String _ _ =>
      match JSON_parse (body st) with
      | Some v => settle (inl v) st
      | None => settle (inr (Other SyntaxError)) st
      end
  end.

(** [req.on("error", reject)] *)
Definition on_error (e : exn) (st : reading) : reading :=
  settle (inr (Other e)) st.

(** [parseJsonBody(req)]: how the promise is settled once the stream has
    delivered its chunks and ended or failed. *)
Definition parseJsonBody (req : IncomingMessage) : option (json + thrown) :=
  let st := fold_left on_data (chunks req) (mkReading EmptyString 0 false None) in
  settled (match failure req with
           | None => on_end st
           | Some e => on_error e st
           end).

(** [await parseJsonBody(req)].  A promise left pending would be waited
    for without end; once the stream has ended or failed there is none
    ([parseJsonBody_not_pending]), so the second branch is never taken. *)
Definition await_body (req : IncomingMessage) (k : json -> Route unit) : Route unit :=
  match parseJsonBody req with
  | Some p => let+ body := await p in k body
  | None => done tt
  end.

(** The handler that [createTodoRoutes(todoService, apiBase)] returns,
    called with a request and [url.pathname]; [wf] is what the system
    answers to the [writeFile] of the call.  It returns whether it handled
    the request.  [idPattern] is the base with its special characters
    escaped, a slash and one or more characters other than a slash, which
    is [match_id].  What the [catch] blocks print with [console.error] is
    left out. *)
Definition createTodoRoutes (apiBase : string) (wf : option string)
    (req : IncomingMessage) (pathname : string) : Route bool :=
  if String.eqb pathname apiBase && String.eqb (method req) "GET" then
    let+ self := call get_this in
    let+ _ := sendJson 200 (Todos (todos self)) in
    done true
  else if String.eqb pathname apiBase && String.eqb (method req) "POST" then
    let+ _ :=
      catching
        (await_body req (fun body =>
         let+ body_title := call (get_property body "title") in
         let+ title := call (optional_trim trim body_title) in
         if is_missing title
         then sendJson 400 (ErrorMessage "Missing or empty title")
         else
           let+ todo := call (add wf (given title)) in
           let+ self := call get_this in
           sendJson 201 (TodoAndTodos (Some todo) (todos self))))
        answer_error in
    done true
  else if String.eqb pathname (apiBase +:+ "/complete-by-index")
          && String.eqb (method req) "POST" then
    let+ _ :=
      catching
        (await_body req (fun body =>
         let+ index := call (get_property body "index") in
         match integer_value index with
         | None => sendJson 400 (ErrorMessage "Invalid index")
         | Some n =>
             if n <? 1 then sendJson 400 (ErrorMessage "Invalid index")
             else
               let+ result := call (completeByIndex wf n) in
               match result with
               | NotOk _ => sendJson 400 (ErrorMessage "Invalid index")
               | Ok (todo, _) =>
                   let+ self := call get_this in
                   sendJson 200 (TodoAndTodos todo (todos self))
               end
         end))
        answer_error in
    done true
  else if String.eqb pathname (apiBase +:+ "/complete-by-title")
          && String.eqb (method req) "POST" then
    let+ _ :=
      catching
        (await_body req (fun body =>
         let+ body_title := call (get_property body "title") in
         let+ searchTitle := call (optional_trim trim body_title) in
         if is_missing searchTitle
         then sendJson 400 (ErrorMessage "Missing search title")
         else
           let+ result := call (completeByTitle toLowerCase wf (given searchTitle)) in
           match result with
           | NotOk _ =>
               sendJson 400 (ErrorMessage "No incomplete todo found matching this title")
           | Ok todo =>
               let+ self := call get_this in
               sendJson 200 (TodoAndTodos todo (todos self))
           end))
        answer_error in
    done true
  else
    match match_id apiBase pathname with
    | Some i =>
        if String.eqb (method req) "PUT" then
          let+ result := call (completeById wf i) in
          match result with
          | NotOk _ =>
              let+ _ := sendJson 404 (ErrorMessage ("Todo " +:+ i +:+ " not found")) in
              done true
          | Ok todo =>
              let+ self := call get_this in
              let+ _ := sendJson 200 (TodoAndTodos todo (todos self)) in
              done true
          end
        else if String.eqb (method req) "DELETE" then
          let+ result := call (deleteById wf i) in
          match result with
          | NotOk _ =>
              let+ _ := sendJson 404 (ErrorMessage ("Todo " +:+ i +:+ " not found")) in
              done true
          | Ok todo =>
              let+ self := call get_this in
              let+ _ := sendJson 200 (TodoAndTodos (Some todo) (todos self)) in
              done true
          end
        else done false
    | None => done false
    end.
End Routes.

(** The bytes of the chunks together, and the text they are read as. *)
Definition total_bytes (cs : list string) : N :=
  fold_right (fun c n => (N.of_nat (String.length c) + n)%N) 0%N cs.

Definition text_of (toString : string -> string) (cs : list string) : string :=
  fold_right (fun c s => toString c +:+ s) EmptyString cs.

(** What a call of the service that writes at most once can come to: it
    throws only the error of a rejected write, and then [list()] and the
    files are as before and the write has been tried; with a rejected write
    it returns only when it had nothing to write, the world as before. *)
Definition one_write {A} (wf : option string) (w : World)
    (r : outcome A * World) : Prop :=
  match fst r with
  | Threw e =>
      exists code, wf = Some code /\ e = SystemError code /\
        list_todos (snd r) = list_todos w /\
        writes (disk (snd r)) <> writes (disk w)
  | Returned _ => wf <> None -> snd r = w
  end.

(** ** The tools of [mcp/todoTools.js] *)

(** What a tool returns: the texts of [content], and [tasks] of
    [structuredContent], which is [undefined] when the answer it is taken
    from has no [todos]. *)
Record CallToolResult : Type := mkCallToolResult {
  content : list string;
  tasks : option (list Todo)
}.

Definition replyWithTodos (message : string) (tasks : option (list Todo))
  : CallToolResult :=
  mkCallToolResult (if String.eqb message EmptyString then [] else [message]) tasks.

(** [result.todos] and [result.todo] of an answer of [callInternalApi]. *)
Definition answer_todos (result : payload) : option (list Todo) :=
  match result with
  | Todos l | TodoAndTodos _ l => Some l
  | ErrorMessage _ => None
  end.

Definition answer_todo (result : payload) : option Todo :=
  match result with
  | TodoAndTodos t _ => t
  | Todos _ | ErrorMessage _ => None
  end.

(** [x ?? []] *)
Definition or_empty (x : option (list Todo)) : option (list Todo) :=
  match x with
  | Some l => Some l
  | None => Some []
  end.

(** A string between double quotes, as the messages show a title. *)
Definition quoted (s : string) : string :=
  String dquote (s +:+ String dquote EmptyString).

(** The calls of the tools.  The arguments are as the input schemas admit
    them, a string or an integer, or left out. *)
Inductive tool_call : Type :=
| add_todo (title : option string)
| complete_todo (id : option string)
| list_todos_tool
| complete_todo_by_index (index : option Z)
| complete_todo_by_title (title : option string).

Section Tools.
Variable toLowerCase : string -> string.
Variable trim : string -> string.

(** [`Completed "${result.todo.title}"${rest}`] with [result.todos]; the
    title of a [todo] that is [undefined] is a [TypeError]. *)
Definition reply_completed (result : payload) (rest : string)
  : Prog World CallToolResult :=
  match answer_todo result with
  | None => throw TypeError
  | Some todo =>
      ret (replyWithTodos ("Completed " +:+ quoted (title todo) +:+ rest)
             (answer_todos result))
  end.

(** The handlers that [createTodoServer(todoHtml, callInternalApi)]
    registers, with the [callInternalApi] of [server.js]; [wf] is what the
    system answers to the [writeFile] of the call. *)
Definition call_tool (wf : option string) (c : tool_call) : Prog World CallToolResult :=
  let callInternalApi := callInternalApi toLowerCase trim in
  match c with
  | add_todo args_title =>
      let trimmed := match args_title with Some s => trim s | None => EmptyString end in
      let* result :=
        callInternalApi wf "POST" "/api/todos"
          (Some (JObject [("title", JString trimmed)])) in
      if negb (ok result)
      then ret (replyWithTodos "Missing title." (or_empty (answer_todos result)))
      else
        match answer_todo result with
        | None => throw TypeError
        | Some todo =>
            ret (replyWithTodos ("Added " +:+ quoted (title todo) +:+ ".")
                   (answer_todos result))
        end
  | complete_todo args_id =>
      match args_id with
      | None | Some EmptyString =>
          let* list := callInternalApi wf "GET" "/api/todos" None in
          ret (replyWithTodos "Missing todo id." (answer_todos list))
      | Some i =>
          let* result := callInternalApi wf "PUT" ("/api/todos/" +:+ i) None in
          if negb (ok result)
          then ret (replyWithTodos ("Todo " +:+ i +:+ " was not found.")
                      (or_empty (answer_todos result)))
          else reply_completed result "."
      end
  | list_todos_tool =>
      let* result := callInternalApi wf "GET" "/api/todos" None in
      match answer_todos result with
      | None => throw TypeError
      | Some list =>
          if Nat.eqb (length list) 0
          then ret (replyWithTodos "No todos yet." (Some list))
          else
            let completed := length (List.filter completed list) in
            let total := length list in
            let summary :=
              "You have " +:+ pretty total +:+ " task"
              +:+ (if Nat.eqb total 1 then EmptyString else "s")
              +:+ " (" +:+ pretty completed +:+ " completed, "
              +:+ pretty (total - completed)%nat +:+ " remaining)" in
            ret (mkCallToolResult [summary] (Some list))
      end
  | complete_todo_by_index args_index =>
      match args_index with
      | None | Some 0 =>
          let* list := callInternalApi wf "GET" "/api/todos" None in
          ret (replyWithTodos "Missing todo index." (answer_todos list))
      | Some index =>
          let* result :=
            callInternalApi wf "POST" "/api/todos/complete-by-index"
              (Some (JObject [("index", JNumber (mkNumber index 0))])) in
          if negb (ok result)
          then
            let* list := callInternalApi wf "GET" "/api/todos" None in
            match answer_todos list with
            | None => throw TypeError
            | Some l =>
                ret (replyWithTodos
                       ("Invalid index. There are only " +:+ pretty (length l)
                        +:+ " todo(s).")
                       (Some l))
            end
          else reply_completed result (" (task #" +:+ pretty index +:+ ").")
      end
  | complete_todo_by_title args_title =>
      let searchTitle :=
        match args_title with Some s => trim s | None => EmptyString end in
      if String.eqb searchTitle EmptyString
      then
        let* list := callInternalApi wf "GET" "/api/todos" None in
        ret (replyWithTodos "Missing search title." (answer_todos list))
      else
        let* result :=
          callInternalApi wf "POST" "/api/todos/complete-by-title"
            (Some (JObject [("title", JString searchTitle)])) in
        if negb (ok result)
        then
          let* list := callInternalApi wf "GET" "/api/todos" None in
          ret (replyWithTodos
                 ("No incomplete todo found matching " +:+ quoted searchTitle +:+ ".")
                 (answer_todos list))
        else reply_completed result "."
  end.
End Tools.

(* ================================================================== *)
(** * Properties *)

(** ** The embedding at work *)

(** Start empty, add two todos, complete the first by position and the
    second by title, delete the completed ones: the list is empty again and
    the counter stays at 3. *)
Example two_todos_come_and_go :
  let calls := [(None, Add "Buy milk"); (None, Add "Walk dog");
                (None, CompleteByIndex 1); (None, CompleteByTitle "dog");
                (None, DeleteCompleted)] in
  map snd (fst (run ascii_toLowerCase calls empty_store))
  = [Returned (Added (mkTodo "todo-1" "Buy milk" false));
     Returned (Added (mkTodo "todo-2" "Walk dog" false));
     Returned (CompletedAt (Ok (Some (mkTodo "todo-1" "Buy milk" true), 1)));
     Returned (Completed (Ok (Some (mkTodo "todo-2" "Walk dog" true))));
     Returned (DeletedCompleted
                 ([mkTodo "todo-1" "Buy milk" true; mkTodo "todo-2" "Walk dog" true], []))]
  /\ this (snd (run ascii_toLowerCase calls empty_store))
     = mkTodoService "data/todos.json" [] 3.
Proof. split; reflexivity. Qed.

Example completeById_on_empty_store :
  completeById None "todo-99" empty_store = (Returned (NotOk not_found), empty_store).
Proof. reflexivity. Qed.

(** ** The save path *)

Lemma saveAtomically_written (newTodos : list Todo) (w : World) :
  saveAtomically None newTodos w =
    (Returned tt,
     mkWorld (mkTodoService (dataFile (this w)) newTodos (nextId (this w)))
       (mkDisk (<[dataFile (this w) := JSON_stringify newTodos (nextId (this w))]>
                  (files (disk w)))
               ((dataFile (this w), JSON_stringify newTodos (nextId (this w)))
                  :: writes (disk w)))).
Proof. reflexivity. Qed.

Lemma saveAtomically_rejected (code : string) (newTodos : list Todo) (w : World) :
  saveAtomically (Some code) newTodos w =
    (Threw (SystemError code),
     mkWorld (this w)
       (mkDisk (files (disk w))
               ((dataFile (this w), JSON_stringify newTodos (nextId (this w)))
                  :: writes (disk w)))).
Proof. reflexivity. Qed.

(** ** Lists: [find], [map] and [filter] as the methods use them *)

Lemma has_id_true (i : string) (t : Todo) : has_id i t = true <-> id t = i.
Proof. unfold has_id. apply String.eqb_eq. Qed.

Lemma has_id_false (i : string) (t : Todo) : has_id i t = false <-> id t <> i.
Proof. unfold has_id. apply String.eqb_neq. Qed.

Lemma has_id_mark_completed (i : string) (t : Todo) :
  has_id i (mark_completed t) = has_id i t.
Proof. reflexivity. Qed.

Lemma has_id_complete_if_id (i j : string) (t : Todo) :
  has_id i (complete_if_id j t) = has_id i t.
Proof. unfold complete_if_id. destruct (has_id j t); reflexivity. Qed.

Lemma find_absent (i : string) (l : list Todo) :
  List.find (has_id i) l = None <-> i ∉ ids l.
Proof.
  induction l as [|t l IH]; simpl.
  - split; [intros _; apply not_elem_of_nil | reflexivity].
  - destruct (has_id i t) eqn:E.
    + apply has_id_true in E. split; [discriminate|].
      intros H. exfalso. apply H. rewrite <- E. apply list_elem_of_here.
    + apply has_id_false in E. rewrite IH. unfold ids. simpl.
      rewrite not_elem_of_cons. split; [intros H; split; congruence | tauto].
Qed.

(** [find] returns the first record carrying the id. *)
Lemma find_first (i : string) (l : list Todo) (t : Todo) :
  List.find (has_id i) l = Some t <->
  exists l1 l2, l = l1 ++ t :: l2 /\ id t = i /\ i ∉ ids l1.
Proof.
  revert t. induction l as [|a l IH]; intros t; simpl.
  - split; [discriminate|]. intros (l1 & l2 & H & _). destruct l1; discriminate.
  - destruct (has_id i a) eqn:E.
    + apply has_id_true in E. split.
      * intros [= <-]. exists [], l. split; [reflexivity|]. split; [assumption|].
        apply not_elem_of_nil.
      * intros ([|b l1] & l2 & H & Hid & Hn); simpl in H.
        -- congruence.
        -- injection H as <- _. exfalso. apply Hn. rewrite <- E. apply list_elem_of_here.
    + apply has_id_false in E. rewrite IH. split.
      * intros (l1 & l2 & -> & Hid & Hn). exists (a :: l1), l2.
        split; [reflexivity|]. split; [assumption|].
        unfold ids. simpl. rewrite not_elem_of_cons. split; [congruence | exact Hn].
      * intros ([|b l1] & l2 & H & Hid & Hn); simpl in H.
        -- injection H as -> _. congruence.
        -- injection H as <- ->. exists l1, l2. split; [reflexivity|].
           split; [assumption|]. unfold ids in Hn. simpl in Hn.
           rewrite not_elem_of_cons in Hn. tauto.
Qed.

Lemma find_after_complete (i : string) (l : list Todo) :
  List.find (has_id i) (map (complete_if_id i) l) =
  option_map mark_completed (List.find (has_id i) l).
Proof.
  induction l as [|a l IH]; simpl; [reflexivity|].
  rewrite has_id_complete_if_id. unfold complete_if_id at 1.
  destruct (has_id i a); [reflexivity | exact IH].
Qed.

Lemma complete_if_id_other (i : string) (l : list Todo) :
  i ∉ ids l -> map (complete_if_id i) l = l.
Proof.
  induction l as [|a l IH]; simpl; [reflexivity|].
  unfold ids. simpl. rewrite not_elem_of_cons. intros [Ha Hl].
  rewrite IH by exact Hl. unfold complete_if_id.
  destruct (has_id i a) eqn:E; [|reflexivity].
  apply has_id_true in E. congruence.
Qed.

(** With unique ids, completing by id touches the one record carrying it. *)
Lemma complete_if_id_unique (l1 l2 : list Todo) (t : Todo) :
  NoDup (ids (l1 ++ t :: l2)) ->
  map (complete_if_id (id t)) (l1 ++ t :: l2) = l1 ++ mark_completed t :: l2.
Proof.
  unfold ids. rewrite map_app. simpl. intros H.
  apply NoDup_app in H as (_ & H1 & H2). apply NoDup_cons in H2 as [H2 _].
  rewrite map_app. simpl. f_equal.
  - apply complete_if_id_other. intros Hin. apply (H1 _ Hin). apply list_elem_of_here.
  - unfold complete_if_id at 1. unfold has_id. rewrite String.eqb_refl. f_equal.
    apply complete_if_id_other. exact H2.
Qed.

(** ** Failed writes *)

(** On the integers up to 2^53 in size nothing is rounded. *)
Lemma to_double_safe (z : Z) : - 2 ^ 53 <= z <= 2 ^ 53 -> to_double z = z.
Proof.
  intros H. unfold to_double.
  replace (Z.abs z <=? 2 ^ 53) with true; [reflexivity|].
  symmetry. apply Z.leb_le. lia.
Qed.

Lemma add_rejected (code title : string) (w : World) :
  add (Some code) title w =
    (Threw (SystemError code),
     mkWorld (mkTodoService (dataFile (this w)) (todos (this w))
                (to_double (nextId (this w) + 1)))
       (mkDisk (files (disk w))
          ((dataFile (this w),
            JSON_stringify
              (todos (this w) ++
                 [{| id := "todo-" +:+ pretty (nextId (this w));
                     title := title; completed := false |}])
              (to_double (nextId (this w) + 1))) :: writes (disk w)))).
Proof. reflexivity. Qed.

Lemma index_in_range (index : Z) (l : list Todo) :
  (index <? 1) || (Z.of_nat (length l) <? index) = false ->
  exists t, l !! Z.to_nat (index - 1) = Some t.
Proof.
  intros H. apply orb_false_iff in H as [H1 H2].
  apply Z.ltb_ge in H1. apply Z.ltb_ge in H2.
  apply lookup_lt_is_Some_2. lia.
Qed.

(** Whatever the method, a rejected write leaves [list()] as it was, and the
    call either throws the system's error or had nothing to write and
    changed nothing. *)
Lemma rejected_write_keeps_list (toLowerCase : string -> string)
    (code : string) (req : request) (w : World) :
  list_todos (snd (perform toLowerCase (Some code) req w)) = list_todos w /\
  (fst (perform toLowerCase (Some code) req w) = Threw (SystemError code) \/
   exists a, perform toLowerCase (Some code) req w = (Returned a, w)).
Proof.
  destruct w as [[path l n] d]. destruct req as [t|i|index|q|i|]; simpl.
  - split; [reflexivity | left; reflexivity].
  - unfold perform, fmap_prog, completeById, bind, get_this, ret; simpl.
    destruct (List.find (has_id i) l) as [t|]; simpl.
    + destruct (completed t); simpl; [split; [reflexivity | right; eauto]|].
      split; [reflexivity | left; reflexivity].
    + split; [reflexivity | right; eauto].
  - unfold perform, fmap_prog, completeByIndex, bind, get_this, ret; simpl.
    destruct ((index <? 1) || (Z.of_nat (length l) <? index)) eqn:E; simpl.
    + split; [reflexivity | right; eauto].
    + destruct (index_in_range index l E) as [t ->].
      destruct (completed t); simpl; [split; [reflexivity | right; eauto]|].
      split; [reflexivity | left; reflexivity].
  - unfold perform, fmap_prog, completeByTitle, bind, get_this, ret; simpl.
    destruct (List.find _ l) as [t|]; simpl.
    + split; [reflexivity | left; reflexivity].
    + split; [reflexivity | right; eauto].
  - unfold perform, fmap_prog, deleteById, bind, get_this, ret; simpl.
    destruct (List.find (has_id i) l) as [t|]; simpl.
    + split; [reflexivity | left; reflexivity].
    + split; [reflexivity | right; eauto].
  - unfold perform, fmap_prog, deleteCompleted, bind, get_this, ret; simpl.
    destruct (length (List.filter completed l) =? 0)%nat; simpl.
    + split; [reflexivity | right; eauto].
    + split; [reflexivity | left; reflexivity].
Qed.

(** C1, at the input where the code departs from it: [add] on the empty store
    while [writeFile] is rejected.  The call throws and [list()] is
    unchanged, yet the counter has moved from 1 to 2: [add] increments
    [this.nextId] before the save, so the in-memory state is not left at its
    prior value, and the next [add] hands out [todo-2] on a store that never
    held a [todo-1]. *)
Theorem add_rejected_write_moves_counter :
  let w := empty_store in
  let w' := snd (add (Some "ENOSPC") "Buy milk" w) in
  fst (add (Some "ENOSPC") "Buy milk" w) = Threw (SystemError "ENOSPC") /\
  list_todos w' = list_todos w /\
  nextId (this w) = 1 /\
  nextId (this w') = 2 /\
  this w' <> this w /\
  fst (add None "Buy milk" w') = Returned (mkTodo "todo-2" "Buy milk" false).
Proof. repeat split. discriminate. Qed.

(** ** Minting ids *)

Lemma mint_inj (a b : Z) : "todo-" +:+ pretty a = "todo-" +:+ pretty b -> a = b.
Proof. simpl. intros [= H]. apply (inj pretty). exact H. Qed.

(** Only [add] moves the counter, to the double nearest to its successor,
    whether or not its write goes through; the record it returns carries
    the value it started from. *)
Lemma perform_counter (toLowerCase : string -> string)
    (wf : option string) (req : request) (w : World) :
  (nextId (this (snd (perform toLowerCase wf req w))) = nextId (this w) \/
   nextId (this (snd (perform toLowerCase wf req w))) = to_double (nextId (this w) + 1)) /\
  forall t, fst (perform toLowerCase wf req w) = Returned (Added t) ->
    id t = "todo-" +:+ pretty (nextId (this w)) /\
    completed t = false /\
    nextId (this (snd (perform toLowerCase wf req w))) = to_double (nextId (this w) + 1).
Proof.
  destruct w as [[path l n] d].
  destruct req as [t|i|index|q|i|]; destruct wf as [code|];
    unfold perform, fmap_prog, add, completeById, completeByIndex,
      completeByTitle, deleteById, deleteCompleted, bind, get_this, ret; simpl.
  1, 2: (split; [right; reflexivity | intros t' [= <-]; simpl; auto]).
  1, 2: destruct (List.find (has_id i) l) as [t|]; simpl;
        [destruct (completed t)|]; simpl; (split; [left; reflexivity | discriminate]).
  1, 2: destruct ((index <? 1) || (Z.of_nat (length l) <? index)) eqn:E; simpl;
        [|destruct (index_in_range index l E) as [t ->]; destruct (completed t)];
        simpl; (split; [left; reflexivity | discriminate]).
  1, 2: destruct (List.find _ l) as [t|]; simpl;
        (split; [left; reflexivity | discriminate]).
  1, 2: destruct (List.find (has_id i) l) as [t|]; simpl;
        (split; [left; reflexivity | discriminate]).
  1, 2: destruct (length (List.filter completed l) =? 0)%nat; simpl;
        (split; [left; reflexivity | discriminate]).
Qed.

(** While the counter stays among the integers up to 2^53, every [add]
    moves it by exactly one. *)
Lemma minted_bounds (toLowerCase : string -> string)
    (calls : list (option string * request)) (w : World) :
  - 2 ^ 53 <= nextId (this w) ->
  nextId (this w) + Z.of_nat (length calls) <= 2 ^ 53 ->
  Forall (fun p => id (snd p) = "todo-" +:+ pretty (fst p) /\ completed (snd p) = false)
         (minted (fst (run toLowerCase calls w))) /\
  Forall (fun n => nextId (this w) <= n < nextId (this (snd (run toLowerCase calls w))))
         (map fst (minted (fst (run toLowerCase calls w)))) /\
  nextId (this w) <= nextId (this (snd (run toLowerCase calls w)))
    <= nextId (this w) + Z.of_nat (length calls) /\
  StronglySorted Z.lt (map fst (minted (fst (run toLowerCase calls w)))).
Proof.
  revert w. induction calls as [|[wf req] calls IH]; intros w Hlo Hhi; simpl.
  - repeat split; try constructor; lia.
  - cbn [length] in Hhi.
    pose proof (perform_counter toLowerCase wf req w) as [Hstep Hadd].
    destruct (perform toLowerCase wf req w) as [r w1] eqn:Ep. simpl in Hstep, Hadd.
    rewrite (to_double_safe (nextId (this w) + 1)) in Hstep, Hadd by lia.
    assert (Hle : nextId (this w) <= nextId (this w1) <= nextId (this w) + 1)
      by (destruct Hstep; lia).
    specialize (IH w1 ltac:(lia) ltac:(lia)) as (IHid & IHb & IHle & IHs).
    destruct (run toLowerCase calls w1) as [tr w2] eqn:Er. simpl in *.
    unfold minted. simpl. fold (minted tr).
    assert (Hweak : Forall (fun n => nextId (this w) <= n < nextId (this w2))
                      (map fst (minted tr))).
    { eapply Forall_impl; [exact IHb|]. simpl. intros; lia. }
    destruct r as [[t| | | |]|e]; simpl;
      try (repeat split; [assumption | assumption | lia | lia | assumption]).
    destruct (Hadd t eq_refl) as (Hid & Hc & Hn).
    repeat split.
    + constructor; [split; assumption | assumption].
    + constructor; [lia | assumption].
    + lia.
    + lia.
    + constructor; [assumption|].
      eapply Forall_impl; [exact IHb|]. simpl. intros; lia.
Qed.

(** C3, where it holds: while the counter stays among the integers that a
    Number counts exactly (it starts at -2^53 or above, and there are no
    more calls than steps left up to 2^53).  Over any such sequence of
    calls (adds, with completions and deletions in between, writes going
    through or not), every record an [add] returned has the id
    ["todo-" + N] for the counter value [N] the call started from; these
    [N] increase strictly in call order, all lie below the final [nextId],
    and the returned ids are pairwise distinct. *)
Theorem add_ids_fresh_and_increasing (toLowerCase : string -> string)
    (calls : list (option string * request)) (w : World) :
  - 2 ^ 53 <= nextId (this w) ->
  nextId (this w) + Z.of_nat (length calls) <= 2 ^ 53 ->
  let m := minted (fst (run toLowerCase calls w)) in
  Forall (fun p => id (snd p) = "todo-" +:+ pretty (fst p) /\ completed (snd p) = false) m /\
  StronglySorted Z.lt (map fst m) /\
  Forall (fun n => n < nextId (this (snd (run toLowerCase calls w)))) (map fst m) /\
  NoDup (map (fun p => id (snd p)) m).
Proof.
  intros Hlo Hhi m.
  destruct (minted_bounds toLowerCase calls w Hlo Hhi) as (Hid & Hb & _ & Hs).
  fold m in Hid, Hb, Hs. repeat split; try assumption.
  - eapply Forall_impl; [exact Hb|]. simpl. intros; lia.
  - assert (Hnd : NoDup (map fst m)).
    { clear -Hs. induction Hs as [|a l Hs IH Ha]; constructor; [|exact IH].
      intros Hin. rewrite Forall_forall in Ha. specialize (Ha _ Hin). lia. }
    assert (Heq : map (fun p => id (snd p)) m
                  = map (fun n => "todo-" +:+ pretty n) (map fst m)).
    { clear -Hid. induction Hid as [|p l [Hp _] _ IH]; simpl; [reflexivity|].
      rewrite Hp, IH. reflexivity. }
    rewrite Heq. apply NoDup_fmap_2; [|exact Hnd].
    intros a b. apply mint_inj.
Qed.

(** C3 does not hold on every store.  At 2^53 the counter no longer
    moves: 2^53 + 1 is no double, and the sum is rounded back to 2^53.  A
    data file with [nextId] 9007199254740992 loads with that counter, and
    then every [add] returns the id [todo-9007199254740992]: the returned
    ids repeat, their numbers do not increase, and [nextId] is not above
    them. *)
Lemma add_repeats_the_id_at_2_53 :
  let path := "data/todos.json" in
  let d := mkDisk {[path := JSON_stringify [] (2 ^ 53)]} [] in
  let w := mkWorld (mkTodoService path [] (2 ^ 53)) d in
  let calls := [(@None string, Add "Buy milk"); (None, Add "Walk dog")] in
  let m := minted (fst (run ascii_toLowerCase calls w)) in
  create None None None path d = (Returned (mkTodoService path [] (2 ^ 53)), d) /\
  map snd m = [mkTodo "todo-9007199254740992" "Buy milk" false;
               mkTodo "todo-9007199254740992" "Walk dog" false] /\
  map fst m = [2 ^ 53; 2 ^ 53] /\
  nextId (this (snd (run ascii_toLowerCase calls w))) = 2 ^ 53 /\
  ~ NoDup (map (fun p => id (snd p)) m) /\
  ~ StronglySorted Z.lt (map fst m) /\
  ~ Forall (fun n => n < nextId (this (snd (run ascii_toLowerCase calls w)))) (map fst m).
Proof.
  intros path d w calls m.
  assert (Hm : m = [(2 ^ 53, mkTodo "todo-9007199254740992" "Buy milk" false);
                    (2 ^ 53, mkTodo "todo-9007199254740992" "Walk dog" false)])
    by (vm_compute; reflexivity).
  assert (Hn : nextId (this (snd (run ascii_toLowerCase calls w))) = 2 ^ 53)
    by (vm_compute; reflexivity).
  split; [vm_compute; reflexivity|].
  rewrite Hm, Hn. cbn [map fst snd id].
  split; [reflexivity|]. split; [reflexivity|]. split; [reflexivity|].
  split; [|split].
  - intros H. apply NoDup_cons in H as [H _]. apply H. apply list_elem_of_here.
  - intros H. inversion H as [|? ? _ Hf]. inversion Hf as [|? ? Hlt _].
    revert Hlt. apply Z.lt_irrefl.
  - intros H. inversion H as [|? ? Hlt _]. revert Hlt. apply Z.lt_irrefl.
Qed.

(** ** completeById *)

Lemma completeById_not_found (wf : option string) (i : string) (w : World) :
  List.find (has_id i) (todos (this w)) = None ->
  completeById wf i w = (Returned (NotOk not_found), w).
Proof.
  intros H. unfold completeById, bind, get_this, ret. rewrite H. reflexivity.
Qed.

Lemma completeById_already (wf : option string) (i : string) (w : World) (t : Todo) :
  List.find (has_id i) (todos (this w)) = Some t ->
  completed t = true ->
  completeById wf i w = (Returned (Ok (Some t)), w).
Proof.
  intros H Hc. unfold completeById, bind, get_this, ret. rewrite H, Hc. reflexivity.
Qed.

Lemma completeById_fresh (i : string) (w : World) (t : Todo) :
  List.find (has_id i) (todos (this w)) = Some t ->
  completed t = false ->
  completeById None i w =
    (Returned (Ok (Some (mark_completed t))),
     snd (saveAtomically None (map (complete_if_id i) (todos (this w))) w)).
Proof.
  intros H Hc. unfold completeById, bind, get_this, ret. rewrite H, Hc.
  rewrite saveAtomically_written. cbn [this todos snd].
  rewrite find_after_complete, H. reflexivity.
Qed.

Lemma completeById_rejected (code i : string) (w : World) (t : Todo) :
  List.find (has_id i) (todos (this w)) = Some t ->
  completed t = false ->
  completeById (Some code) i w =
    (Threw (SystemError code),
     snd (saveAtomically (Some code) (map (complete_if_id i) (todos (this w))) w)).
Proof.
  intros H Hc. unfold completeById, bind, get_this, ret. rewrite H, Hc.
  rewrite saveAtomically_rejected. reflexivity.
Qed.

(** C4.  On an id whose record is already completed, [completeById] returns
    that record and leaves the world, the [writeFile] log included, as it
    was, whatever the disk would have answered.  And when a call returned
    [ok] with a record, that record carries the id and is completed, and a
    second call returns the same record without touching the world. *)
Theorem completeById_idempotent (i : string) (w : World) :
  (forall wf t,
      List.find (has_id i) (todos (this w)) = Some t ->
      completed t = true ->
      completeById wf i w = (Returned (Ok (Some t)), w)) /\
  (forall wf1 wf2 r w',
      completeById wf1 i w = (Returned (Ok r), w') ->
      (exists t, r = Some t /\ id t = i /\ completed t = true) /\
      completeById wf2 i w' = (Returned (Ok r), w')).
Proof.
  split; [intros wf t; apply completeById_already|].
  intros wf1 wf2 r w' H.
  destruct (List.find (has_id i) (todos (this w))) as [t|] eqn:Ef.
  - pose proof Ef as Hfirst. apply find_first in Hfirst as (l1 & l2 & _ & Hid & _).
    destruct (completed t) eqn:Ec.
    + rewrite (completeById_already wf1 i w t Ef Ec) in H. injection H as <- <-.
      split; [eauto|]. apply completeById_already; assumption.
    + destruct wf1 as [code|].
      * rewrite (completeById_rejected code i w t Ef Ec) in H. discriminate.
      * rewrite (completeById_fresh i w t Ef Ec) in H. injection H as <- <-.
        split; [exists (mark_completed t); auto|].
        apply completeById_already; [|reflexivity].
        cbn [this todos]. rewrite find_after_complete, Ef. reflexivity.
  - rewrite (completeById_not_found wf1 i w Ef) in H. discriminate.
Qed.

(** ** completeByIndex *)

Lemma split_at (l : list Todo) (i : nat) (t : Todo) :
  l !! i = Some t -> l = take i l ++ t :: drop (S i) l /\ length (take i l) = i.
Proof.
  intros H. split; [symmetry; apply take_drop_middle; exact H|].
  apply length_take_le. apply lookup_lt_Some in H. lia.
Qed.

Lemma complete_if_at_split (index : Z) (l1 l2 : list Todo) (t : Todo) (k : nat) :
  Z.of_nat (k + length l1) = index - 1 ->
  imap (fun i => complete_if_at index (k + i)) (l1 ++ t :: l2)
  = l1 ++ mark_completed t :: l2.
Proof.
  revert k. induction l1 as [|a l1 IH]; intros k Hk; simpl in *.
  - unfold complete_if_at at 1.
    replace (Z.of_nat (k + 0) =? index - 1) with true by (symmetry; apply Z.eqb_eq; lia).
    f_equal. rewrite <- (list_fmap_id l2) at 2. rewrite <- imap_const.
    apply imap_ext. intros i x _. simpl. unfold complete_if_at.
    replace (Z.of_nat (k + S i) =? index - 1) with false; [reflexivity|].
    symmetry. apply Z.eqb_neq. lia.
  - unfold complete_if_at at 1.
    replace (Z.of_nat (k + 0) =? index - 1) with false
      by (symmetry; apply Z.eqb_neq; lia).
    f_equal. rewrite <- (IH (S k)) by lia.
    apply imap_ext. intros i x _. simpl. f_equal. lia.
Qed.

Lemma complete_at_insert (index : Z) (l : list Todo) (t : Todo) :
  1 <= index ->
  l !! Z.to_nat (index - 1) = Some t ->
  imap (complete_if_at index) l = <[Z.to_nat (index - 1) := mark_completed t]> l.
Proof.
  intros Hi Ht. destruct (split_at l _ t Ht) as [Hl Hlen].
  rewrite Hl at 1 2.
  rewrite (complete_if_at_split index _ _ t 0) by (simpl; lia).
  rewrite insert_app_r_alt by lia. rewrite Hlen, Nat.sub_diag. reflexivity.
Qed.

Lemma find_at_unique (l : list Todo) (i : nat) (t : Todo) :
  NoDup (ids l) -> l !! i = Some t -> List.find (has_id (id t)) l = Some t.
Proof.
  intros Hnd Ht. destruct (split_at l i t Ht) as [Hl _].
  apply find_first. exists (take i l), (drop (S i) l).
  split; [exact Hl|]. split; [reflexivity|].
  rewrite Hl in Hnd. unfold ids in Hnd. rewrite map_app in Hnd. simpl in Hnd.
  apply NoDup_app in Hnd as (_ & H1 & _).
  intros Hin. apply (H1 _ Hin). apply list_elem_of_here.
Qed.

Lemma complete_id_insert (l : list Todo) (i : nat) (t : Todo) :
  NoDup (ids l) -> l !! i = Some t ->
  map (complete_if_id (id t)) l = <[i := mark_completed t]> l.
Proof.
  intros Hnd Ht. destruct (split_at l i t Ht) as [Hl Hlen].
  rewrite Hl at 1 2. rewrite Hl in Hnd.
  rewrite (complete_if_id_unique _ _ _ Hnd).
  rewrite insert_app_r_alt by lia. rewrite Hlen, Nat.sub_diag. reflexivity.
Qed.

Lemma completeByIndex_invalid (wf : option string) (index : Z) (w : World) :
  index < 1 \/ Z.of_nat (length (list_todos w)) < index ->
  completeByIndex wf index w = (Returned (NotOk invalid_index), w).
Proof.
  intros H. unfold completeByIndex, bind, get_this, ret. cbn [list_todos] in *.
  replace ((index <? 1) || (Z.of_nat (length (todos (this w))) <? index)) with true;
    [reflexivity|].
  symmetry. apply orb_true_iff.
  destruct H; [left; apply Z.ltb_lt | right; apply Z.ltb_lt]; assumption.
Qed.

Lemma completeByIndex_guard (index : Z) (w : World) :
  1 <= index <= Z.of_nat (length (list_todos w)) ->
  (index <? 1) || (Z.of_nat (length (todos (this w))) <? index) = false.
Proof.
  intros [H1 H2]. apply orb_false_iff. split; apply Z.ltb_ge; assumption.
Qed.

Lemma completeByIndex_already (wf : option string) (index : Z) (w : World) (t : Todo) :
  1 <= index <= Z.of_nat (length (list_todos w)) ->
  list_todos w !! Z.to_nat (index - 1) = Some t ->
  completed t = true ->
  completeByIndex wf index w = (Returned (Ok (Some t, index)), w).
Proof.
  intros Hr Ht Hc. unfold completeByIndex, bind, get_this, ret.
  rewrite (completeByIndex_guard index w Hr). unfold list_todos in Ht.
  rewrite Ht, Hc. reflexivity.
Qed.

Lemma completeByIndex_fresh (wf : option string) (index : Z) (w : World) (t : Todo) :
  1 <= index <= Z.of_nat (length (list_todos w)) ->
  list_todos w !! Z.to_nat (index - 1) = Some t ->
  completed t = false ->
  completeByIndex wf index w =
    match wf with
    | None => (Returned (Ok (Some (mark_completed t), index)),
               snd (saveAtomically None
                      (<[Z.to_nat (index - 1) := mark_completed t]> (list_todos w)) w))
    | Some code => (Threw (SystemError code),
               snd (saveAtomically (Some code)
                      (<[Z.to_nat (index - 1) := mark_completed t]> (list_todos w)) w))
    end.
Proof.
  intros Hr Ht Hc. unfold completeByIndex, bind, get_this, ret.
  rewrite (completeByIndex_guard index w Hr). unfold list_todos in *.
  rewrite Ht, Hc. rewrite (complete_at_insert index _ t) by (lia || assumption).
  destruct wf as [code|].
  - rewrite saveAtomically_rejected. reflexivity.
  - rewrite saveAtomically_written. cbn [this todos snd].
    rewrite list_lookup_insert_eq by (apply lookup_lt_Some in Ht; exact Ht).
    reflexivity.
Qed.

(** C5.  [completeByIndex] answers [invalid_index], and leaves the world as
    it was, exactly when the index lies outside [1 .. length]; inside it
    finds the record [t] at that position, returns it unchanged when it is
    already completed, otherwise saves the list with that position marked
    completed and returns the marked record, each time with the index; and
    on a store with unique ids this is the answer of [completeById] on
    [t]'s id with the index attached, in the same resulting world. *)
Theorem completeByIndex_spec (wf : option string) (index : Z) (w : World) :
  let n := Z.of_nat (length (list_todos w)) in
  ((index < 1 \/ n < index) <->
   fst (completeByIndex wf index w) = Returned (NotOk invalid_index)) /\
  ((index < 1 \/ n < index) ->
   completeByIndex wf index w = (Returned (NotOk invalid_index), w)) /\
  (1 <= index <= n ->
   exists t, list_todos w !! Z.to_nat (index - 1) = Some t /\
     (completed t = true ->
      completeByIndex wf index w = (Returned (Ok (Some t, index)), w)) /\
     (completed t = false ->
      completeByIndex None index w =
        (Returned (Ok (Some (mark_completed t), index)),
         snd (saveAtomically None
                (<[Z.to_nat (index - 1) := mark_completed t]> (list_todos w)) w))) /\
     (NoDup (ids (list_todos w)) ->
      completeByIndex wf index w =
        fmap_prog (with_index index) (completeById wf (id t)) w)).
Proof.
  intros n.
  assert (Hin : 1 <= index <= n ->
    exists t, list_todos w !! Z.to_nat (index - 1) = Some t).
  { intros Hr. apply lookup_lt_is_Some_2. subst n. lia. }
  split; [|split].
  - split.
    + intros H. rewrite (completeByIndex_invalid wf index w H). reflexivity.
    + intros H. destruct (Z.lt_ge_cases index 1) as [|H1]; [left; assumption|].
      destruct (Z.lt_ge_cases n index) as [|H2]; [right; assumption|].
      exfalso. destruct (Hin (conj H1 H2)) as [t Ht].
      destruct (completed t) eqn:Ec.
      * rewrite (completeByIndex_already wf index w t (conj H1 H2) Ht Ec) in H.
        discriminate.
      * rewrite (completeByIndex_fresh wf index w t (conj H1 H2) Ht Ec) in H.
        destruct wf; discriminate.
  - apply completeByIndex_invalid.
  - intros Hr. destruct (Hin Hr) as [t Ht]. exists t.
    split; [exact Ht|]. split; [|split].
    + apply completeByIndex_already; assumption.
    + intros Ec. apply (completeByIndex_fresh None index w t Hr Ht Ec).
    + intros Hnd. unfold fmap_prog, bind.
      pose proof (find_at_unique _ _ _ Hnd Ht) as Hf.
      destruct (completed t) eqn:Ec.
      * rewrite (completeByIndex_already wf index w t Hr Ht Ec).
        rewrite (completeById_already wf (id t) w t Hf Ec). reflexivity.
      * rewrite (completeByIndex_fresh wf index w t Hr Ht Ec).
        rewrite <- (complete_id_insert _ _ _ Hnd Ht).
        destruct wf as [code|].
        -- rewrite (completeById_rejected code (id t) w t Hf Ec). reflexivity.
        -- rewrite (completeById_fresh (id t) w t Hf Ec). reflexivity.
Qed.

(** ** completeByTitle *)

Lemma starts_with_spec (sub s : string) :
  starts_with sub s = true <-> exists b, s = sub +:+ b.
Proof.
  revert s. induction sub as [|a sub IH]; intros s; simpl.
  - split; [intros _; exists s; reflexivity | reflexivity].
  - destruct s as [|c s].
    + split; [discriminate | intros [b H]; discriminate].
    + rewrite andb_true_iff, IH. split.
      * intros [Hac [b ->]]. apply Ascii.eqb_eq in Hac as ->. exists b. reflexivity.
      * intros [b [= -> ->]]. split; [apply Ascii.eqb_refl | exists b; reflexivity].
Qed.

(** [includes] is the substring test. *)
Lemma includes_spec (s sub : string) :
  includes s sub = true <-> exists a b, s = a +:+ (sub +:+ b).
Proof.
  induction s as [|c s IH]; simpl.
  - rewrite orb_false_r, starts_with_spec. split.
    + intros [b H]. exists EmptyString, b. exact H.
    + intros ([|c a] & b & H); [exists b; exact H | discriminate].
  - rewrite orb_true_iff, starts_with_spec, IH. split.
    + intros [[b H] | (a & b & ->)].
      * exists EmptyString, b. exact H.
      * exists (String c a), b. reflexivity.
    + intros ([|c' a] & b & H); simpl in H.
      * left. exists b. exact H.
      * injection H as <- ->. right. exists a, b. reflexivity.
Qed.

Lemma find_none_forall {A} (p : A -> bool) (l : list A) :
  List.find p l = None <-> Forall (fun x => p x = false) l.
Proof.
  induction l as [|a l IH]; simpl.
  - split; [constructor | reflexivity].
  - destruct (p a) eqn:E.
    + split; [discriminate|]. intros H. apply Forall_cons in H as [H _]. congruence.
    + rewrite IH. split; [intros H; constructor; assumption|].
      intros H. apply Forall_cons in H as [_ H]. exact H.
Qed.

Lemma find_split {A} (p : A -> bool) (l l1 l2 : list A) (t : A) :
  l = l1 ++ t :: l2 -> Forall (fun x => p x = false) l1 -> p t = true ->
  List.find p l = Some t.
Proof.
  intros -> H1 Ht. induction H1 as [|a l1 Ha _ IH]; simpl.
  - rewrite Ht. reflexivity.
  - rewrite Ha. exact IH.
Qed.

Lemma find_some_split {A} (p : A -> bool) (l : list A) (t : A) :
  List.find p l = Some t ->
  exists l1 l2, l = l1 ++ t :: l2 /\ Forall (fun x => p x = false) l1 /\ p t = true.
Proof.
  induction l as [|a l IH]; simpl; [discriminate|].
  destruct (p a) eqn:E.
  - intros [= <-]. exists [], l. repeat split; [constructor | exact E].
  - intros H. destruct (IH H) as (l1 & l2 & -> & H1 & Ht).
    exists (a :: l1), l2. repeat split; [constructor; assumption | exact Ht].
Qed.

Lemma filter_none {A} (p : A -> bool) (l : list A) :
  Forall (fun x => p x = false) l -> List.filter p l = [].
Proof.
  induction 1 as [|a l Ha _ IH]; simpl; [reflexivity|]. rewrite Ha. exact IH.
Qed.

Lemma find_in_unique (l1 l2 : list Todo) (t : Todo) :
  NoDup (ids (l1 ++ t :: l2)) -> List.find (has_id (id t)) (l1 ++ t :: l2) = Some t.
Proof.
  intros Hnd. apply find_first. exists l1, l2. split; [reflexivity|].
  split; [reflexivity|]. unfold ids in Hnd. rewrite map_app in Hnd. simpl in Hnd.
  apply NoDup_app in Hnd as (_ & H1 & _).
  intros Hin. apply (H1 _ Hin). apply list_elem_of_here.
Qed.

Section ByTitleFacts.
Variable toLowerCase : string -> string.

Lemma is_candidate_spec (q : string) (t : Todo) :
  is_candidate toLowerCase (toLowerCase q) t = true <->
  completed t = false /\
  exists a b, toLowerCase (title t) = a +:+ (toLowerCase q +:+ b).
Proof.
  unfold is_candidate. rewrite andb_true_iff, negb_true_iff, includes_spec.
  reflexivity.
Qed.

Lemma completeByTitle_not_found (wf : option string) (q : string) (w : World) :
  Forall (fun t => is_candidate toLowerCase (toLowerCase q) t = false) (list_todos w) ->
  completeByTitle toLowerCase wf q w = (Returned (NotOk not_found), w).
Proof.
  intros H. apply find_none_forall in H. unfold list_todos in H.
  unfold completeByTitle, bind, get_this, ret. rewrite H. reflexivity.
Qed.

Lemma completeByTitle_match (q : string) (w : World) (l1 l2 : list Todo) (t : Todo) :
  NoDup (ids (list_todos w)) ->
  list_todos w = l1 ++ t :: l2 ->
  Forall (fun t => is_candidate toLowerCase (toLowerCase q) t = false) l1 ->
  is_candidate toLowerCase (toLowerCase q) t = true ->
  completeByTitle toLowerCase None q w =
    (Returned (Ok (Some (mark_completed t))),
     snd (saveAtomically None (l1 ++ mark_completed t :: l2) w)).
Proof.
  intros Hnd Hl H1 Ht. unfold list_todos in *.
  unfold completeByTitle, bind, get_this, ret.
  rewrite (find_split _ _ _ _ _ Hl H1 Ht). rewrite Hl in *.
  rewrite (complete_if_id_unique _ _ _ Hnd).
  rewrite saveAtomically_written. cbn [this todos snd].
  rewrite <- (complete_if_id_unique _ _ _ Hnd).
  rewrite find_after_complete, (find_in_unique _ _ _ Hnd). reflexivity.
Qed.
End ByTitleFacts.

(** C6, as the code has it.  A record is a candidate for a query exactly
    when it is incomplete and its folded title contains the folded query as
    a substring.  When no record is a candidate the call answers
    [not_found] and changes nothing.  Otherwise, with [t] the first
    candidate in display order and the ids of the store unique, the call
    completes [t] alone and returns it, and the candidates left for the
    next call with the same query are those that came after [t].  On every
    store, unique ids or not, the call completes the records that carry the
    id of [t] and returns the first of them. *)
Theorem completeByTitle_spec (toLowerCase : string -> string) (q : string) (w : World) :
  let cand := is_candidate toLowerCase (toLowerCase q) in
  (forall t, cand t = true <->
     completed t = false /\
     exists a b, toLowerCase (title t) = a +:+ (toLowerCase q +:+ b)) /\
  (Forall (fun t => cand t = false) (list_todos w) ->
   forall wf, completeByTitle toLowerCase wf q w = (Returned (NotOk not_found), w)) /\
  (forall l1 t l2,
     list_todos w = l1 ++ t :: l2 ->
     Forall (fun t => cand t = false) l1 ->
     cand t = true ->
     NoDup (ids (list_todos w)) ->
     let w' := snd (completeByTitle toLowerCase None q w) in
     fst (completeByTitle toLowerCase None q w) = Returned (Ok (Some (mark_completed t))) /\
     list_todos w' = l1 ++ mark_completed t :: l2 /\
     nextId (this w') = nextId (this w) /\
     List.filter cand (list_todos w) = t :: List.filter cand l2 /\
     List.filter cand (list_todos w') = List.filter cand l2) /\
  (Forall (fun t => cand t = false) (list_todos w) \/
   exists l1 t l2, list_todos w = l1 ++ t :: l2 /\
     Forall (fun t => cand t = false) l1 /\ cand t = true) /\
  (forall l1 t l2,
     list_todos w = l1 ++ t :: l2 ->
     Forall (fun t => cand t = false) l1 ->
     cand t = true ->
     let w' := snd (completeByTitle toLowerCase None q w) in
     fst (completeByTitle toLowerCase None q w)
     = Returned (Ok (option_map mark_completed
                       (List.find (has_id (id t)) (list_todos w)))) /\
     list_todos w' = map (complete_if_id (id t)) (list_todos w) /\
     nextId (this w') = nextId (this w)).
Proof.
  intros cand. split; [|split; [|split; [|split]]].
  - intros t. apply is_candidate_spec.
  - intros H wf. apply completeByTitle_not_found. exact H.
  - intros l1 t l2 Hl H1 Ht Hnd w'. subst w'.
    rewrite (completeByTitle_match toLowerCase q w l1 l2 t Hnd Hl H1 Ht).
    rewrite saveAtomically_written. unfold list_todos in *.
    cbn [fst snd this todos nextId].
    split; [reflexivity|]. split; [reflexivity|]. split; [reflexivity|].
    rewrite Hl.
    rewrite !List.filter_app, !(filter_none cand l1 H1). simpl.
    fold cand. rewrite Ht.
    replace (cand (mark_completed t)) with false by reflexivity.
    split; reflexivity.
  - destruct (List.find cand (list_todos w)) as [t|] eqn:Ef.
    + right. apply find_some_split in Ef as (l1 & l2 & Hl & H1 & Ht). eauto 6.
    + left. apply find_none_forall. exact Ef.
  - intros l1 t l2 Hl H1 Ht w'. subst w'. unfold list_todos in *.
    unfold completeByTitle, bind, get_this, ret.
    fold cand. rewrite (find_split _ _ _ _ _ Hl H1 Ht).
    rewrite saveAtomically_written. cbn [fst snd this todos nextId].
    rewrite find_after_complete. repeat split.
Qed.

(** ** deleteById *)

Lemma filter_all {A} (p : A -> bool) (l : list A) :
  Forall (fun x => p x = true) l -> List.filter p l = l.
Proof.
  induction 1 as [|a l Ha _ IH]; simpl; [reflexivity|]. rewrite Ha, IH. reflexivity.
Qed.

Lemma keep_others (i : string) (l : list Todo) :
  i ∉ ids l -> Forall (fun t => negb (has_id i t) = true) l.
Proof.
  intros H. apply Forall_forall. intros t Ht. apply negb_true_iff, has_id_false.
  intros <-. apply H. unfold ids. apply list_elem_of_fmap. eauto.
Qed.

Lemma filter_out_gone (i : string) (l : list Todo) :
  i ∉ ids (List.filter (fun task => negb (has_id i task)) l).
Proof.
  unfold ids. intros H. apply list_elem_of_fmap in H as (t & -> & Ht).
  apply list_elem_of_In, List.filter_In in Ht as [_ Ht].
  apply negb_true_iff, has_id_false in Ht. congruence.
Qed.

Lemma deleteById_not_found (wf : option string) (i : string) (w : World) :
  i ∉ ids (list_todos w) ->
  deleteById wf i w = (Returned (NotOk not_found), w).
Proof.
  intros H. apply find_absent in H. unfold list_todos in H.
  unfold deleteById, bind, get_this, ret. rewrite H. reflexivity.
Qed.

Lemma deleteById_found (i : string) (w : World) (t : Todo) :
  List.find (has_id i) (list_todos w) = Some t ->
  deleteById None i w =
    (Returned (Ok t),
     snd (saveAtomically None
            (List.filter (fun task => negb (has_id i task)) (list_todos w)) w)).
Proof.
  intros H. unfold list_todos in *.
  unfold deleteById, bind, get_this, ret. rewrite H. reflexivity.
Qed.

(** C7, as the code has it.  When no record carries the id, [deleteById]
    answers [not_found] and changes nothing.  When one does, the call
    returns the first such record as it was, and afterwards [list()] is the
    old list without the records of that id, all of them: the id is gone,
    every other record is still there, in the old order; and on a store
    with unique ids, where the list is [l1 ++ t :: l2] with [t] the record
    of that id, what is left is [l1 ++ l2]. *)
Theorem deleteById_spec (i : string) (w : World) :
  (i ∉ ids (list_todos w) ->
   forall wf, deleteById wf i w = (Returned (NotOk not_found), w)) /\
  (i ∈ ids (list_todos w) ->
   let w' := snd (deleteById None i w) in
   exists t, t ∈ list_todos w /\ id t = i /\
     fst (deleteById None i w) = Returned (Ok t) /\
     List.find (has_id i) (list_todos w) = Some t /\
     list_todos w' = List.filter (fun t' => negb (has_id i t')) (list_todos w) /\
     (i ∉ ids (list_todos w')) /\
     sublist (list_todos w') (list_todos w) /\
     (forall t', t' ∈ list_todos w -> id t' <> i -> t' ∈ list_todos w') /\
     nextId (this w') = nextId (this w) /\
     (NoDup (ids (list_todos w)) ->
      forall l1 l2, list_todos w = l1 ++ t :: l2 -> list_todos w' = l1 ++ l2)).
Proof.
  split; [intros H wf; apply deleteById_not_found; exact H|].
  intros Hin w'.
  destruct (List.find (has_id i) (list_todos w)) as [t|] eqn:Ef;
    [|apply find_absent in Ef; contradiction].
  subst w'. rewrite (deleteById_found i w t Ef).
  rewrite saveAtomically_written. unfold list_todos in *.
  cbn [fst snd this todos nextId].
  pose proof Ef as Hsplit. apply find_first in Hsplit as (l1 & l2 & Hl & Hid & Hn1).
  exists t. split; [rewrite Hl; apply elem_of_app; right; apply list_elem_of_here|].
  split; [exact Hid|]. split; [reflexivity|].
  split; [reflexivity|]. split; [reflexivity|].
  split; [apply filter_out_gone|].
  split.
  { clear. induction (todos (this w)) as [|a l IH]; simpl; [constructor|].
    destruct (negb (has_id i a)); [apply sublist_skip | apply sublist_cons]; exact IH. }
  split.
  { intros t' Ht' Hne. apply list_elem_of_In, List.filter_In.
    split; [apply list_elem_of_In; exact Ht'|]. apply negb_true_iff, has_id_false. exact Hne. }
  split; [reflexivity|].
  intros Hnd k1 k2 Hk. rewrite Hk in Hnd |- *.
  unfold ids in Hnd. rewrite map_app in Hnd. simpl in Hnd.
  apply NoDup_app in Hnd as (_ & H1 & H2). apply NoDup_cons in H2 as [H2 _].
  rewrite List.filter_app. simpl.
  replace (negb (has_id i t)) with false
    by (symmetry; apply negb_false_iff, has_id_true; exact Hid).
  rewrite !filter_all; [reflexivity | |].
  - apply keep_others. rewrite <- Hid. exact H2.
  - apply keep_others. rewrite <- Hid. intros Hk1. apply (H1 _ Hk1), list_elem_of_here.
Qed.

(** ** deleteCompleted *)

Lemma none_completed (l : list Todo) :
  List.filter completed l = [] -> List.filter (fun t => negb (completed t)) l = l.
Proof.
  induction l as [|a l IH]; simpl; [reflexivity|].
  destruct (completed a); simpl; [discriminate|]. intros H. rewrite IH by exact H. reflexivity.
Qed.

Lemma deleteCompleted_nothing (wf : option string) (w : World) :
  List.filter completed (list_todos w) = [] ->
  deleteCompleted wf w = (Returned ([], list_todos w), w).
Proof.
  intros H. unfold list_todos in *.
  unfold deleteCompleted, bind, get_this, ret. rewrite H. reflexivity.
Qed.

Lemma deleteCompleted_some (w : World) :
  List.filter completed (list_todos w) <> [] ->
  deleteCompleted None w =
    (Returned (List.filter completed (list_todos w),
               List.filter (fun t => negb (completed t)) (list_todos w)),
     snd (saveAtomically None
            (List.filter (fun t => negb (completed t)) (list_todos w)) w)).
Proof.
  intros H. unfold list_todos in *.
  unfold deleteCompleted, bind, get_this, ret.
  destruct (List.filter completed (todos (this w))) as [|a l] eqn:E; [congruence|].
  reflexivity.
Qed.

(** C8.  When nothing is completed, [deleteCompleted] answers success with
    an empty [deleted] and changes nothing, the disk included.  Otherwise,
    its single write going through, it returns the records that were
    completed, in order, with the list it leaves; that list is the records
    that were not completed, in order; [nextId] is untouched, and the
    [writeFile] log has grown by exactly the one entry for the new list. *)
Theorem deleteCompleted_spec (w : World) :
  let done := List.filter completed (list_todos w) in
  let rest := List.filter (fun t => negb (completed t)) (list_todos w) in
  let w' := snd (deleteCompleted None w) in
  (done = [] -> forall wf, deleteCompleted wf w = (Returned ([], list_todos w), w)) /\
  fst (deleteCompleted None w) = Returned (done, list_todos w') /\
  list_todos w' = rest /\
  nextId (this w') = nextId (this w) /\
  Forall (fun t => completed t = false) (list_todos w') /\
  (forall t, t ∈ done <-> t ∈ list_todos w /\ completed t = true) /\
  (forall t, t ∈ list_todos w' <-> t ∈ list_todos w /\ completed t = false) /\
  (done <> [] ->
   writes (disk w') =
     (dataFile (this w), JSON_stringify rest (nextId (this w))) :: writes (disk w) /\
   files (disk w') !! dataFile (this w) = Some (JSON_stringify rest (nextId (this w)))).
Proof.
  intros done rest w'.
  assert (Hdone : forall t, t ∈ done <-> t ∈ list_todos w /\ completed t = true).
  { intros t. subst done. rewrite !list_elem_of_In. apply List.filter_In. }
  assert (Hrest : forall t, t ∈ rest <-> t ∈ list_todos w /\ completed t = false).
  { intros t. subst rest. rewrite !list_elem_of_In, List.filter_In, negb_true_iff.
    reflexivity. }
  assert (Hw' : list_todos w' = rest /\ nextId (this w') = nextId (this w) /\
                fst (deleteCompleted None w) = Returned (done, list_todos w') /\
                (done <> [] ->
                 writes (disk w') =
                   (dataFile (this w), JSON_stringify rest (nextId (this w)))
                     :: writes (disk w) /\
                 files (disk w') !! dataFile (this w)
                 = Some (JSON_stringify rest (nextId (this w))))).
  { subst w'. destruct done as [|a l] eqn:Ed.
    - rewrite (deleteCompleted_nothing None w Ed). simpl.
      subst rest. rewrite (none_completed _ Ed).
      split; [reflexivity|]. split; [reflexivity|]. split; [reflexivity|].
      intros H. congruence.
    - assert (Hne : List.filter completed (list_todos w) <> []).
      { fold done. rewrite Ed. discriminate. }
      rewrite (deleteCompleted_some w Hne). rewrite saveAtomically_written.
      fold rest. cbn [fst snd list_todos this todos nextId disk writes files].
      fold done. rewrite Ed.
      repeat split. apply lookup_insert_eq. }
  destruct Hw' as (Hl & Hn & Hr & Hwr).
  split; [intros Hd wf; apply deleteCompleted_nothing; exact Hd|].
  split; [exact Hr|]. split; [exact Hl|]. split; [exact Hn|].
  split.
  { rewrite Hl. apply Forall_forall. intros t Ht. apply Hrest in Ht. tauto. }
  split; [exact Hdone|]. split; [|exact Hwr].
  intros t. rewrite Hl. apply Hrest.
Qed.

(** ** Reading back what was written: numbers *)

Lemma digit_value_pretty (d : N) :
  (d < 10)%N -> digit_value (pretty_N_char d) = Some d.
Proof.
  intros H.
  assert (d = 0 \/ d = 1 \/ d = 2 \/ d = 3 \/ d = 4 \/ d = 5 \/ d = 6 \/ d = 7
          \/ d = 8 \/ d = 9)%N as Hd by lia.
  repeat (destruct Hd as [-> | Hd]; [reflexivity|]). subst d. reflexivity.
Qed.

(** Reading the digits [pretty_N_go x] puts in front of [s] appends [x] to
    the accumulator. *)
Lemma read_digits_pretty (x : N) :
  exists (p : N) (d : nat), forall s acc count,
    read_digits (pretty_N_go x s) acc count = read_digits s (acc * p + x)%N (count + d)%nat.
Proof.
  induction (N.lt_wf_0 x) as [x _ IH].
  destruct (N.eq_dec x 0%N) as [-> | Hx].
  - exists 1%N, O. intros s acc count. rewrite pretty_N_go_0.
    replace (acc * 1 + 0)%N with acc by lia.
    replace (count + 0)%nat with count by lia. reflexivity.
  - assert (Hpos : (0 < x)%N) by lia.
    destruct (IH (x / 10)%N) as (p & d & Hpd).
    { apply N.div_lt; lia. }
    exists (p * 10)%N, (S d). intros s acc count.
    rewrite pretty_N_go_step by exact Hpos. rewrite Hpd. simpl.
    rewrite digit_value_pretty by (apply N.mod_lt; lia).
    f_equal; [|lia].
    pose proof (N.div_mod x 10 ltac:(lia)). lia.
Qed.

Lemma pretty_N_go_head (x : N) :
  (0 < x)%N ->
  exists d, (0 < d < 10)%N /\
    forall s, exists s', pretty_N_go x s = String (pretty_N_char d) s'.
Proof.
  induction (N.lt_wf_0 x) as [x _ IH]. intros Hpos.
  destruct (N.lt_ge_cases x 10) as [Hlt | Hge].
  - exists x. split; [lia|]. intros s. exists s.
    rewrite pretty_N_go_step by exact Hpos.
    rewrite N.div_small, N.mod_small by exact Hlt. apply pretty_N_go_0.
  - destruct (IH (x / 10)%N) as (d & Hd & Hs).
    { apply N.div_lt; lia. }
    { apply N.div_str_pos; lia. }
    exists d. split; [exact Hd|]. intros s.
    rewrite pretty_N_go_step by exact Hpos. apply Hs.
Qed.

Lemma pretty_N_go_app (x : N) (s k : string) :
  pretty_N_go x s +:+ k = pretty_N_go x (s +:+ k).
Proof.
  revert s. induction (N.lt_wf_0 x) as [x _ IH]. intros s.
  destruct (N.eq_dec x 0%N) as [-> | Hx].
  - rewrite !pretty_N_go_0. reflexivity.
  - rewrite (pretty_N_go_step x s), (pretty_N_go_step x (s +:+ k)) by lia.
    rewrite IH by (apply N.div_lt; lia). reflexivity.
Qed.

Lemma parse_number_digits (negative : bool) (d : N) (s : string) :
  (0 < d < 10)%N ->
  parse_number ((if negative then String "-" else fun k => k)
                  (String (pretty_N_char d) s)) =
  (let '(m, _, s3) := read_digits (String (pretty_N_char d) s) 0 0 in
   parse_fraction_exponent negative m s3).
Proof.
  intros H.
  assert (d = 1 \/ d = 2 \/ d = 3 \/ d = 4 \/ d = 5 \/ d = 6 \/ d = 7
          \/ d = 8 \/ d = 9)%N as Hd by lia.
  destruct negative;
    repeat (destruct Hd as [-> | Hd]; [reflexivity|]); subst d; reflexivity.
Qed.

Lemma parse_number_positive (negative : bool) (x : N) (k : string) :
  (0 < x)%N ->
  parse_number ((if negative then String "-" else fun k => k)
                  (pretty_N_go x EmptyString +:+ String newline k)) =
  Some (mkNumber (signed negative x) 0, String newline k).
Proof.
  intros Hpos. rewrite pretty_N_go_app.
  change (EmptyString +:+ String newline k) with (String newline k).
  destruct (pretty_N_go_head x Hpos) as (d & Hd & Hs).
  destruct (Hs (String newline k)) as [s' Es].
  destruct (read_digits_pretty x) as (p & n & Hr).
  specialize (Hr (String newline k) 0%N O).
  rewrite Es in *. rewrite (parse_number_digits negative d s' Hd). rewrite Hr.
  replace (0 * p + x)%N with x by lia. reflexivity.
Qed.

Lemma parse_number_pretty (z : Z) (k : string) :
  parse_number (pretty z +:+ String newline k)
  = Some (mkNumber z 0, String newline k).
Proof.
  destruct z as [|q|q].
  - reflexivity.
  - apply (parse_number_positive false (N.pos q) k). lia.
  - apply (parse_number_positive true (N.pos q) k). lia.
Qed.

(** A text that starts as a number does is sent to [parse_number]. *)
Lemma parse_value_number_head (f : nat) (c : ascii) (s : string) :
  c = "-"%char \/ (exists d, (d < 10)%N /\ c = pretty_N_char d) ->
  parse_value (S f) (String c s) =
  match parse_number (String c s) with
  | Some (x, s2) => Some (JNumber x, s2)
  | None => None
  end.
Proof.
  intros [-> | (d & Hd & ->)]; [reflexivity|].
  assert (d = 0 \/ d = 1 \/ d = 2 \/ d = 3 \/ d = 4 \/ d = 5 \/ d = 6 \/ d = 7
          \/ d = 8 \/ d = 9)%N as H by lia.
  repeat (destruct H as [-> | H]; [reflexivity|]). subst d. reflexivity.
Qed.

Lemma pretty_Z_head (z : Z) (k : string) :
  exists c s, pretty z +:+ k = String c s /\
    (c = "-"%char \/ (exists d, (d < 10)%N /\ c = pretty_N_char d)).
Proof.
  destruct z as [|q|q].
  - exists "0"%char, k. split; [reflexivity|]. right. exists 0%N. split; [lia | reflexivity].
  - destruct (pretty_N_go_head (N.pos q) ltac:(lia)) as (d & Hd & Hs).
    destruct (Hs k) as [s' Es].
    exists (pretty_N_char d), s'. split; [|right; exists d; split; [lia | reflexivity]].
    change (pretty (Z.pos q)) with (pretty_N_go (N.pos q) EmptyString).
    rewrite pretty_N_go_app. exact Es.
  - exists "-"%char, (pretty (N.pos q) +:+ k). split; [reflexivity | left; reflexivity].
Qed.

Lemma parse_value_number (f : nat) (z : Z) (k : string) :
  parse_value (S f) (pretty z +:+ String newline k)
  = Some (JNumber (mkNumber z 0), String newline k).
Proof.
  destruct (pretty_Z_head z (String newline k)) as (c & s & E & Hc).
  pose proof (parse_number_pretty z k) as Hn. rewrite E in *.
  rewrite (parse_value_number_head f c s Hc), Hn. reflexivity.
Qed.

(** ** Reading back what was written: strings *)

Lemma parse_chars_quote_char (c : ascii) (rest : string) :
  parse_chars (quote_char c rest) =
  match parse_chars rest with
  | Some (l, k) => Some (item_of c :: l, k)
  | None => None
  end.
Proof.
  destruct c as [[] [] [] [] [] [] [] []]; reflexivity.
Qed.

Lemma string_of_items_item_of (c : ascii) (l : list item) :
  string_of_items (item_of c :: l) = String c (string_of_items l).
Proof.
  destruct c as [[] [] [] [] [] [] [] []];
    try reflexivity; destruct l as [|[x|v] l]; reflexivity.
Qed.

Lemma parse_chars_quote_body (s k : string) :
  parse_chars (quote_body s (String dquote k)) = Some (map item_of (list_ascii_of_string s), k).
Proof.
  induction s as [|c s IH]; simpl; [reflexivity|].
  rewrite parse_chars_quote_char, IH. reflexivity.
Qed.

Lemma string_of_items_of (s : string) :
  string_of_items (map item_of (list_ascii_of_string s)) = s.
Proof.
  induction s as [|c s IH]; [reflexivity|].
  cbn [list_ascii_of_string map]. rewrite string_of_items_item_of, IH. reflexivity.
Qed.

(** Reading a quoted string gives the string back. *)
Lemma parse_string_quote (s k : string) :
  parse_string (quote_body s (String dquote k)) = Some (s, k).
Proof.
  unfold parse_string. rewrite parse_chars_quote_body, string_of_items_of. reflexivity.
Qed.

Lemma parse_value_quote (f : nat) (s k : string) :
  parse_value (S f) (quote s k) = Some (JString s, k).
Proof.
  unfold quote. cbn [parse_value skip_ws]. 
  change (is_ws dquote) with false. cbv iota.
  change (Ascii.eqb dquote "{") with false.
  change (Ascii.eqb dquote "[") with false.
  change (Ascii.eqb dquote dquote) with true. cbv iota.
  rewrite parse_string_quote. reflexivity.
Qed.

Lemma parse_value_bool (f : nat) (b : bool) (k : string) :
  parse_value (S f) (stringify_bool b k) = Some (JBool b, k).
Proof. destruct b; reflexivity. Qed.

(** ** Reading back what was written: the document *)

Lemma skip_ws_spaces (n : nat) (s : string) : skip_ws (spaces n s) = skip_ws s.
Proof. induction n as [|n IH]; [reflexivity | exact IH]. Qed.

Lemma skip_ws_indent (n : nat) (s : string) : skip_ws (indent n s) = skip_ws s.
Proof. unfold indent. cbn [skip_ws]. change (is_ws newline) with true. apply skip_ws_spaces. Qed.

Lemma skip_ws_quote (s k : string) : skip_ws (quote s k) = quote s k.
Proof. reflexivity. Qed.

Lemma parse_value_indent (f n : nat) (s : string) :
  parse_value f (indent n s) = parse_value f s.
Proof. destruct f; [reflexivity|]. cbn [parse_value]. rewrite skip_ws_indent. reflexivity. Qed.

Lemma starts_with_char_here (c : ascii) (s : string) :
  starts_with_char c (String c s) = Some s.
Proof. unfold starts_with_char. rewrite Ascii.eqb_refl. reflexivity. Qed.

Lemma parse_value_space (f : nat) (s : string) :
  parse_value f (String " " s) = parse_value f s.
Proof. destruct f; reflexivity. Qed.

(** A member that is followed by another one. *)
Lemma parse_members_more (f n : nat) (key value_text : string)
    (v : json) (after more : string) (ms : list (string * json)) (rest : string) :
  parse_value f value_text = Some (v, after) ->
  skip_ws after = String "," more ->
  parse_members f more = Some (ms, rest) ->
  parse_members (S f) (indent n (member key value_text))
  = Some ((key, v) :: ms, rest).
Proof.
  intros Hv Ha Hm. cbn [parse_members]. rewrite skip_ws_indent.
  unfold member. rewrite skip_ws_quote. unfold quote.
  rewrite starts_with_char_here, parse_string_quote.
  change (skip_ws (String ":" (String " " value_text)))
    with (String ":" (String " " value_text)).
  rewrite starts_with_char_here, parse_value_space, Hv, Ha, starts_with_char_here, Hm.
  reflexivity.
Qed.

(** The last member of an object. *)
Lemma parse_members_last (f n : nat) (key value_text : string)
    (v : json) (after rest : string) :
  parse_value f value_text = Some (v, after) ->
  skip_ws after = String "}" rest ->
  parse_members (S f) (indent n (member key value_text)) = Some ([(key, v)], rest).
Proof.
  intros Hv Ha. cbn [parse_members]. rewrite skip_ws_indent.
  unfold member. rewrite skip_ws_quote. unfold quote.
  rewrite starts_with_char_here, parse_string_quote.
  change (skip_ws (String ":" (String " " value_text)))
    with (String ":" (String " " value_text)).
  rewrite starts_with_char_here, parse_value_space, Hv, Ha. reflexivity.
Qed.

Lemma parse_value_object (f : nat) (n : nat) (body : string)
    (ms : list (string * json)) (rest : string) :
  parse_members f (indent n (String dquote body)) = Some (ms, rest) ->
  parse_value (S f) (String "{" (indent n (String dquote body))) = Some (JObject ms, rest).
Proof.
  intros H. cbn [parse_value].
  change (skip_ws (String "{" (indent n (String dquote body))))
    with (String "{" (indent n (String dquote body))).
  change (Ascii.eqb "{" "{") with true. cbv iota.
  rewrite skip_ws_indent.
  change (skip_ws (String dquote body)) with (String dquote body).
  change (starts_with_char "}" (String dquote body)) with (@None string).
  rewrite H. reflexivity.
Qed.

Lemma parse_value_todo (f : nat) (t : Todo) (k : string) :
  (5 <= f)%nat ->
  parse_value f (stringify_todo t k) = Some (json_of_todo t, k).
Proof.
  intros Hf. destruct f as [|[|[|[|[|f]]]]]; try lia. clear Hf.
  unfold stringify_todo, json_of_todo.
  apply parse_value_object.
  eapply parse_members_more;
    [apply parse_value_quote | reflexivity |].
  eapply parse_members_more;
    [apply parse_value_quote | reflexivity |].
  eapply parse_members_last;
    [apply parse_value_bool | ].
  rewrite skip_ws_indent. reflexivity.
Qed.

Lemma parse_elements_todos (l : list Todo) (t : Todo) (f : nat) (k : string) :
  (6 + length l <= f)%nat ->
  parse_elements f
    (indent 4 (stringify_todo t (stringify_more_todos l (indent 2 (String "]" k)))))
  = Some (map json_of_todo (t :: l), k).
Proof.
  revert t f. induction l as [|t' l IH]; intros t f Hf;
    (destruct f as [|f]; [simpl in Hf; lia|]);
    cbn [parse_elements]; rewrite parse_value_indent;
    rewrite parse_value_todo by (simpl in Hf; lia);
    cbn [stringify_more_todos].
  - rewrite skip_ws_indent. reflexivity.
  - change (skip_ws (String "," ?x)) with (String "," x).
    rewrite starts_with_char_here.
    rewrite IH by (simpl in Hf; lia). reflexivity.
Qed.

Lemma parse_value_todos (l : list Todo) (f : nat) (k : string) :
  (7 + length l <= f)%nat ->
  parse_value f (stringify_todos l k) = Some (JArray (map json_of_todo l), k).
Proof.
  intros Hf. destruct f as [|f]; [lia|].
  destruct l as [|t l]; [reflexivity|].
  cbn [stringify_todos parse_value].
  change (skip_ws (String "[" ?x)) with (String "[" x).
  change (Ascii.eqb "[" "{") with false. change (Ascii.eqb "[" "[") with true.
  cbv iota. rewrite skip_ws_indent.
  change (starts_with_char "]" (skip_ws (stringify_todo t ?x))) with (@None string).
  rewrite parse_elements_todos by (simpl in Hf; lia). reflexivity.
Qed.

Lemma parse_value_document (l : list Todo) (next : Z) (f : nat) :
  (10 + length l <= f)%nat ->
  parse_value f (JSON_stringify l next) = Some (saved_document l next, EmptyString).
Proof.
  intros Hf. destruct f as [|[|[|[|f]]]]; try lia.
  unfold JSON_stringify, saved_document.
  apply parse_value_object.
  eapply parse_members_more;
    [apply parse_value_todos; simpl in Hf; lia | reflexivity |].
  eapply parse_members_last; [apply parse_value_number | reflexivity].
Qed.

(** The written text is long enough to serve as fuel for reading it. *)
Lemma length_app_ge (a b : string) :
  (String.length b <= String.length (a +:+ b))%nat.
Proof.
  induction a as [|c a IH].
  - change (EmptyString +:+ b) with b. lia.
  - change (String c a +:+ b) with (String c (a +:+ b)). simpl. lia.
Qed.

Lemma length_quote_char (c : ascii) (k : string) :
  (String.length k <= String.length (quote_char c k))%nat.
Proof.
  unfold quote_char.
  repeat match goal with |- context [if ?b then _ else _] => destruct b end;
    simpl; lia.
Qed.

Lemma length_quote_body (s k : string) :
  (String.length k <= String.length (quote_body s k))%nat.
Proof.
  induction s as [|c s IH]; simpl; [lia|].
  pose proof (length_quote_char c (quote_body s k)). lia.
Qed.

Lemma length_quote (s k : string) :
  (String.length k <= String.length (quote s k))%nat.
Proof. unfold quote. simpl. pose proof (length_quote_body s (String dquote k)). simpl in *. lia. Qed.

Lemma length_indent (n : nat) (k : string) :
  (String.length k <= String.length (indent n k))%nat.
Proof. unfold indent. simpl. induction n as [|n IH]; simpl; lia. Qed.

Lemma length_member (key k : string) :
  (String.length k <= String.length (member key k))%nat.
Proof. unfold member. pose proof (length_quote key (String ":" (String " " k))). simpl in *. lia. Qed.

Ltac peel_length :=
  repeat first
    [ etransitivity; [|apply length_indent]
    | etransitivity; [|apply length_member]
    | etransitivity; [|apply length_quote]
    | etransitivity; [|apply length_app_ge]
    | match goal with
      | |- (_ <= String.length (String _ ?x))%nat =>
          transitivity (String.length x); [|simpl; lia]
      end ].

Lemma length_stringify_todo (t : Todo) (k : string) :
  (1 + String.length k <= String.length (stringify_todo t k))%nat.
Proof.
  unfold stringify_todo, stringify_bool. cbn [String.length].
  apply le_n_S. peel_length. reflexivity.
Qed.

Lemma length_stringify_more_todos (l : list Todo) (k : string) :
  (length l + String.length k <= String.length (stringify_more_todos l k))%nat.
Proof.
  induction l as [|t l IH]; [reflexivity|].
  cbn [stringify_more_todos length String.length Nat.add]. apply le_n_S.
  etransitivity; [|apply length_indent].
  pose proof (length_stringify_todo t (stringify_more_todos l k)). lia.
Qed.

Lemma length_stringify_todos (l : list Todo) (k : string) :
  (length l + String.length k <= String.length (stringify_todos l k))%nat.
Proof.
  destruct l as [|t l]; [simpl; lia|].
  cbn [stringify_todos length String.length Nat.add]. apply le_n_S.
  etransitivity; [|apply length_indent].
  pose proof (length_stringify_todo t
                (stringify_more_todos l (indent 2 (String "]" k)))).
  pose proof (length_stringify_more_todos l (indent 2 (String "]" k))).
  pose proof (length_indent 2 (String "]" k)).
  cbn [String.length] in *. lia.
Qed.

Lemma length_indent_eq (n : nat) (k : string) :
  String.length (indent n k) = (S n + String.length k)%nat.
Proof. unfold indent. simpl. f_equal. induction n as [|n IH]; simpl; lia. Qed.

Lemma length_member_ge (key k : string) :
  (4 + String.length k <= String.length (member key k))%nat.
Proof.
  unfold member, quote. cbn [String.length].
  pose proof (length_quote_body key (String dquote (String ":" (String " " k)))) as H.
  cbn [String.length] in H. lia.
Qed.

Lemma length_JSON_stringify (l : list Todo) (next : Z) :
  (9 + length l <= String.length (JSON_stringify l next))%nat.
Proof.
  unfold JSON_stringify. cbn [String.length]. rewrite length_indent_eq.
  match goal with
  | |- context [member "todos" (stringify_todos l ?r)] =>
      pose proof (length_member_ge "todos" (stringify_todos l r));
      pose proof (length_stringify_todos l r);
      assert (4 <= String.length r)%nat
        by (cbn [String.length]; rewrite length_indent_eq; lia)
  end.
  lia.
Qed.

(** [JSON.parse(JSON.stringify({ todos, nextId }, null, 2))] *)
Lemma JSON_parse_stringify (l : list Todo) (next : Z) :
  JSON_parse (JSON_stringify l next) = Some (saved_document l next).
Proof.
  unfold JSON_parse. rewrite parse_value_document; [reflexivity|].
  pose proof (length_JSON_stringify l next). lia.
Qed.

(** ** The fuel of the parser *)

Lemma skip_ws_length (s : string) :
  (String.length (skip_ws s) <= String.length s)%nat.
Proof.
  induction s as [|c s IH]; simpl; [lia|]. destruct (is_ws c); simpl; lia.
Qed.

Lemma starts_with_char_some (c : ascii) (s s' : string) :
  starts_with_char c s = Some s' -> s = String c s'.
Proof.
  destruct s as [|c' s]; simpl; [discriminate|].
  destruct (Ascii.eqb c c') eqn:E; [|discriminate].
  apply Ascii.eqb_eq in E as ->. intros [= ->]. reflexivity.
Qed.

Lemma starts_with_char_length (c : ascii) (s s' : string) :
  starts_with_char c s = Some s' -> String.length s = S (String.length s').
Proof. intros H. apply starts_with_char_some in H as ->. reflexivity. Qed.

Lemma read_digits_length (s : string) (acc : N) (count : nat) :
  (String.length (snd (read_digits s acc count)) <= String.length s)%nat.
Proof.
  revert acc count. induction s as [|c s IH]; intros acc count; simpl; [lia|].
  destruct (digit_value c); simpl; [|lia]. specialize (IH (acc * 10 + n)%N (S count)). lia.
Qed.

Lemma parse_fraction_exponent_length (negative : bool) (m : N) (s : string)
    (x : number) (rest : string) :
  parse_fraction_exponent negative m s = Some (x, rest) ->
  (String.length rest <= String.length s)%nat.
Proof.
  unfold parse_fraction_exponent.
  repeat match goal with
    | |- context [starts_with_char ?c ?t] =>
        let E := fresh "E" in
        destruct (starts_with_char c t) eqn:E;
        [apply starts_with_char_length in E|]
    | |- context [read_digits ?t ?a ?n] =>
        let H := fresh "H" in
        pose proof (read_digits_length t a n) as H;
        destruct (read_digits t a n) as [[? [|?]] ?]; cbn [snd] in H
    end;
    try discriminate; intros [= <- <-]; simpl in *; lia.
Qed.

Lemma parse_number_length (s : string) (x : number) (rest : string) :
  parse_number s = Some (x, rest) -> (String.length rest < String.length s)%nat.
Proof.
  unfold parse_number.
  assert (Hcore : forall negative s1,
    match s1 with
    | EmptyString => None
    | String c s2 =>
        match digit_value c with
        | None => None
        | Some N0 => parse_fraction_exponent negative 0 s2
        | Some (Npos _) =>
            let '(m, _, s3) := read_digits s1 0 0 in
            parse_fraction_exponent negative m s3
        end
    end = Some (x, rest) -> (String.length rest < String.length s1)%nat).
  { intros negative [|c s2]; [discriminate|].
    destruct (digit_value c) as [[|q]|] eqn:Ed; [| |discriminate].
    - intros H. apply parse_fraction_exponent_length in H. simpl. lia.
    - pose proof (read_digits_length (String c s2) 0 0) as Hr.
      destruct (read_digits (String c s2) 0 0) as [[m k] s3] eqn:Er.
      simpl in Er. rewrite Ed in Er.
      pose proof (read_digits_length s2 (0 * 10 + N.pos q) 1) as Hr2.
      rewrite Er in Hr2. cbn [snd] in Hr2.
      intros H. apply parse_fraction_exponent_length in H. simpl. lia. }
  destruct (starts_with_char "-" s) as [s'|] eqn:E.
  - apply starts_with_char_length in E. intros H. apply Hcore in H. lia.
  - apply Hcore.
Qed.

Lemma parse_chars_length (s : string) (l : list item) (rest : string) :
  parse_chars s = Some (l, rest) -> (String.length rest < String.length s)%nat.
Proof.
  remember (String.length s) as n eqn:Hn.
  revert s l rest Hn. induction (lt_wf n) as [n _ IH]. intros s l rest -> H.
  destruct s as [|c s1]; [discriminate|]. cbn [parse_chars] in H.
  destruct (Ascii.eqb c dquote); [injection H as <- <-; simpl; lia|].
  destruct (Ascii.eqb c "\").
  - destruct s1 as [|e s2]; [discriminate|].
    destruct (Ascii.eqb e "u").
    + destruct s2 as [|h1 [|h2 [|h3 [|h4 s3]]]]; try discriminate.
      destruct (hex4 h1 h2 h3 h4); [|discriminate].
      destruct (parse_chars s3) as [[l' r']|] eqn:E; [|discriminate].
      injection H as <- <-.
      apply (IH (String.length s3)) in E; simpl; try reflexivity; lia.
    + destruct (simple_escape e); [|discriminate].
      destruct (parse_chars s2) as [[l' r']|] eqn:E; [|discriminate].
      injection H as <- <-.
      apply (IH (String.length s2)) in E; simpl; try reflexivity; lia.
  - destruct (N_of_ascii c <? 32)%N; [discriminate|].
    destruct (parse_chars s1) as [[l' r']|] eqn:E; [|discriminate].
    injection H as <- <-.
    apply (IH (String.length s1)) in E; simpl; try reflexivity; lia.
Qed.

Lemma parse_string_length (s x rest : string) :
  parse_string s = Some (x, rest) -> (String.length rest < String.length s)%nat.
Proof.
  unfold parse_string. destruct (parse_chars s) as [[l r]|] eqn:E; [|discriminate].
  intros [= <- <-]. eapply parse_chars_length. exact E.
Qed.

Lemma strip_prefix_length (p s rest : string) :
  strip_prefix p s = Some rest -> (String.length rest <= String.length s)%nat.
Proof.
  revert s. induction p as [|a p IH]; intros [|b s]; cbn [strip_prefix];
    try discriminate.
  - intros H. inversion H. subst. lia.
  - intros H. inversion H. subst. lia.
  - destruct (Ascii.eqb a b); [|discriminate]. intros H. apply IH in H. simpl. lia.
Qed.

(** A call that succeeds has consumed input, and succeeds the same with any
    fuel that is at least the number of characters it consumed. *)
Lemma parse_fuel (f : nat) :
  (forall s v r, parse_value f s = Some (v, r) ->
     (String.length r < String.length s)%nat /\
     forall f', (String.length s - String.length r <= f')%nat ->
       parse_value f' s = Some (v, r)) /\
  (forall s vs r, parse_elements f s = Some (vs, r) ->
     (String.length r < String.length s)%nat /\
     forall f', (String.length s - String.length r <= f')%nat ->
       parse_elements f' s = Some (vs, r)) /\
  (forall s ms r, parse_members f s = Some (ms, r) ->
     (String.length r < String.length s)%nat /\
     forall f', (String.length s - String.length r <= f')%nat ->
       parse_members f' s = Some (ms, r)).
Proof.
  induction f as [|f (IHv & IHe & IHm)]; [repeat split; discriminate|].
  split; [|split].
  - intros s v r H. cbn [parse_value] in H.
    pose proof (skip_ws_length s) as Hws.
    destruct (skip_ws s) as [|c s1] eqn:Es; [discriminate|]. cbn [String.length] in Hws.
    pose proof (skip_ws_length s1) as Hws1.
    destruct (Ascii.eqb c "{") eqn:E1; [|destruct (Ascii.eqb c "[") eqn:E2].
    + destruct (starts_with_char "}" (skip_ws s1)) as [s2|] eqn:E3.
      * injection H as <- <-. pose proof (starts_with_char_length _ _ _ E3).
        split; [lia|]. intros [|f'] Hf'; [lia|].
        cbn [parse_value]. rewrite Es, E1, E3. reflexivity.
      * destruct (parse_members f s1) as [[ms s2]|] eqn:Em; [|discriminate].
        injection H as <- <-. destruct (IHm _ _ _ Em) as [Hl Hfuel].
        split; [lia|]. intros [|f'] Hf'; [lia|].
        cbn [parse_value]. rewrite Es, E1, E3, (Hfuel f') by lia. reflexivity.
    + destruct (starts_with_char "]" (skip_ws s1)) as [s2|] eqn:E3.
      * injection H as <- <-. pose proof (starts_with_char_length _ _ _ E3).
        split; [lia|]. intros [|f'] Hf'; [lia|].
        cbn [parse_value]. rewrite Es, E1, E2, E3. reflexivity.
      * destruct (parse_elements f s1) as [[vs s2]|] eqn:Em; [|discriminate].
        injection H as <- <-. destruct (IHe _ _ _ Em) as [Hl Hfuel].
        split; [lia|]. intros [|f'] Hf'; [lia|].
        cbn [parse_value]. rewrite Es, E1, E2, E3, (Hfuel f') by lia. reflexivity.
    + assert (Hlen : (String.length r <= String.length s1)%nat).
      { destruct (Ascii.eqb c dquote).
        { destruct (parse_string s1) as [[x s2]|] eqn:E; [|discriminate].
          injection H as <- <-. apply parse_string_length in E. lia. }
        destruct (Ascii.eqb c "t").
        { destruct (strip_prefix "rue" s1) as [s2|] eqn:E; [|discriminate].
          injection H as <- <-. apply strip_prefix_length in E. lia. }
        destruct (Ascii.eqb c "f").
        { destruct (strip_prefix "alse" s1) as [s2|] eqn:E; [|discriminate].
          injection H as <- <-. apply strip_prefix_length in E. lia. }
        destruct (Ascii.eqb c "n").
        { destruct (strip_prefix "ull" s1) as [s2|] eqn:E; [|discriminate].
          injection H as <- <-. apply strip_prefix_length in E. lia. }
        destruct (parse_number (String c s1)) as [[x s2]|] eqn:E; [|discriminate].
        injection H as <- <-. apply parse_number_length in E. simpl in E. lia. }
      split; [lia|]. intros [|f'] Hf'; [lia|].
      cbn [parse_value]. rewrite Es, E1, E2. exact H.
  - intros s vs r H. cbn [parse_elements] in H.
    destruct (parse_value f s) as [[v s1]|] eqn:Ev; [|discriminate].
    destruct (IHv _ _ _ Ev) as [Hl Hfuel].
    pose proof (skip_ws_length s1) as Hws1.
    destruct (starts_with_char "," (skip_ws s1)) as [s2|] eqn:E1.
    + pose proof (starts_with_char_length _ _ _ E1).
      destruct (parse_elements f s2) as [[vs' s3]|] eqn:Ee; [|discriminate].
      injection H as <- <-. destruct (IHe _ _ _ Ee) as [Hl' Hfuel'].
      split; [lia|]. intros [|f'] Hf'; [lia|].
      cbn [parse_elements]. rewrite (Hfuel f'), E1, (Hfuel' f') by lia. reflexivity.
    + destruct (starts_with_char "]" (skip_ws s1)) as [s2|] eqn:E2; [|discriminate].
      pose proof (starts_with_char_length _ _ _ E2).
      injection H as <- <-.
      split; [lia|]. intros [|f'] Hf'; [lia|].
      cbn [parse_elements]. rewrite (Hfuel f'), E1, E2 by lia. reflexivity.
  - intros s ms r H. cbn [parse_members] in H.
    pose proof (skip_ws_length s) as Hws.
    destruct (starts_with_char dquote (skip_ws s)) as [s1|] eqn:E1; [|discriminate].
    pose proof (starts_with_char_length _ _ _ E1).
    destruct (parse_string s1) as [[key s2]|] eqn:E2; [|discriminate].
    pose proof (parse_string_length _ _ _ E2).
    pose proof (skip_ws_length s2) as Hws2.
    destruct (starts_with_char ":" (skip_ws s2)) as [s3|] eqn:E3; [|discriminate].
    pose proof (starts_with_char_length _ _ _ E3).
    destruct (parse_value f s3) as [[v s4]|] eqn:Ev; [|discriminate].
    destruct (IHv _ _ _ Ev) as [Hl Hfuel].
    pose proof (skip_ws_length s4) as Hws4.
    destruct (starts_with_char "," (skip_ws s4)) as [s5|] eqn:E4.
    + pose proof (starts_with_char_length _ _ _ E4).
      destruct (parse_members f s5) as [[ms' s6]|] eqn:Em; [|discriminate].
      injection H as <- <-. destruct (IHm _ _ _ Em) as [Hl' Hfuel'].
      split; [lia|]. intros [|f'] Hf'; [lia|].
      cbn [parse_members].
      rewrite E1, E2, E3, (Hfuel f'), E4, (Hfuel' f') by lia. reflexivity.
    + destruct (starts_with_char "}" (skip_ws s4)) as [s5|] eqn:E5; [|discriminate].
      pose proof (starts_with_char_length _ _ _ E5).
      injection H as <- <-.
      split; [lia|]. intros [|f'] Hf'; [lia|].
      cbn [parse_members]. rewrite E1, E2, E3, (Hfuel f'), E4, E5 by lia. reflexivity.
Qed.

(** The fuel [JSON_parse] gives is enough: a text that some fuel reads as
    one value (and nothing but white space after it) is read so by
    [JSON_parse]; what it rejects, no fuel accepts. *)
Lemma JSON_parse_fuel (f : nat) (text : string) (v : json) (rest : string) :
  parse_value f text = Some (v, rest) ->
  skip_ws rest = EmptyString ->
  JSON_parse text = Some v.
Proof.
  intros H Hrest. destruct (parse_fuel f) as (Hv & _ & _).
  destruct (Hv _ _ _ H) as [_ Hfuel]. unfold JSON_parse.
  rewrite (Hfuel (S (String.length text))) by lia. rewrite Hrest. reflexivity.
Qed.

(** ** Loading *)

Lemma json_of_todo_inj (t1 t2 : Todo) : json_of_todo t1 = json_of_todo t2 -> t1 = t2.
Proof. destruct t1, t2. unfold json_of_todo. simpl. intros [= -> -> ->]. reflexivity. Qed.

Lemma json_of_service_inj (s1 s2 : TodoService Todo) :
  json_of_service s1 = json_of_service s2 -> s1 = s2.
Proof.
  destruct s1 as [p1 l1 n1], s2 as [p2 l2 n2]. unfold json_of_service. simpl.
  intros [= -> H ->]. f_equal.
  revert l2 H. induction l1 as [|a l1 IH]; intros [|b l2] H; try discriminate.
  - reflexivity.
  - cbn [map] in H.
    assert (Ha : json_of_todo a = json_of_todo b) by congruence.
    assert (Hl : map json_of_todo l1 = map json_of_todo l2) by congruence.
    apply json_of_todo_inj in Ha as ->. f_equal. apply IH. exact Hl.
Qed.

(** [create] on a file that can be read. *)
Lemma create_read (mf wf : option string) (path text : string) (d : Disk) :
  files d !! path = Some text ->
  create None mf wf path d =
    match JSON_parse text with
    | None => (Threw SyntaxError, d)
    | Some JNull => (Threw TypeError, d)
    | Some v =>
        let l := array_or_empty (own_property v "todos") in
        (Returned
           (mkTodoService path l
              match integer_value (own_property v "nextId") with
              | Some n => n
              | None => Z.of_nat (length l) + 1
              end), d)
    end.
Proof.
  intros H. unfold create, try_catch, bind, readFile. rewrite H.
  destruct (JSON_parse text) as [[]|]; reflexivity.
Qed.


(** [create] when there is no file: the directory is made and the empty
    store written. *)
Lemma create_absent (rf mf wf : option string) (path : string) (d : Disk) :
  rf = Some "ENOENT" \/ (rf = None /\ files d !! path = None) ->
  create rf mf wf path d =
    match mf, wf with
    | Some code, _ => (Threw (SystemError code), d)
    | None, Some code =>
        (Threw (SystemError code),
         mkDisk (files d) ((path, JSON_stringify [] 1) :: writes d))
    | None, None =>
        (Returned (mkTodoService path [] 1),
         mkDisk (<[path := JSON_stringify [] 1]> (files d))
                ((path, JSON_stringify [] 1) :: writes d))
    end.
Proof.
  intros [-> | [-> H]]; unfold create, try_catch, bind, readFile; [|rewrite H];
    destruct mf, wf; reflexivity.
Qed.

Lemma create_after_save (mf wf : option string) (newTodos : list Todo) (w : World) :
  let w' := snd (saveAtomically None newTodos w) in
  create None mf wf (dataFile (this w')) (disk w')
  = (Returned (json_of_service (this w')), disk w').
Proof.
  rewrite saveAtomically_written. cbn [snd this disk dataFile].
  rewrite (create_read mf wf _ (JSON_stringify newTodos (nextId (this w))))
    by apply lookup_insert_eq.
  rewrite JSON_parse_stringify. unfold saved_document, json_of_service.
  cbn [own_property last_member String.eqb Ascii.eqb Bool.eqb array_or_empty
       integer_value exponent mantissa this todos nextId dataFile].
  simpl Z.leb. cbv iota. rewrite Z.pow_0_r, Z.mul_1_r. reflexivity.
Qed.

(** C9.  After a state went through the save path, [create] on the file
    returns that state: the same todo sequence (as the JSON objects of its
    records) and the same [nextId].  This holds for [save] itself, which
    writes the current state, and for the save of a new list that every
    mutating method ends with. *)
Theorem save_then_create_roundtrip (mf wf : option string) (w : World) :
  (let w' := snd (save None w) in
   fst (save None w) = Returned tt /\
   this w' = this w /\
   create None mf wf (dataFile (this w)) (disk w')
   = (Returned (json_of_service (this w)), disk w')) /\
  (forall newTodos,
     let w' := snd (saveAtomically None newTodos w) in
     fst (saveAtomically None newTodos w) = Returned tt /\
     this w' = mkTodoService (dataFile (this w)) newTodos (nextId (this w)) /\
     create None mf wf (dataFile (this w)) (disk w')
     = (Returned (json_of_service (this w')), disk w')) /\
  (forall s1 s2, json_of_service s1 = json_of_service s2 -> s1 = s2).
Proof.
  split; [|split; [|apply json_of_service_inj]].
  - pose proof (create_after_save mf wf (todos (this w)) w) as H.
    change (saveAtomically None (todos (this w)) w) with (save None w) in H.
    cbv zeta in *.
    assert (Hthis : this (snd (save None w)) = this w).
    { destruct w as [[p l n] d]. reflexivity. }
    rewrite Hthis in H. repeat split; assumption.
  - intros newTodos w'. subst w'.
    pose proof (create_after_save mf wf newTodos w) as H. cbv zeta in H.
    rewrite saveAtomically_written in *. cbn [fst snd this dataFile] in *.
    repeat split. exact H.
Qed.




(** ** Unique ids across [add] *)

Lemma add_written (title : string) (w : World) :
  add None title w =
    (Returned {| id := "todo-" +:+ pretty (nextId (this w));
                 title := title; completed := false |},
     snd (saveAtomically None
            (todos (this w) ++
               [{| id := "todo-" +:+ pretty (nextId (this w));
                   title := title; completed := false |}])
            (mkWorld (mkTodoService (dataFile (this w)) (todos (this w))
                        (to_double (nextId (this w) + 1))) (disk w)))).
Proof. reflexivity. Qed.

Lemma add_keeps_unique (wf : option string) (title : string) (w : World) :
  NoDup (ids (list_todos w)) -> counter_above w ->
  NoDup (ids (list_todos (snd (add wf title w)))) /\
  (- 2 ^ 53 <= nextId (this w) < 2 ^ 53 -> counter_above (snd (add wf title w))).
Proof.
  intros Hnd Hc. destruct wf as [code|].
  - rewrite add_rejected. unfold counter_above, list_todos in *.
    cbn [snd this todos nextId]. split; [exact Hnd|].
    intros Hb t n Ht Hid. specialize (Hc t n Ht Hid).
    rewrite to_double_safe by lia. lia.
  - rewrite add_written, saveAtomically_written.
    unfold counter_above, list_todos in *. cbn [snd this todos nextId].
    split.
    + unfold ids. rewrite map_app. simpl. apply NoDup_app. split; [exact Hnd|].
      split; [|apply NoDup_singleton].
      intros i Hi Hi'. apply list_elem_of_singleton in Hi'. subst i.
      apply list_elem_of_fmap in Hi as (t & Hid & Ht).
      specialize (Hc t (nextId (this w)) Ht (eq_sym Hid)). lia.
    + intros Hb t n Ht Hid. rewrite to_double_safe by lia.
      apply elem_of_app in Ht as [Ht | Ht].
      * specialize (Hc t n Ht Hid). lia.
      * apply list_elem_of_singleton in Ht. subst t. cbn [id] in Hid.
        apply mint_inj in Hid. lia.
Qed.

(** C10.  On a store whose counter is an integer up to 2^53 in size (where
    the id shows the counter digit for digit) and lies above the number of
    every id in the list, [add] keeps the ids unique, and, below 2^53,
    where [nextId++] moves the counter, keeps the counter above them.
    Without the counter above the ids [add] need not keep them unique: the
    data file [legacy_file] has four todos with distinct ids, the first one
    [todo-5], and no [nextId]; [create] loads it with the counter at
    4 + 1 = 5, and the next [add] returns a record with the id [todo-5],
    which is in the list already. *)
Theorem add_unique_ids_need_counter_above :
  (forall wf title w,
     - 2 ^ 53 <= nextId (this w) <= 2 ^ 53 ->
     NoDup (ids (list_todos w)) -> counter_above w ->
     NoDup (ids (list_todos (snd (add wf title w)))) /\
     (nextId (this w) < 2 ^ 53 -> counter_above (snd (add wf title w)))) /\
  (let path := "data/todos.json" in
   let d := mkDisk {[path := legacy_file]} [] in
   let s := mkTodoService path legacy_todos 5 in
   (exists v, JSON_parse legacy_file = Some v /\ own_property v "nextId" = None) /\
   create None None None path d = (Returned (json_of_service s), d) /\
   NoDup (ids (todos s)) /\
   exists t, fst (add None "Feed cat" (mkWorld s d)) = Returned t /\
     id t = "todo-5" /\
     id t ∈ ids (todos s) /\
     ~ NoDup (ids (list_todos (snd (add None "Feed cat" (mkWorld s d)))))).
Proof.
  split.
  { intros wf title w Hb Hnd Hc.
    destruct (add_keeps_unique wf title w Hnd Hc) as [H1 H2].
    split; [exact H1|]. intros Hlt. apply H2. lia. }
  intros path d s.
  split.
  { eexists. split; [vm_compute; reflexivity | reflexivity]. }
  split; [vm_compute; reflexivity|].
  split.
  { unfold ids. simpl. repeat (apply NoDup_cons; split;
      [rewrite ?not_elem_of_cons; repeat split; try discriminate; apply not_elem_of_nil|]).
    apply NoDup_nil_2. }
  eexists. split; [reflexivity|]. split; [reflexivity|].
  split; [apply list_elem_of_here|].
  intros Hnd. cbn in Hnd. apply NoDup_cons in Hnd as [Hn _]. apply Hn.
  do 3 apply list_elem_of_further.
  change ("todo-" +:+ pretty 5%positive) with "todo-5". apply list_elem_of_here.
Qed.

(** ** Stores with an id twice *)

(** C6 does not hold on every store.  [legacy_file], loaded and added to
    once, holds the id [todo-5] twice (C10).  There the first candidate for
    ["cat"] is the new [Feed cat], but the call completes both records of
    its id and returns the other one, [Buy milk]. *)
Lemma completeByTitle_on_an_id_held_twice :
  let path := "data/todos.json" in
  let d := mkDisk {[path := legacy_file]} [] in
  let w := snd (add None "Feed cat" (mkWorld (mkTodoService path legacy_todos 5) d)) in
  let cand := is_candidate ascii_toLowerCase (ascii_toLowerCase "cat") in
  create None None None path d
  = (Returned (json_of_service (mkTodoService path legacy_todos 5)), d) /\
  list_todos w = legacy_todos ++ [mkTodo "todo-5" "Feed cat" false] /\
  List.filter cand (list_todos w) = [mkTodo "todo-5" "Feed cat" false] /\
  fst (completeByTitle ascii_toLowerCase None "cat" w)
  = Returned (Ok (Some (mkTodo "todo-5" "Buy milk" true))) /\
  list_todos (snd (completeByTitle ascii_toLowerCase None "cat" w))
  = [mkTodo "todo-5" "Buy milk" true; mkTodo "todo-6" "Walk dog" true;
     mkTodo "todo-7" "Call mum" false; mkTodo "todo-8" "Pay rent" false;
     mkTodo "todo-5" "Feed cat" true].
Proof.
  intros path d w cand.
  split; [vm_compute; reflexivity|].
  split; [reflexivity|]. split; [reflexivity|]. split; reflexivity.
Qed.

(** C7 does not hold on every store.  On the same store [deleteById] of
    [todo-5] returns [Buy milk] and removes [Feed cat] with it: two records
    are gone, not exactly the one returned. *)
Lemma deleteById_on_an_id_held_twice :
  let path := "data/todos.json" in
  let d := mkDisk {[path := legacy_file]} [] in
  let w := snd (add None "Feed cat" (mkWorld (mkTodoService path legacy_todos 5) d)) in
  list_todos w = legacy_todos ++ [mkTodo "todo-5" "Feed cat" false] /\
  fst (deleteById None "todo-5" w)
  = Returned (Ok (mkTodo "todo-5" "Buy milk" false)) /\
  list_todos (snd (deleteById None "todo-5" w))
  = [mkTodo "todo-6" "Walk dog" true; mkTodo "todo-7" "Call mum" false;
     mkTodo "todo-8" "Pay rent" false] /\
  mkTodo "todo-5" "Feed cat" false ∉ list_todos (snd (deleteById None "todo-5" w)).
Proof.
  intros path d w.
  split; [reflexivity|]. split; [reflexivity|]. split; [reflexivity|].
  cbn. rewrite !not_elem_of_cons. repeat split; try discriminate.
  apply not_elem_of_nil.
Qed.

(** ** The theorems at work on concrete stores *)

Lemma two_todos_unique : NoDup (ids (list_todos two_todos)).
Proof.
  unfold ids. simpl. apply NoDup_cons. split.
  - rewrite not_elem_of_cons. split; [discriminate | apply not_elem_of_nil].
  - apply NoDup_singleton.
Defined.

(** Completing [todo-2] and asking again, while the disk has started to
    fail: the same record comes back and nothing is written. *)
Lemma completeById_idempotent_witness :
  let w' := snd (completeById None "todo-2" two_todos) in
  completeById (Some "EIO") "todo-1" two_todos
  = (Returned (Ok (Some (mkTodo "todo-1" "Buy milk" true))), two_todos) /\
  completeById (Some "EIO") "todo-2" w'
  = (Returned (Ok (Some (mkTodo "todo-2" "Buy bread" true))), w').
Proof.
  intros w'. split.
  - apply (proj1 (completeById_idempotent "todo-1" two_todos) (Some "EIO")
             (mkTodo "todo-1" "Buy milk" true)); reflexivity.
  - apply (proj2 (completeById_idempotent "todo-2" two_todos) None (Some "EIO")
             (Some (mkTodo "todo-2" "Buy bread" true)) w').
    reflexivity.
Defined.

(** Index 3 of two is refused; index 2 does what [completeById "todo-2"]
    does. *)
Lemma completeByIndex_spec_witness :
  completeByIndex None 3 two_todos = (Returned (NotOk invalid_index), two_todos) /\
  completeByIndex None 2 two_todos
  = (Returned (Ok (Some (mkTodo "todo-2" "Buy bread" true), 2)),
     snd (completeById None "todo-2" two_todos)).
Proof.
  split.
  - apply (proj1 (proj2 (completeByIndex_spec None 3 two_todos))).
    right. simpl. lia.
  - destruct (proj2 (proj2 (completeByIndex_spec None 2 two_todos)))
      as (t & Ht & _ & _ & Hid).
    { simpl. lia. }
    injection Ht as <-. rewrite (Hid two_todos_unique). reflexivity.
Defined.

(** ["BUY"] skips the completed [Buy milk] and completes [Buy bread]; after
    that no candidate is left. *)
Lemma completeByTitle_spec_witness :
  let w' := snd (completeByTitle ascii_toLowerCase None "BUY" two_todos) in
  fst (completeByTitle ascii_toLowerCase None "BUY" two_todos)
  = Returned (Ok (Some (mkTodo "todo-2" "Buy bread" true))) /\
  list_todos w'
  = [mkTodo "todo-1" "Buy milk" true; mkTodo "todo-2" "Buy bread" true] /\
  List.filter (is_candidate ascii_toLowerCase (ascii_toLowerCase "BUY")) (list_todos w')
  = [].
Proof.
  intros w'.
  destruct (completeByTitle_spec ascii_toLowerCase "BUY" two_todos)
    as (_ & _ & H & _).
  destruct (H [mkTodo "todo-1" "Buy milk" true] (mkTodo "todo-2" "Buy bread" false) [])
    as (Hr & Hl & _ & _ & Hc).
  - reflexivity.
  - constructor; [reflexivity | constructor].
  - reflexivity.
  - exact two_todos_unique.
  - split; [exact Hr|]. split; [exact Hl | exact Hc].
Defined.

(** Deleting [todo-1] leaves [todo-2]; deleting [todo-9] is refused. *)
Lemma deleteById_spec_witness :
  deleteById None "todo-9" two_todos = (Returned (NotOk not_found), two_todos) /\
  fst (deleteById None "todo-1" two_todos)
  = Returned (Ok (mkTodo "todo-1" "Buy milk" true)) /\
  list_todos (snd (deleteById None "todo-1" two_todos))
  = [mkTodo "todo-2" "Buy bread" false].
Proof.
  split.
  - apply (proj1 (deleteById_spec "todo-9" two_todos)).
    unfold ids. simpl. rewrite !not_elem_of_cons.
    repeat split; try discriminate. apply not_elem_of_nil.
  - destruct (proj2 (deleteById_spec "todo-1" two_todos))
      as (t & _ & _ & Hr & _ & _ & _ & _ & _ & _ & Hl).
    { apply list_elem_of_here. }
    assert (Et : t = mkTodo "todo-1" "Buy milk" true).
    { simpl in Hr. congruence. }
    subst t. split; [exact Hr|].
    apply (Hl two_todos_unique [] [mkTodo "todo-2" "Buy bread" false]). reflexivity.
Defined.

(** On the empty store [deleteCompleted] is a no-op even with a failing
    disk; on [two_todos] it removes [Buy milk] with one write. *)
Lemma deleteCompleted_spec_witness :
  deleteCompleted (Some "EIO") empty_store = (Returned ([], []), empty_store) /\
  length (writes (disk (snd (deleteCompleted None two_todos)))) = 1%nat.
Proof.
  split.
  - apply (proj1 (deleteCompleted_spec empty_store)). reflexivity.
  - destruct (deleteCompleted_spec two_todos) as (_ & _ & _ & _ & _ & _ & _ & H).
    destruct H as [Hw _]; [discriminate|]. rewrite Hw. reflexivity.
Defined.

(** Two services with the same JSON image are the same service. *)
Lemma save_then_create_roundtrip_witness :
  this two_todos = this two_todos /\
  create None None None (dataFile (this two_todos)) (disk (snd (save None two_todos)))
  = (Returned (json_of_service (this two_todos)), disk (snd (save None two_todos))).
Proof.
  destruct (save_then_create_roundtrip None None two_todos) as ((_ & _ & Hc) & _ & Hinj).
  split; [apply Hinj; reflexivity | exact Hc].
Defined.

(** Three adds on [two_todos], the second one with a rejected write: the
    ids returned are [todo-3] and [todo-5], and the counter ends at 6. *)
Lemma add_ids_fresh_and_increasing_witness :
  let calls := [(@None string, Add "Feed cat"); (Some "EIO", Add "Walk dog");
                (None, Add "Call mum")] in
  let m := minted (fst (run ascii_toLowerCase calls two_todos)) in
  map (fun p => id (snd p)) m = ["todo-3"; "todo-5"] /\
  NoDup (map (fun p => id (snd p)) m) /\
  StronglySorted Z.lt (map fst m).
Proof.
  intros calls m.
  destruct (add_ids_fresh_and_increasing ascii_toLowerCase calls two_todos)
    as (_ & Hs & _ & Hnd).
  - cbn. lia.
  - cbn. lia.
  - split; [reflexivity|]. split; [exact Hnd | exact Hs].
Defined.

(** An [add] on [two_todos], whose counter 3 lies above the ids [todo-1]
    and [todo-2]: the ids stay unique and the counter stays above them. *)
Lemma add_unique_ids_need_counter_above_witness :
  fst (add None "Feed cat" two_todos) = Returned (mkTodo "todo-3" "Feed cat" false) /\
  NoDup (ids (list_todos (snd (add None "Feed cat" two_todos)))) /\
  counter_above (snd (add None "Feed cat" two_todos)).
Proof.
  split; [reflexivity|].
  destruct (proj1 add_unique_ids_need_counter_above None "Feed cat" two_todos)
    as [Hnd Hc].
  - cbn. lia.
  - exact two_todos_unique.
  - intros t n Ht Hid. cbn in Ht.
    apply elem_of_cons in Ht as [-> | Ht].
    + change (id (mkTodo "todo-1" "Buy milk" true)) with ("todo-" +:+ pretty 1) in Hid.
      apply mint_inj in Hid. subst n. cbn. lia.
    + apply list_elem_of_singleton in Ht. subst t.
      change (id (mkTodo "todo-2" "Buy bread" false)) with ("todo-" +:+ pretty 2) in Hid.
      apply mint_inj in Hid. subst n. cbn. lia.
  - split; [exact Hnd|]. apply Hc. cbn. lia.
Defined.

(* ================================================================== *)
(** * Further properties of the service *)

(** ** What a call does to the world *)

(** A call either writes nothing and leaves the world as it was, or ends in
    one save of a new list, from the world as it was or, for [add], from
    the world with the counter moved. *)
Lemma perform_shape (toLowerCase : string -> string)
    (wf : option string) (req : request) (w : World) :
  (snd (perform toLowerCase wf req w) = w /\
   exists a, fst (perform toLowerCase wf req w) = Returned a) \/
  (exists new w0,
     (w0 = w \/ w0 = snd (post_increment_nextId w)) /\
     snd (perform toLowerCase wf req w) = snd (saveAtomically wf new w0) /\
     match wf with
     | Some code => fst (perform toLowerCase wf req w) = Threw (SystemError code)
     | None => exists a, fst (perform toLowerCase wf req w) = Returned a
     end).
Proof.
  destruct req as [t|i|index|q|i|]; cbn [perform];
    unfold fmap_prog, completeById, completeByIndex, completeByTitle,
      deleteById, deleteCompleted.
  - right. eexists _, (snd (post_increment_nextId w)). split; [right; reflexivity|].
    unfold bind. destruct wf as [code|].
    + rewrite add_rejected. split; reflexivity.
    + rewrite add_written. cbn [fst snd ret]. split; [reflexivity | eauto].
  - unfold bind, get_this, ret.
    destruct (List.find (has_id i) (todos (this w))) as [t|]; [|left; cbn; eauto].
    destruct (completed t); [left; cbn; eauto|].
    right. exists (map (complete_if_id i) (todos (this w))), w. split; [left; reflexivity|].
    destruct wf as [code|].
    + rewrite saveAtomically_rejected. split; reflexivity.
    + rewrite saveAtomically_written. cbn. split; [reflexivity | eauto].
  - unfold bind, get_this, ret, throw.
    destruct ((index <? 1) || (Z.of_nat (length (todos (this w))) <? index)) eqn:E;
      [left; cbn; eauto|].
    destruct (index_in_range index _ E) as [t ->].
    destruct (completed t); [left; cbn; eauto|].
    right. exists (imap (complete_if_at index) (todos (this w))), w.
    split; [left; reflexivity|].
    destruct wf as [code|].
    + rewrite saveAtomically_rejected. split; reflexivity.
    + rewrite saveAtomically_written. cbn. split; [reflexivity | eauto].
  - unfold bind, get_this, ret.
    destruct (List.find _ (todos (this w))) as [t|]; [|left; cbn; eauto].
    right. exists (map (complete_if_id (id t)) (todos (this w))), w.
    split; [left; reflexivity|].
    destruct wf as [code|].
    + rewrite saveAtomically_rejected. split; reflexivity.
    + rewrite saveAtomically_written. cbn. split; [reflexivity | eauto].
  - unfold bind, get_this, ret.
    destruct (List.find (has_id i) (todos (this w))) as [t|]; [|left; cbn; eauto].
    right. exists (List.filter (fun task => negb (has_id i task)) (todos (this w))), w.
    split; [left; reflexivity|].
    destruct wf as [code|].
    + rewrite saveAtomically_rejected. split; reflexivity.
    + rewrite saveAtomically_written. cbn. split; [reflexivity | eauto].
  - unfold bind, get_this, ret.
    destruct (length (List.filter completed (todos (this w))) =? 0)%nat;
      [left; cbn; eauto|].
    right. exists (List.filter (fun task => negb (completed task)) (todos (this w))), w.
    split; [left; reflexivity|].
    destruct wf as [code|].
    + rewrite saveAtomically_rejected. split; reflexivity.
    + rewrite saveAtomically_written. cbn. split; [reflexivity | eauto].
Qed.

Lemma perform_keeps_file_name (toLowerCase : string -> string)
    (wf : option string) (req : request) (w : World) :
  dataFile (this (snd (perform toLowerCase wf req w))) = dataFile (this w).
Proof.
  destruct (perform_shape toLowerCase wf req w)
    as [[-> _] | (new & w0 & [-> | ->] & -> & _)];
    [reflexivity | | ]; destruct wf; reflexivity.
Qed.

Lemma perform_other_files (toLowerCase : string -> string)
    (wf : option string) (req : request) (w : World) (p : string) :
  p <> dataFile (this w) ->
  files (disk (snd (perform toLowerCase wf req w))) !! p = files (disk w) !! p.
Proof.
  intros Hp.
  destruct (perform_shape toLowerCase wf req w)
    as [[-> _] | (new & w0 & [-> | ->] & -> & _)];
    [reflexivity | | ]; destruct wf; cbn; try reflexivity;
    apply lookup_insert_ne; congruence.
Qed.

(** X1.  Whatever calls are made, with writes going through or not, the
    service keeps its file name and no other file of the disk changes. *)
Theorem calls_touch_one_file (toLowerCase : string -> string)
    (calls : list (option string * request)) (w : World) :
  dataFile (this (snd (run toLowerCase calls w))) = dataFile (this w) /\
  forall p, p <> dataFile (this w) ->
    files (disk (snd (run toLowerCase calls w))) !! p = files (disk w) !! p.
Proof.
  revert w. induction calls as [|[wf req] calls IH]; intros w; [split; reflexivity|].
  cbn [run].
  pose proof (perform_keeps_file_name toLowerCase wf req w) as Hn.
  pose proof (perform_other_files toLowerCase wf req w) as Hf.
  destruct (perform toLowerCase wf req w) as [r w1]. cbn [snd] in Hn, Hf.
  specialize (IH w1) as [IHn IHf].
  destruct (run toLowerCase calls w1) as [tr w2]. cbn [snd] in *.
  split; [congruence|]. intros p Hp. rewrite IHf by congruence. apply Hf. exact Hp.
Qed.

Lemma calls_touch_one_file_witness :
  let w := mkWorld (mkTodoService "data/todos.json" [] 1)
             (mkDisk {["notes.txt" := "keep"]} []) in
  files (disk (snd (run ascii_toLowerCase
                      [(None, Add "Buy milk"); (Some "EIO", Add "Walk dog");
                       (None, CompleteByIndex 1); (None, DeleteCompleted)] w)))
    !! "notes.txt" = Some "keep".
Proof.
  intros w.
  rewrite (proj2 (calls_touch_one_file ascii_toLowerCase _ w) "notes.txt");
    [reflexivity | discriminate].
Defined.

(** ** The file follows the memory *)

Lemma create_reads_written (mf wf : option string) (path : string) (d : Disk)
    (l : list Todo) (n : Z) :
  files d !! path = Some (JSON_stringify l n) ->
  create None mf wf path d
  = (Returned (mkTodoService path (map json_of_todo l) n), d).
Proof.
  intros H. rewrite (create_read mf wf path _ d H), JSON_parse_stringify.
  unfold saved_document.
  cbn [own_property last_member String.eqb Ascii.eqb Bool.eqb array_or_empty
       integer_value exponent mantissa].
  simpl Z.leb. cbv iota. rewrite Z.pow_0_r, Z.mul_1_r. reflexivity.
Qed.

Lemma perform_list_on_disk (toLowerCase : string -> string)
    (req : request) (w : World) :
  list_on_disk w -> list_on_disk (snd (perform toLowerCase None req w)).
Proof.
  intros [n Hn]. unfold list_on_disk, list_todos in *.
  destruct (perform_shape toLowerCase None req w)
    as [[-> _] | (new & w0 & [-> | ->] & -> & _)]; [eauto | | ];
    rewrite saveAtomically_written;
    cbn [snd this disk files dataFile todos post_increment_nextId nextId];
    eexists; apply lookup_insert_eq.
Qed.

(** X2.  Once the file holds the list, it holds [list()] after every
    sequence of calls whose writes go through, so a restart then loads
    exactly the list the service last showed. *)
Theorem list_on_disk_invariant (toLowerCase : string -> string)
    (calls : list (option string * request)) (w : World) :
  list_on_disk w ->
  Forall (fun call => fst call = None) calls ->
  let w' := snd (run toLowerCase calls w) in
  list_on_disk w' /\
  forall mf wf, exists n,
    create None mf wf (dataFile (this w')) (disk w')
    = (Returned (mkTodoService (dataFile (this w'))
                   (map json_of_todo (list_todos w')) n), disk w').
Proof.
  intros H Hcalls w'.
  assert (Hinv : list_on_disk w').
  { subst w'. revert w H.
    induction Hcalls as [|[wf req] calls Hwf _ IH]; intros w H; [exact H|].
    cbn [fst] in Hwf. subst wf.
    cbn [run]. pose proof (perform_list_on_disk toLowerCase req w H) as H1.
    destruct (perform toLowerCase None req w) as [r w1]. cbn [snd] in H1.
    specialize (IH w1 H1). destruct (run toLowerCase calls w1) as [tr w2]. exact IH. }
  split; [exact Hinv|]. intros mf wf. destruct Hinv as [n Hn]. exists n.
  apply create_reads_written. exact Hn.
Qed.

Lemma list_on_disk_invariant_witness :
  let w := snd (save None two_todos) in
  let w' := snd (run ascii_toLowerCase
                   [(None, Add "Feed cat"); (None, CompleteById "todo-2");
                    (None, DeleteCompleted)] w) in
  exists n,
    create None None None "data/todos.json" (disk w')
    = (Returned (mkTodoService "data/todos.json"
         (map json_of_todo [mkTodo "todo-3" "Feed cat" false]) n), disk w').
Proof.
  intros w w'.
  assert (H : list_on_disk w) by (exists 3; reflexivity).
  destruct (list_on_disk_invariant ascii_toLowerCase
              [(None, Add "Feed cat"); (None, CompleteById "todo-2");
               (None, DeleteCompleted)] w H
              ltac:(repeat constructor)) as [_ Hc].
  destruct (Hc None None) as [n Hn]. exists n. exact Hn.
Defined.

Lemma perform_state_on_disk (toLowerCase : string -> string)
    (wf : option string) (req : request) (w : World) :
  (exists a, fst (perform toLowerCase wf req w) = Returned a) ->
  state_on_disk w \/ writes (disk (snd (perform toLowerCase wf req w))) <> writes (disk w) ->
  state_on_disk (snd (perform toLowerCase wf req w)).
Proof.
  intros [a Ha] Hs. unfold state_on_disk, list_todos in *.
  destruct (perform_shape toLowerCase wf req w)
    as [[E _] | (new & w0 & Hw0 & E & Hr)].
  - rewrite E in *. destruct Hs as [Hs | Hs]; [exact Hs | congruence].
  - destruct wf as [code|]; [congruence|]. rewrite E, saveAtomically_written.
    cbn [snd this disk files dataFile todos nextId]. apply lookup_insert_eq.
Qed.

(** X3.  A call that returns leaves the file equal to the state in memory,
    list and counter, if it was so before or if the call wrote at all; a
    restart then loads that very state. *)
Theorem returned_call_leaves_state_on_disk (toLowerCase : string -> string)
    (wf : option string) (req : request) (w : World) :
  (exists a, fst (perform toLowerCase wf req w) = Returned a) ->
  state_on_disk w \/ writes (disk (snd (perform toLowerCase wf req w))) <> writes (disk w) ->
  let w' := snd (perform toLowerCase wf req w) in
  state_on_disk w' /\
  forall mf wf', create None mf wf' (dataFile (this w')) (disk w')
                 = (Returned (json_of_service (this w')), disk w').
Proof.
  intros Ha Hs w'.
  pose proof (perform_state_on_disk toLowerCase wf req w Ha Hs) as H.
  split; [exact H|]. intros mf wf'. apply create_reads_written. exact H.
Qed.

(** After an [add] whose write failed the counter in memory is ahead of
    the file; the next call that writes brings the file up to date. *)
Lemma returned_call_leaves_state_on_disk_witness :
  let w := snd (add (Some "ENOSPC") "Buy milk" (snd (save None two_todos))) in
  ~ state_on_disk w /\
  state_on_disk (snd (perform ascii_toLowerCase None (CompleteById "todo-2") w)).
Proof.
  intros w. split.
  - unfold state_on_disk. intros H. vm_compute in H. discriminate.
  - apply (returned_call_leaves_state_on_disk ascii_toLowerCase None
             (CompleteById "todo-2") w).
    + eexists. reflexivity.
    + right. cbn. intros H. apply (f_equal (@length _)) in H. discriminate.
Defined.

(** ** Completion keeps the list in shape *)

Lemma advances_refl (t : Todo) : advances t t.
Proof. repeat split. auto. Qed.

Lemma advances_mark (t : Todo) : advances t (mark_completed t).
Proof. repeat split. Qed.

Lemma Forall2_advances_refl (l : list Todo) : Forall2 advances l l.
Proof. induction l; constructor; [apply advances_refl | assumption]. Qed.

Lemma Forall2_advances_map (f : Todo -> Todo) (l : list Todo) :
  (forall t, advances t (f t)) -> Forall2 advances l (map f l).
Proof. intros Hf. induction l; constructor; [apply Hf | assumption]. Qed.

Lemma Forall2_advances_imap (f : nat -> Todo -> Todo) (l : list Todo) :
  (forall i t, advances t (f i t)) -> Forall2 advances l (imap f l).
Proof.
  revert f. induction l as [|a l IH]; intros f Hf; cbn; constructor; [apply Hf|].
  apply IH. intros i t. apply Hf.
Qed.

Lemma advances_complete_if_id (i : string) (t : Todo) : advances t (complete_if_id i t).
Proof.
  unfold complete_if_id. destruct (has_id i t); [apply advances_mark | apply advances_refl].
Qed.

Lemma advances_complete_if_at (index : Z) (i : nat) (t : Todo) :
  advances t (complete_if_at index i t).
Proof.
  unfold complete_if_at.
  destruct (Z.of_nat i =? index - 1); [apply advances_mark | apply advances_refl].
Qed.

(** X4.  A completion, by id, by position or by title, whether its write goes
    through or not, leaves the list with the same records at the same
    positions: same length, same ids and titles in place, and no record
    that was completed becomes incomplete. *)
Theorem completion_keeps_positions (toLowerCase : string -> string)
    (wf : option string) (req : request) (w : World) :
  is_completion req = true ->
  Forall2 advances (list_todos w) (list_todos (snd (perform toLowerCase wf req w))) /\
  nextId (this (snd (perform toLowerCase wf req w))) = nextId (this w).
Proof.
  intros Hreq. unfold list_todos.
  destruct req as [t|i|index|q|i|]; try discriminate; clear Hreq; cbn [perform];
    unfold fmap_prog, completeById, completeByIndex, completeByTitle,
      bind, get_this, ret, throw.
  - destruct (List.find (has_id i) (todos (this w))) as [t|];
      [|split; [apply Forall2_advances_refl | reflexivity]].
    destruct (completed t); [split; [apply Forall2_advances_refl | reflexivity]|].
    destruct wf as [code|];
      rewrite ?saveAtomically_rejected, ?saveAtomically_written; cbn [snd this todos nextId].
    + split; [apply Forall2_advances_refl | reflexivity].
    + split; [apply Forall2_advances_map, advances_complete_if_id | reflexivity].
  - destruct ((index <? 1) || (Z.of_nat (length (todos (this w))) <? index)) eqn:E;
      [split; [apply Forall2_advances_refl | reflexivity]|].
    destruct (index_in_range index _ E) as [t ->].
    destruct (completed t); [split; [apply Forall2_advances_refl | reflexivity]|].
    destruct wf as [code|];
      rewrite ?saveAtomically_rejected, ?saveAtomically_written; cbn [snd this todos nextId].
    + split; [apply Forall2_advances_refl | reflexivity].
    + split; [apply Forall2_advances_imap, advances_complete_if_at | reflexivity].
  - destruct (List.find _ (todos (this w))) as [t|];
      [|split; [apply Forall2_advances_refl | reflexivity]].
    destruct wf as [code|];
      rewrite ?saveAtomically_rejected, ?saveAtomically_written; cbn [snd this todos nextId].
    + split; [apply Forall2_advances_refl | reflexivity].
    + split; [apply Forall2_advances_map, advances_complete_if_id | reflexivity].
Qed.

Lemma completion_keeps_positions_witness :
  Forall2 advances (list_todos two_todos)
    (list_todos (snd (perform ascii_toLowerCase None (CompleteByTitle "bread") two_todos))).
Proof.
  apply (completion_keeps_positions ascii_toLowerCase None (CompleteByTitle "bread")
           two_todos eq_refl).
Defined.

(** ** How the methods compose *)


(** X6.  [deleteCompleted] a second time finds nothing to delete: after a
    call whose write went through, the next one answers with an empty
    [deleted] and the same list, and writes nothing, whatever the disk
    would do. *)
Theorem deleteCompleted_twice (wf : option string) (w : World) :
  let w' := snd (deleteCompleted None w) in
  deleteCompleted wf w' = (Returned ([], list_todos w'), w').
Proof.
  intros w'. apply deleteCompleted_nothing.
  assert (Hl : list_todos w' = List.filter (fun t => negb (completed t)) (list_todos w)).
  { subst w'. destruct (List.filter completed (list_todos w)) as [|a l] eqn:E.
    - rewrite (deleteCompleted_nothing None w E). cbn [snd].
      symmetry. apply none_completed. exact E.
    - rewrite deleteCompleted_some by (rewrite E; discriminate).
      rewrite saveAtomically_written. reflexivity. }
  rewrite Hl. clear. induction (list_todos w) as [|a l IH]; [reflexivity|].
  cbn [List.filter]. destruct (completed a) eqn:E; cbn [negb List.filter]; [exact IH|].
  rewrite E. exact IH.
Qed.

Lemma includes_empty (s : string) : includes s EmptyString = true.
Proof. destruct s; reflexivity. Qed.

(** X7.  The service does not refuse an empty query: when the folding of the
    empty string is empty, [completeByTitle ""] takes the first incomplete
    todo whatever its title, and answers [not_found] only when every todo
    is completed. *)
Theorem completeByTitle_empty_query (toLowerCase : string -> string)
    (wf : option string) (w : World) :
  toLowerCase EmptyString = EmptyString ->
  (forall t, is_candidate toLowerCase (toLowerCase EmptyString) t = negb (completed t)) /\
  (Forall (fun t => completed t = true) (list_todos w) ->
   completeByTitle toLowerCase wf EmptyString w = (Returned (NotOk not_found), w)) /\
  (forall l1 t l2,
     list_todos w = l1 ++ t :: l2 ->
     Forall (fun t => completed t = true) l1 -> completed t = false ->
     NoDup (ids (list_todos w)) ->
     completeByTitle toLowerCase None EmptyString w
     = (Returned (Ok (Some (mark_completed t))),
        snd (saveAtomically None (l1 ++ mark_completed t :: l2) w))).
Proof.
  intros Hfold.
  assert (Hc : forall t,
    is_candidate toLowerCase (toLowerCase EmptyString) t = negb (completed t)).
  { intros t. unfold is_candidate. rewrite Hfold, includes_empty. apply andb_true_r. }
  split; [exact Hc|]. split.
  - intros H. apply completeByTitle_not_found.
    eapply Forall_impl; [exact H|]. intros t Ht. cbn in Ht. rewrite Hc, Ht. reflexivity.
  - intros l1 t l2 Hl H1 Ht Hnd. apply completeByTitle_match; try assumption.
    + eapply Forall_impl; [exact H1|]. intros x Hx. cbn in Hx. rewrite Hc, Hx. reflexivity.
    + rewrite Hc, Ht. reflexivity.
Qed.

Lemma completeByTitle_empty_query_witness :
  fst (completeByTitle ascii_toLowerCase None EmptyString two_todos)
  = Returned (Ok (Some (mkTodo "todo-2" "Buy bread" true))).
Proof.
  destruct (completeByTitle_empty_query ascii_toLowerCase None two_todos eq_refl)
    as (_ & _ & H).
  rewrite (H [mkTodo "todo-1" "Buy milk" true] (mkTodo "todo-2" "Buy bread" false) []
             eq_refl ltac:(constructor; [reflexivity | constructor]) eq_refl
             two_todos_unique).
  reflexivity.
Defined.

(** ** The first start *)

(** X8.  On a disk without the file, [create] makes the directory, writes the
    empty state once and returns the empty store with the counter at 1; a
    second start then finds the file, loads the same store and writes
    nothing. *)
Theorem create_first_start (rf : option string) (path : string) (d : Disk) :
  rf = Some "ENOENT" \/ (rf = None /\ files d !! path = None) ->
  let d' := snd (create rf None None path d) in
  fst (create rf None None path d) = Returned (mkTodoService path [] 1) /\
  files d' !! path = Some (JSON_stringify [] 1) /\
  writes d' = (path, JSON_stringify [] 1) :: writes d /\
  forall mf wf,
    create None mf wf path d' = (Returned (mkTodoService path [] 1), d').
Proof.
  intros H d'. subst d'. rewrite (create_absent rf None None path d H).
  cbn [fst snd files writes]. split; [reflexivity|].
  split; [apply lookup_insert_eq|]. split; [reflexivity|].
  intros mf wf. apply (create_reads_written mf wf path _ [] 1). apply lookup_insert_eq.
Qed.

Lemma create_first_start_witness :
  fst (create None None None "data/todos.json" (mkDisk ∅ []))
  = Returned (mkTodoService "data/todos.json" [] 1).
Proof.
  apply (create_first_start None "data/todos.json" (mkDisk ∅ [])).
  right. split; reflexivity.
Defined.

(** X9.  A first start that cannot make the directory throws the system's
    error without calling [writeFile]; one whose write is rejected throws
    that error after the one call of [writeFile] with the empty state.
    Either way no store is returned. *)
Theorem create_first_start_fails (rf mf wf : option string) (path : string) (d : Disk) :
  rf = Some "ENOENT" \/ (rf = None /\ files d !! path = None) ->
  (forall code, mf = Some code ->
     create rf mf wf path d = (Threw (SystemError code), d)) /\
  (forall code, mf = None -> wf = Some code ->
     fst (create rf mf wf path d) = Threw (SystemError code) /\
     writes (snd (create rf mf wf path d)) = (path, JSON_stringify [] 1) :: writes d).
Proof.
  intros H. rewrite (create_absent rf mf wf path d H). split.
  - intros code ->. reflexivity.
  - intros code -> ->. split; reflexivity.
Qed.

Lemma create_first_start_fails_witness :
  create None (Some "EACCES") None "data/todos.json" (mkDisk ∅ [])
  = (Threw (SystemError "EACCES"), mkDisk ∅ []).
Proof.
  assert (H : @None string = Some "ENOENT" \/
              (@None string = None /\ files (mkDisk ∅ []) !! "data/todos.json" = None))
    by (right; split; reflexivity).
  apply (proj1 (create_first_start_fails None (Some "EACCES") None
                  "data/todos.json" (mkDisk ∅ []) H)).
  reflexivity.
Defined.

(* ================================================================== *)
(** * The internal API of [server.js] *)

(** ** Which paths name a todo *)

Lemma strip_prefix_spec (p s r : string) :
  strip_prefix p s = Some r <-> s = p +:+ r.
Proof.
  revert s. induction p as [|a p IH]; intros s.
  - destruct s; cbn [strip_prefix]; change (EmptyString +:+ r) with r;
      split; congruence.
  - change (String a p +:+ r) with (String a (p +:+ r)).
    destruct s as [|b s]; cbn [strip_prefix]; [split; discriminate|].
    destruct (Ascii.eqb a b) eqn:E.
    + apply Ascii.eqb_eq in E as ->. rewrite IH. split; congruence.
    + apply Ascii.eqb_neq in E. split; [discriminate | congruence].
Qed.

(** ** Deleting through the internal API *)

Lemma filter_out_found (i : string) (l : list Todo) (t : Todo) :
  List.find (has_id i) l = Some t ->
  List.filter (fun x => negb (has_id i x)) l <> l.
Proof.
  intros Hf Heq. apply find_first in Hf as (l1 & l2 & Hl & Hid & _).
  assert (Hin : In t (List.filter (fun x => negb (has_id i x)) l)).
  { rewrite Heq, Hl. apply in_or_app. right. left. reflexivity. }
  apply List.filter_In in Hin as [_ Hn].
  apply negb_true_iff, has_id_false in Hn. contradiction.
Qed.

(** X11.  [DELETE] through [callInternalApi] assigns the shortened list to
    [todoService.todos] before it saves.  When the write goes through, the
    outcome is that of [TodoService.deleteById], world and all.  When the
    write is rejected the call throws, but the todo is gone from [list()]
    all the same: the memory has changed although nothing was saved.
    [deleteById] on the same input leaves the list as it was. *)
Theorem internal_delete_commits_before_saving
    (toLowerCase trim : string -> string)
    (wf : option string) (path i : string) (body : option json)
    (w : World) (t : Todo) :
  match_id "/api/todos" path = Some i ->
  List.find (has_id i) (list_todos w) = Some t ->
  let rest := List.filter (fun x => negb (has_id i x)) (list_todos w) in
  let r := callInternalApi toLowerCase trim wf "DELETE" path body w in
  list_todos (snd r) = rest /\
  rest <> list_todos w /\
  match wf with
  | None =>
      r = (Returned (TodoAndTodos (Some t) rest), snd (deleteById None i w))
  | Some code =>
      fst r = Threw (SystemError code) /\
      list_todos (snd (deleteById (Some code) i w)) = list_todos w
  end.
Proof.
  intros Hm Hf rest r. subst r.
  assert (Hrest : rest <> list_todos w)
    by (apply filter_out_found with (t := t); exact Hf).
  unfold callInternalApi.
  cbn [String.eqb Ascii.eqb Bool.eqb andb]. rewrite Hm.
  unfold list_todos in *.
  cbv beta iota zeta delta [bind set_todos save get_this ret]. rewrite Hf.
  cbn [this todos].
  destruct wf as [code|].
  - rewrite saveAtomically_rejected. cbn [fst snd this todos].
    split; [reflexivity|]. split; [exact Hrest|]. split; [reflexivity|].
    unfold deleteById, bind, get_this, ret. rewrite Hf.
    rewrite saveAtomically_rejected. reflexivity.
  - rewrite saveAtomically_written. cbn [fst snd this todos].
    split; [reflexivity|]. split; [exact Hrest|].
    unfold deleteById, bind, get_this, ret. rewrite Hf.
    rewrite saveAtomically_written. reflexivity.
Qed.

Lemma internal_delete_commits_before_saving_witness :
  let r := callInternalApi ascii_toLowerCase ascii_trim (Some "EIO")
             "DELETE" "/api/todos/todo-1" None two_todos in
  fst r = Threw (SystemError "EIO") /\
  list_todos (snd r) = [mkTodo "todo-2" "Buy bread" false] /\
  list_todos (snd (deleteById (Some "EIO") "todo-1" two_todos)) = list_todos two_todos.
Proof.
  intros r.
  destruct (internal_delete_commits_before_saving ascii_toLowerCase ascii_trim
              (Some "EIO") "/api/todos/todo-1" "todo-1" None two_todos
              (mkTodo "todo-1" "Buy milk" true) eq_refl eq_refl)
    as (Hl & _ & Hr & Hd).
  split; [exact Hr|]. split; [exact Hl | exact Hd].
Defined.

(** ** What the internal API answers *)

Lemma completeById_miss (wf : option string) (i : string) (w w' : World) (e : reason) :
  completeById wf i w = (Returned (NotOk e), w') -> w' = w.
Proof.
  unfold completeById, bind, get_this, ret.
  destruct (List.find (has_id i) (todos (this w))) as [t|]; [|congruence].
  destruct (completed t); [congruence|].
  destruct wf; rewrite ?saveAtomically_rejected, ?saveAtomically_written; discriminate.
Qed.

Lemma completeByIndex_miss (wf : option string) (index : Z) (w w' : World) (e : reason) :
  completeByIndex wf index w = (Returned (NotOk e), w') ->
  w' = w /\ (index < 1 \/ Z.of_nat (length (list_todos w)) < index).
Proof.
  intros H.
  destruct (Z.lt_ge_cases index 1) as [|H1];
    [rewrite completeByIndex_invalid in H by (left; assumption); split; [congruence | tauto]|].
  destruct (Z.lt_ge_cases (Z.of_nat (length (list_todos w))) index) as [|H2];
    [rewrite completeByIndex_invalid in H by (right; assumption); split; [congruence | tauto]|].
  exfalso.
  assert (Hr : 1 <= index <= Z.of_nat (length (list_todos w))) by lia.
  destruct (lookup_lt_is_Some_2 (list_todos w) (Z.to_nat (index - 1)) ltac:(lia)) as [t Ht].
  destruct (completed t) eqn:Ec.
  - rewrite (completeByIndex_already wf index w t Hr Ht Ec) in H. discriminate.
  - rewrite (completeByIndex_fresh wf index w t Hr Ht Ec) in H. destruct wf; discriminate.
Qed.

Lemma completeByIndex_hit (wf : option string) (index : Z) (w w' : World)
    (r : option Todo * Z) :
  completeByIndex wf index w = (Returned (Ok r), w') ->
  1 <= index <= Z.of_nat (length (list_todos w)).
Proof.
  intros H.
  destruct (Z.lt_ge_cases index 1) as [|H1];
    [rewrite completeByIndex_invalid in H by (left; assumption); discriminate|].
  destruct (Z.lt_ge_cases (Z.of_nat (length (list_todos w))) index) as [|H2];
    [rewrite completeByIndex_invalid in H by (right; assumption); discriminate|].
  lia.
Qed.

Lemma completeByTitle_miss (toLowerCase : string -> string)
    (wf : option string) (q : string) (w w' : World) (e : reason) :
  completeByTitle toLowerCase wf q w = (Returned (NotOk e), w') -> w' = w.
Proof.
  unfold completeByTitle, bind, get_this, ret.
  destruct (List.find _ (todos (this w))) as [t|]; [|congruence].
  destruct wf; rewrite ?saveAtomically_rejected, ?saveAtomically_written; discriminate.
Qed.

Lemma optional_trim_cases (trim : string -> string) (x : option json) (w : World) :
  optional_trim trim x w = (Threw TypeError, w) \/
  exists t, optional_trim trim x w = (Returned t, w) /\
    (forall s, t = Some s -> exists s0, x = Some (JString s0) /\ s = trim s0).
Proof.
  assert (Hnone : forall y : option json,
    exists t : option string, (Returned (@None string), w) = (Returned t, w) /\
      (forall s, t = Some s -> exists s0, y = Some (JString s0) /\ s = trim s0)).
  { intros y. exists None. split; [reflexivity | discriminate]. }
  destruct x as [[| | | s | | ms]|]; cbn [optional_trim]; try (right; apply Hnone).
  - right. exists (Some (trim s)). split; [reflexivity|]. intros s' [= <-]. eauto.
  - destruct (last_member "trim" ms) as [[]|]; try (left; reflexivity);
      right; apply Hnone.
Qed.

(** Calls of the service, as their callers see them. *)

Lemma cons_neq {A} (a : A) (l : list A) : a :: l <> l.
Proof.
  intros H. apply (f_equal (@length A)) in H. cbn [length] in H. lia.
Qed.

Lemma perform_one_write (toLowerCase : string -> string)
    (wf : option string) (req : request) (w : World) :
  one_write wf w (perform toLowerCase wf req w).
Proof.
  unfold one_write.
  destruct (perform_shape toLowerCase wf req w)
    as [(Hw & a & Ha) | (new & w0 & Hw0 & Hw & Hr)].
  - rewrite Ha. intros _. exact Hw.
  - destruct wf as [code|].
    + rewrite Hr. exists code. split; [reflexivity|]. split; [reflexivity|].
      rewrite Hw, saveAtomically_rejected. cbn [snd list_todos this disk writes].
      destruct Hw0 as [-> | ->]; (split; [reflexivity | apply cons_neq]).
    + destruct Hr as [a ->]. intros H. contradiction.
Qed.

Lemma fmap_prog_one_write {A B} (f : A -> B) (m : Prog World A)
    (wf : option string) (w : World) :
  one_write wf w (fmap_prog f m w) -> one_write wf w (m w).
Proof.
  unfold one_write, fmap_prog, bind, ret.
  destruct (m w) as [[a|e] w1]; exact (fun H => H).
Qed.

Lemma add_one_write (wf : option string) (title : string) (w : World) :
  one_write wf w (add wf title w).
Proof.
  apply (fmap_prog_one_write Added). exact (perform_one_write ascii_toLowerCase wf (Add title) w).
Qed.

Lemma completeById_one_write (wf : option string) (i : string) (w : World) :
  one_write wf w (completeById wf i w).
Proof.
  apply (fmap_prog_one_write Completed).
  exact (perform_one_write ascii_toLowerCase wf (CompleteById i) w).
Qed.

Lemma completeByIndex_one_write (wf : option string) (index : Z) (w : World) :
  one_write wf w (completeByIndex wf index w).
Proof.
  apply (fmap_prog_one_write CompletedAt).
  exact (perform_one_write ascii_toLowerCase wf (CompleteByIndex index) w).
Qed.

Lemma completeByTitle_one_write (toLowerCase : string -> string)
    (wf : option string) (q : string) (w : World) :
  one_write wf w (completeByTitle toLowerCase wf q w).
Proof.
  apply (fmap_prog_one_write Completed).
  exact (perform_one_write toLowerCase wf (CompleteByTitle q) w).
Qed.

Lemma deleteById_one_write (wf : option string) (i : string) (w : World) :
  one_write wf w (deleteById wf i w).
Proof.
  apply (fmap_prog_one_write Deleted).
  exact (perform_one_write ascii_toLowerCase wf (DeleteById i) w).
Qed.

Lemma deleteById_miss (wf : option string) (i : string) (w w' : World) (e : reason) :
  deleteById wf i w = (Returned (NotOk e), w') -> w' = w.
Proof.
  unfold deleteById, bind, get_this, ret.
  destruct (List.find (has_id i) (todos (this w))) as [t|]; [|congruence].
  destruct wf; rewrite ?saveAtomically_rejected, ?saveAtomically_written; discriminate.
Qed.

Lemma get_property_run (v : json) (key : string) (w : World) :
  get_property v key w = (Threw TypeError, w) \/
  get_property v key w = (Returned (own_property v key), w).
Proof. destruct v; cbn [get_property]; auto. Qed.

Lemma get_property_state (v : json) (key : string) (w w' : World)
    (o : outcome (option json)) :
  get_property v key w = (o, w') -> w' = w.
Proof. destruct v; cbn [get_property]; unfold ret, throw; congruence. Qed.

Lemma optional_trim_state (trim : string -> string) (v : option json) (w w' : World)
    (o : outcome (option string)) :
  optional_trim trim v w = (o, w') -> w' = w.
Proof.
  destruct (optional_trim_cases trim v w) as [-> | (t & -> & _)]; congruence.
Qed.

Lemma threw_inv {A} (wf : option string) (w w' : World) (r : outcome A * World)
    (e : exn) :
  one_write wf w r -> r = (Threw e, w') ->
  exists code, wf = Some code /\ e = SystemError code /\
    list_todos w' = list_todos w /\ writes (disk w') <> writes (disk w).
Proof. intros H ->. exact H. Qed.

Lemma returned_inv {A} (wf : option string) (w w' : World) (r : outcome A * World)
    (a : A) :
  one_write wf w r -> r = (Returned a, w') -> wf <> None -> w' = w.
Proof. intros H ->. exact H. Qed.

(** The answers of [POST /api/todos]. *)
Lemma internal_add_cases (toLowerCase trim : string -> string)
    (wf : option string) (body : option json) (w : World) :
  callInternalApi toLowerCase trim wf "POST" "/api/todos" body w
  = (Threw TypeError, w) \/
  callInternalApi toLowerCase trim wf "POST" "/api/todos" body w
  = (Returned (ErrorMessage "Missing or empty title"), w) \/
  exists s, optional_get body "title" = Some (JString s) /\ trim s <> EmptyString /\
    callInternalApi toLowerCase trim wf "POST" "/api/todos" body w
    = match wf with
      | Some code => (Threw (SystemError code), snd (add (Some code) (trim s) w))
      | None =>
          (Returned (TodoAndTodos (Some (mkTodo ("todo-" +:+ pretty (nextId (this w)))
                                           (trim s) false))
                       (list_todos (snd (add None (trim s) w)))),
           snd (add None (trim s) w))
      end.
Proof.
  set (r := callInternalApi toLowerCase trim wf "POST" "/api/todos" body w).
  assert (Hr : r =
    match optional_trim trim (optional_get body "title") w with
    | (Returned title, w1) =>
        if is_missing title
        then (Returned (ErrorMessage "Missing or empty title"), w1)
        else
          match add wf (given title) w1 with
          | (Returned todo, w2) =>
              (Returned (TodoAndTodos (Some todo) (todos (this w2))), w2)
          | (Threw e, w2) => (Threw e, w2)
          end
    | (Threw e, w1) => (Threw e, w1)
    end).
  { subst r. unfold callInternalApi. cbn [String.eqb Ascii.eqb Bool.eqb andb].
    unfold bind at 1. destruct (optional_trim trim (optional_get body "title") w) as [[t|e] w1];
      [|reflexivity].
    destruct (is_missing t); [reflexivity|]. unfold bind at 1.
    destruct (add wf (given t) w1) as [[todo|e] w2]; reflexivity. }
  rewrite Hr. clear Hr r.
  destruct (optional_trim_cases trim (optional_get body "title") w)
    as [-> | (t & -> & Ht)]; [left; reflexivity|].
  destruct t as [s|]; [|right; left; reflexivity].
  destruct (Ht s eq_refl) as (s0 & Hs0 & ->).
  cbn [is_missing given]. destruct (String.eqb (trim s0) EmptyString) eqn:E;
    [right; left; reflexivity|].
  right. right. exists s0. apply String.eqb_neq in E. split; [exact Hs0|].
  split; [exact E|]. destruct wf as [code|].
  - rewrite add_rejected. reflexivity.
  - rewrite add_written. reflexivity.
Qed.



(** X13.  [POST /api/todos/complete-by-index] of the internal API.  The guard
    of the handler and the guard of [completeByIndex] together let through
    exactly the integers from 1 to the length of the list: a request is
    answered with [ok: true] if and only if its [index] is such a number,
    and any other request is answered with [Invalid index] and changes
    nothing. *)
Theorem internal_complete_by_index_answer (toLowerCase trim : string -> string)
    (wf : option string)
    (body : option json) (w w' : World) (p : payload) :
  callInternalApi toLowerCase trim wf "POST" "/api/todos/complete-by-index" body w
    = (Returned p, w') ->
  (ok p = true <->
   exists n, integer_value (optional_get body "index") = Some n /\
     1 <= n <= Z.of_nat (length (list_todos w))) /\
  (ok p = false -> p = ErrorMessage "Invalid index" /\ w' = w).
Proof.
  unfold callInternalApi. cbn [String.eqb Ascii.eqb Bool.eqb andb].
  destruct (integer_value (optional_get body "index")) as [n|].
  2: { intros [= <- <-]. cbn [ok]. split; [|split; reflexivity].
       split; [discriminate | intros (n & Hn & _); discriminate]. }
  destruct (n <? 1) eqn:E1.
  { apply Z.ltb_lt in E1. intros [= <- <-]. cbn [ok]. split; [|split; reflexivity].
    split; [discriminate | intros (n' & [= <-] & Hn'); lia]. }
  apply Z.ltb_ge in E1. unfold bind at 1.
  destruct (completeByIndex wf n w) as [[[[t i]|e]|ex] w1] eqn:Ec; [| |discriminate].
  - apply completeByIndex_hit in Ec.
    unfold bind, get_this, ret. intros [= <- <-]. cbn [ok].
    split; [|discriminate]. split; [eauto | reflexivity].
  - apply completeByIndex_miss in Ec as [-> Hout].
    intros [= <- <-]. cbn [ok]. split; [|split; reflexivity].
    split; [discriminate | intros (n' & [= <-] & Hn'); lia].
Qed.

Lemma internal_complete_by_index_answer_witness :
  exists p w',
    callInternalApi ascii_toLowerCase ascii_trim None "POST"
      "/api/todos/complete-by-index"
      (Some (JObject [("index", JNumber (mkNumber 3 0))])) two_todos = (Returned p, w') /\
    p = ErrorMessage "Invalid index" /\ w' = two_todos.
Proof.
  exists (ErrorMessage "Invalid index"), two_todos. split; [reflexivity|].
  apply (internal_complete_by_index_answer ascii_toLowerCase ascii_trim None
           (Some (JObject [("index", JNumber (mkNumber 3 0))])) two_todos
           two_todos (ErrorMessage "Invalid index") eq_refl).
  reflexivity.
Defined.

Lemma optional_trim_threw (trim : string -> string) (x : option json)
    (w w' : World) (e : exn) :
  optional_trim trim x w = (Threw e, w') ->
  e = TypeError /\ w' = w /\ exists ms, x = Some (JObject ms).
Proof.
  destruct x as [[| | | s | | ms]|]; cbn [optional_trim]; try discriminate.
  destruct (last_member "trim" ms) as [[]|]; try discriminate;
    intros [= <- <-]; eauto.
Qed.

Lemma find_own_id (p : Todo -> bool) (l : list Todo) (m : Todo) :
  List.find p l = Some m -> exists t, List.find (has_id (id m)) l = Some t.
Proof.
  intros H. apply List.find_some in H as [Hin _].
  destruct (List.find (has_id (id m)) l) as [t|] eqn:E; [eauto|].
  pose proof (List.find_none _ _ E m Hin) as Hn.
  apply has_id_false in Hn. congruence.
Qed.

Lemma completeById_ok (wf : option string) (i : string) (w w' : World)
    (t : option Todo) :
  completeById wf i w = (Returned (Ok t), w') -> exists todo, t = Some todo.
Proof.
  unfold completeById, bind, get_this, ret.
  destruct (List.find (has_id i) (todos (this w))) as [u|] eqn:E; [|discriminate].
  destruct (completed u); [intros [= <- <-]; eauto|].
  destruct wf as [code|];
    rewrite ?saveAtomically_rejected, ?saveAtomically_written; [discriminate|].
  cbn [this todos]. rewrite find_after_complete, E. intros [= <- <-]. cbn. eauto.
Qed.

Lemma completeByIndex_ok (wf : option string) (index k : Z) (w w' : World)
    (t : option Todo) :
  completeByIndex wf index w = (Returned (Ok (t, k)), w') -> exists todo, t = Some todo.
Proof.
  intros H. pose proof (completeByIndex_hit _ _ _ _ _ H) as Hr.
  destruct (lookup_lt_is_Some_2 (list_todos w) (Z.to_nat (index - 1)) ltac:(lia))
    as [u Hu].
  destruct (completed u) eqn:Ec.
  - rewrite (completeByIndex_already wf index w u Hr Hu Ec) in H.
    injection H as <- _ _. eauto.
  - rewrite (completeByIndex_fresh wf index w u Hr Hu Ec) in H.
    destruct wf; [discriminate|]. injection H as <- _ _. eauto.
Qed.

Lemma completeByTitle_ok (toLowerCase : string -> string) (wf : option string)
    (q : string) (w w' : World) (t : option Todo) :
  completeByTitle toLowerCase wf q w = (Returned (Ok t), w') ->
  exists todo, t = Some todo.
Proof.
  unfold completeByTitle, bind, get_this, ret.
  destruct (List.find _ (todos (this w))) as [m|] eqn:E; [|discriminate].
  destruct wf as [code|];
    rewrite ?saveAtomically_rejected, ?saveAtomically_written; [discriminate|].
  cbn [this todos]. rewrite find_after_complete.
  destruct (find_own_id _ _ _ E) as [u ->]. intros [= <- <-]. cbn. eauto.
Qed.

(** Every outcome of [callInternalApi]. *)
Lemma callInternalApi_outcome (toLowerCase trim : string -> string)
    (wf : option string) (method path : string)
    (body : option json) (w w' : World) (o : outcome payload) :
  callInternalApi toLowerCase trim wf method path body w = (o, w') ->
  match o with
  | Returned (ErrorMessage _) => w' = w
  | Returned (Todos l) => l = list_todos w' /\ w' = w /\ method = "GET"
  | Returned (TodoAndTodos t l) => l = list_todos w' /\ exists todo, t = Some todo
  | Threw e =>
      (e = TypeError /\ w' = w /\
       exists ms, optional_get body "title" = Some (JObject ms)) \/
      (exists code, wf = Some code /\ e = SystemError code)
  end.
Proof.
  unfold callInternalApi.
  destruct (String.eqb method "GET" && String.eqb path "/api/todos") eqn:Eg.
  { apply andb_true_iff in Eg as [Eg _]. apply String.eqb_eq in Eg.
    unfold bind, get_this, ret. intros [= <- <-]. repeat split. exact Eg. }
  destruct (String.eqb method "POST" && String.eqb path "/api/todos").
  { unfold bind at 1.
    destruct (optional_trim trim (optional_get body "title") w) as [[t|e] w1] eqn:Et.
    2: { intros [= <- <-]. left. eapply optional_trim_threw. exact Et. }
    apply optional_trim_state in Et as ->.
    destruct (is_missing t); [intros [= <- <-]; reflexivity|].
    unfold bind at 1. destruct (add wf (given t) w) as [[todo|e] w1] eqn:Ea.
    - unfold bind, get_this, ret. intros [= <- <-]. split; [reflexivity | eauto].
    - apply (threw_inv _ _ _ _ _ (add_one_write wf (given t) w)) in Ea
        as (code & -> & -> & _). intros [= <- <-]. right. eauto. }
  destruct (String.eqb method "POST" && String.eqb path "/api/todos/complete-by-index").
  { destruct (integer_value (optional_get body "index")) as [n|];
      [|intros [= <- <-]; reflexivity].
    destruct (n <? 1); [intros [= <- <-]; reflexivity|].
    unfold bind at 1.
    destruct (completeByIndex wf n w) as [[[[t i]|e]|ex] w1] eqn:Ec.
    - apply completeByIndex_ok in Ec.
      unfold bind, get_this, ret. intros [= <- <-]. split; [reflexivity | exact Ec].
    - apply completeByIndex_miss in Ec as [-> _]. intros [= <- <-]. reflexivity.
    - apply (threw_inv _ _ _ _ _ (completeByIndex_one_write wf n w)) in Ec
        as (code & -> & -> & _). intros [= <- <-]. right. eauto. }
  destruct (String.eqb method "POST" && String.eqb path "/api/todos/complete-by-title").
  { unfold bind at 1.
    destruct (optional_trim trim (optional_get body "title") w) as [[t|e] w1] eqn:Et.
    2: { intros [= <- <-]. left. eapply optional_trim_threw. exact Et. }
    apply optional_trim_state in Et as ->.
    destruct (is_missing t); [intros [= <- <-]; reflexivity|].
    unfold bind at 1.
    destruct (completeByTitle toLowerCase wf (given t) w) as [[[u|e]|ex] w1] eqn:Ec.
    - apply completeByTitle_ok in Ec.
      unfold bind, get_this, ret. intros [= <- <-]. split; [reflexivity | exact Ec].
    - apply completeByTitle_miss in Ec as ->. intros [= <- <-]. reflexivity.
    - apply (threw_inv _ _ _ _ _ (completeByTitle_one_write toLowerCase wf (given t) w))
        in Ec as (code & -> & -> & _). intros [= <- <-]. right. eauto. }
  destruct (match_id "/api/todos" path) as [i|]; [|intros [= <- <-]; reflexivity].
  destruct (String.eqb method "PUT").
  { unfold bind at 1.
    destruct (completeById wf i w) as [[[u|e]|ex] w1] eqn:Ec.
    - apply completeById_ok in Ec.
      unfold bind, get_this, ret. intros [= <- <-]. split; [reflexivity | exact Ec].
    - apply completeById_miss in Ec as ->. intros [= <- <-]. reflexivity.
    - apply (threw_inv _ _ _ _ _ (completeById_one_write wf i w)) in Ec
        as (code & -> & -> & _). intros [= <- <-]. right. eauto. }
  destruct (String.eqb method "DELETE"); [|intros [= <- <-]; reflexivity].
  cbv beta iota zeta delta [bind get_this ret set_todos save].
  destruct (List.find (has_id i) (todos (this w))) as [t|];
    [|intros [= <- <-]; reflexivity].
  cbn [this todos].
  destruct wf as [code|];
    rewrite ?saveAtomically_rejected, ?saveAtomically_written.
  - intros [= <- <-]. right. eauto.
  - intros [= <- <-]. split; [reflexivity | eauto].
Qed.

(** X14.  What an answer of [callInternalApi] says about the store, whatever
    the method, path and body.  An answer with [ok: false] means that the
    call changed nothing, neither the list nor the counter nor the disk.
    An answer with [ok: true] carries in [todos] the list as it is after
    the call; the one without a [todo] is that of [GET], which changes
    nothing either. *)
Theorem internal_answer_and_store (toLowerCase trim : string -> string)
    (wf : option string) (method path : string)
    (body : option json) (w w' : World) (p : payload) :
  callInternalApi toLowerCase trim wf method path body w = (Returned p, w') ->
  match p with
  | ErrorMessage _ => w' = w
  | Todos l => l = list_todos w' /\ w' = w
  | TodoAndTodos _ l => l = list_todos w'
  end.
Proof.
  intros H. apply callInternalApi_outcome in H.
  destruct p as [l|t l|e]; [tauto | exact (proj1 H) | exact H].
Qed.

Lemma internal_answer_and_store_witness :
  exists p w',
    callInternalApi ascii_toLowerCase ascii_trim None "PUT" "/api/todos/todo-9"
      None two_todos = (Returned p, w') /\
    p = ErrorMessage "Todo todo-9 not found" /\ w' = two_todos.
Proof.
  exists (ErrorMessage "Todo todo-9 not found"), two_todos.
  split; [reflexivity|]. split; [reflexivity|].
  exact (internal_answer_and_store ascii_toLowerCase ascii_trim None "PUT"
           "/api/todos/todo-9" None two_todos two_todos
           (ErrorMessage "Todo todo-9 not found") eq_refl).
Defined.


(** * The REST routes of [routes/todoRoutes.js] *)

(** ** Reading a request body *)

Lemma string_app_assoc (a b c : string) : (a +:+ b) +:+ c = a +:+ (b +:+ c).
Proof.
  induction a as [|x a IH]; [reflexivity|].
  change (String x a +:+ b) with (String x (a +:+ b)).
  change (String x (a +:+ b) +:+ c) with (String x ((a +:+ b) +:+ c)).
  rewrite IH. reflexivity.
Qed.

Lemma string_app_empty (a : string) : a +:+ EmptyString = a.
Proof.
  induction a as [|x a IH]; [reflexivity|].
  change (String x a +:+ EmptyString) with (String x (a +:+ EmptyString)).
  rewrite IH. reflexivity.
Qed.

Lemma settle_settled (r p : json + thrown) (st : reading) :
  settled st = Some p -> settle r st = st.
Proof. unfold settle. intros ->. reflexivity. Qed.

Lemma settle_pending (r : json + thrown) (st : reading) :
  settled st = None -> settled (settle r st) = Some r.
Proof. unfold settle. intros ->. reflexivity. Qed.

(** A settled promise stays as it is, whatever arrives later. *)
Lemma settled_stays (toString : string -> string) (cs : list string) :
  forall (st : reading) (p : json + thrown),
    settled st = Some p -> settled (fold_left (on_data toString) cs st) = Some p.
Proof.
  induction cs as [|c cs IH]; intros st p Hp; [exact Hp|].
  cbn [fold_left]. apply IH. unfold on_data.
  destruct ((MAX_BODY_BYTES <? bytes st + N.of_nat (String.length c))%N
            && negb (rejected st)).
  - unfold settle. cbn [settled]. rewrite Hp. reflexivity.
  - destruct (negb (rejected st)); exact Hp.
Qed.

Lemma total_bytes_cons (c : string) (cs : list string) :
  total_bytes (c :: cs) = (N.of_nat (String.length c) + total_bytes cs)%N.
Proof. reflexivity. Qed.

Lemma read_chunks (toString : string -> string) (cs : list string) :
  forall st : reading,
    rejected st = false -> settled st = None ->
    (bytes st <= MAX_BODY_BYTES)%N ->
    if (MAX_BODY_BYTES <? bytes st + total_bytes cs)%N
    then settled (fold_left (on_data toString) cs st) = Some (inr PayloadTooLargeError)
    else fold_left (on_data toString) cs st
         = mkReading (body st +:+ text_of toString cs)
             (bytes st + total_bytes cs) false None.
Proof.
  induction cs as [|c cs IH]; intros st Hr Hs Hb.
  - cbn [fold_left total_bytes text_of fold_right].
    rewrite N.add_0_r, string_app_empty.
    apply N.ltb_ge in Hb. rewrite Hb.
    destruct st; cbn in *; congruence.
  - rewrite total_bytes_cons. cbn [fold_left text_of fold_right].
    fold (text_of toString cs).
    destruct (MAX_BODY_BYTES <? bytes st + N.of_nat (String.length c))%N eqn:E.
    + unfold on_data. rewrite E, Hr. cbn [negb andb].
      apply N.ltb_lt in E.
      replace (MAX_BODY_BYTES <?
               bytes st + (N.of_nat (String.length c) + total_bytes cs))%N with true
        by (symmetry; apply N.ltb_lt; lia).
      apply settled_stays. apply settle_pending. exact Hs.
    + assert (Hd : on_data toString st c
                   = mkReading (body st +:+ toString c)
                       (bytes st + N.of_nat (String.length c)) false (settled st)).
      { unfold on_data. rewrite E, Hr. reflexivity. }
      rewrite Hd. apply N.ltb_ge in E.
      specialize (IH (mkReading (body st +:+ toString c)
                        (bytes st + N.of_nat (String.length c)) (rejected st)
                        (settled st)) Hr Hs E).
      cbn [bytes body] in IH. rewrite <- N.add_assoc in IH.
      rewrite string_app_assoc, Hr in IH. exact IH.
Qed.

(** X15.  How [parseJsonBody] settles.  It rejects with the error of a body
    over the limit exactly when the chunks together hold more than
    [MAX_BODY_BYTES] bytes, wherever the chunks are cut and whether the
    stream then ends or fails.  Under the limit, a failure of the stream
    rejects with its error; otherwise the body is the chunks read in order,
    an empty body resolves with the empty object, and any other resolves
    with what [JSON.parse] makes of it or rejects with its [SyntaxError].
    The promise is never left pending. *)
Theorem parseJsonBody_settles (toString : string -> string) (req : IncomingMessage) :
  parseJsonBody toString req =
  Some (if (MAX_BODY_BYTES <? total_bytes (chunks req))%N
        then inr PayloadTooLargeError
        else
          match failure req with
          | Some e => inr (Other e)
          | None =>
              match text_of toString (chunks req) with
              | EmptyString => inl (JObject [])
              | String _ _ as text =>
                  match JSON_parse text with
                  | Some v => inl v
                  | None => inr (Other SyntaxError)
                  end
              end
          end).
Proof.
  unfold parseJsonBody.
  pose proof (read_chunks toString (chunks req)
                (mkReading EmptyString 0 false None) eq_refl eq_refl) as H.
  cbn [bytes body] in H. rewrite N.add_0_l in H.
  change (EmptyString +:+ text_of toString (chunks req))
    with (text_of toString (chunks req)) in H.
  specialize (H ltac:(discriminate)).
  destruct (MAX_BODY_BYTES <? total_bytes (chunks req))%N.
  - destruct (failure req) as [e|].
    + unfold on_error. rewrite (settle_settled _ _ _ H). exact H.
    + unfold on_end.
      destruct (body _); [rewrite (settle_settled _ _ _ H); exact H|].
      destruct (JSON_parse _); rewrite (settle_settled _ _ _ H); exact H.
  - rewrite H. destruct (failure req) as [e|]; [reflexivity|].
    unfold on_end. cbn [body].
    destruct (text_of toString (chunks req)) as [|a t]; [reflexivity|].
    destruct (JSON_parse (String a t)); reflexivity.
Qed.

(** ** Taking a route apart *)

Lemma and_then_inv {A B} (m : Route A) (k : A -> Route B) (x x' : Exchange)
    (r : B + thrown) :
  and_then m k x = (r, x') ->
  (exists a x1, m x = (inl a, x1) /\ k a x1 = (r, x')) \/
  (exists e, m x = (inr e, x') /\ r = inr e).
Proof.
  unfold and_then. destruct (m x) as [[a|e] x1]; [left; eauto|].
  intros [= <- <-]. right. eauto.
Qed.

Lemma catching_inv {A} (m : Route A) (h : thrown -> Route A) (x x' : Exchange)
    (r : A + thrown) :
  catching m h x = (r, x') ->
  (exists a, m x = (inl a, x') /\ r = inl a) \/
  (exists e x1, m x = (inr e, x1) /\ h e x1 = (r, x')).
Proof.
  unfold catching. destruct (m x) as [[a|e] x1]; [|right; eauto].
  intros [= <- <-]. left. eauto.
Qed.

Lemma call_inv {A} (m : Prog World A) (x x' : Exchange) (r : A + thrown) :
  call m x = (r, x') ->
  exists o w, m (service x) = (o, w) /\ x' = mkExchange w (res x) /\
    r = match o with Returned a => inl a | Threw e => inr (Other e) end.
Proof.
  unfold call. destruct (m (service x)) as [[a|e] w]; intros [= <- <-]; eauto.
Qed.

Lemma sendJson_inv (s : Z) (d : payload) (x x' : Exchange) (r : unit + thrown) :
  sendJson s d x = (r, x') ->
  r = inl tt /\ x' = mkExchange (service x) (res x ++ [mkResponse s d]).
Proof. unfold sendJson. intros [= <- <-]. split; reflexivity. Qed.

(** The promise of [parseJsonBody] is settled once the stream has ended or
    failed. *)
Lemma parseJsonBody_not_pending (toString : string -> string) (req : IncomingMessage) :
  exists p, parseJsonBody toString req = Some p.
Proof.
  assert (Hs : forall r st, exists p, settled (settle r st) = Some p).
  { intros r st. unfold settle. destruct (settled st) as [p|] eqn:E; eauto. }
  unfold parseJsonBody. destruct (failure req) as [e|]; [apply Hs|].
  unfold on_end. destruct (body _); [apply Hs|].
  destruct (JSON_parse _); apply Hs.
Qed.

Lemma await_body_inv (toString : string -> string) (req : IncomingMessage)
    (k : json -> Route unit) (x x' : Exchange) (r : unit + thrown) :
  await_body toString req k x = (r, x') ->
  (exists e, parseJsonBody toString req = Some (inr e) /\ r = inr e /\ x' = x) \/
  (exists b, parseJsonBody toString req = Some (inl b) /\ k b x = (r, x')).
Proof.
  unfold await_body.
  destruct (parseJsonBody_not_pending toString req) as [[b|e] ->];
    unfold and_then, await.
  - right. eauto.
  - intros [= <- <-]. left. eauto.
Qed.

Ltac route_step :=
  match goal with
  | H : and_then _ _ _ = _ |- _ =>
      apply and_then_inv in H as [(? & ? & ? & H) | (? & H & ?)]
  | H : catching _ _ _ = _ |- _ =>
      apply catching_inv in H as [(? & H & ?) | (? & ? & ? & H)]
  | H : await_body _ _ _ _ = _ |- _ =>
      apply await_body_inv in H as [(? & ? & ? & ?) | (? & ? & H)]
  | H : call _ _ = _ |- _ => apply call_inv in H as (? & ? & H & ? & ?)
  | H : sendJson _ _ _ = _ |- _ => apply sendJson_inv in H as [? ?]
  | H : done _ _ = _ |- _ => unfold done in H
  | H : inl _ = inl _ |- _ => injection H as H
  | H : inl _ = inr _ |- _ => discriminate H
  | H : inr _ = inl _ |- _ => discriminate H
  | H : inr _ = inr _ |- _ => injection H as H
  | H : Other _ = Other _ |- _ => injection H as H
  | H : PayloadTooLargeError = Other _ |- _ => discriminate H
  | H : Other _ = PayloadTooLargeError |- _ => discriminate H
  | H : Returned _ = Threw _ |- _ => discriminate H
  | H : (_, _) = (_, _) |- _ => injection H as ? ?
  | H : (if ?b then _ else _) _ = _ |- _ => destruct b eqn:?
  | H : match ?v with _ => _ end _ = _ |- _ => destruct v eqn:?
  | H : inl _ = match ?o with _ => _ end |- _ => destruct o
  | H : inr _ = match ?o with _ => _ end |- _ => destruct o
  | H : get_this _ = _ |- _ => unfold get_this in H
  | H : answer_error PayloadTooLargeError _ = _ |- _ => cbn [answer_error] in H
  | H : answer_error (Other _) _ = _ |- _ => cbn [answer_error] in H
  | H : answer_error ?e _ = _ |- _ => is_var e; destruct e
  end.

Ltac service_step :=
  match goal with
  | H : get_property _ _ _ = (_, _) |- _ =>
      pose proof (get_property_state _ _ _ _ _ H); clear H
  | H : optional_trim _ _ _ = (_, _) |- _ =>
      pose proof (optional_trim_state _ _ _ _ _ H); clear H
  | H : add ?wf ?t ?w = (Threw _, _) |- _ =>
      apply (threw_inv _ _ _ _ _ (add_one_write wf t w)) in H as (? & ? & ? & ? & ?)
  | H : completeById ?wf ?t ?w = (Threw _, _) |- _ =>
      apply (threw_inv _ _ _ _ _ (completeById_one_write wf t w)) in H
        as (? & ? & ? & ? & ?)
  | H : completeByIndex ?wf ?t ?w = (Threw _, _) |- _ =>
      apply (threw_inv _ _ _ _ _ (completeByIndex_one_write wf t w)) in H
        as (? & ? & ? & ? & ?)
  | H : completeByTitle ?tl ?wf ?t ?w = (Threw _, _) |- _ =>
      apply (threw_inv _ _ _ _ _ (completeByTitle_one_write tl wf t w)) in H
        as (? & ? & ? & ? & ?)
  | H : deleteById ?wf ?t ?w = (Threw _, _) |- _ =>
      apply (threw_inv _ _ _ _ _ (deleteById_one_write wf t w)) in H
        as (? & ? & ? & ? & ?)
  | H : completeById _ _ _ = (Returned (NotOk _), _) |- _ =>
      apply completeById_miss in H
  | H : completeByIndex _ _ _ = (Returned (NotOk _), _) |- _ =>
      apply completeByIndex_miss in H as [? ?]
  | H : completeByTitle _ _ _ _ = (Returned (NotOk _), _) |- _ =>
      apply completeByTitle_miss in H
  | H : deleteById _ _ _ = (Returned (NotOk _), _) |- _ =>
      apply deleteById_miss in H
  end.

(** [route_split] follows a run of a route down to the calls it made;
    [route_inv] also replaces each call by what is known of its outcome. *)
Ltac route_split := repeat (cbv beta in *; route_step; subst).
Ltac route_inv := repeat (cbv beta in *; first [route_step | service_step]; subst).

Ltac one_more_response H :=
  first [ apply (f_equal (@length response)) in H;
          rewrite length_app in H; cbn [length] in H; lia
        | apply app_inv_head in H; injection H as <- ].

(** ** What the routes answer *)

(** X16.  The status of a response and the store.  A response with a status
    under 300 carries in [todos] the list as it is after the request.  A
    response with any other status means that [list()] is as it was before
    the request, and that nothing at all changed when the write, if one
    was tried, went through. *)
Theorem routes_status_and_store (toLowerCase trim toString : string -> string)
    (apiBase : string) (wf : option string) (req : IncomingMessage)
    (pathname : string) (x x' : Exchange) (r : bool + thrown) (rsp : response) :
  createTodoRoutes toLowerCase trim toString apiBase wf req pathname x = (r, x') ->
  res x' = res x ++ [rsp] ->
  if statusCode rsp <? 300
  then match data rsp with
       | Todos l | TodoAndTodos _ l => l = list_todos (service x')
       | ErrorMessage _ => False
       end
  else list_todos (service x') = list_todos (service x) /\
       (wf = None -> service x' = service x).
Proof.
  unfold createTodoRoutes. intros Hrun. route_inv.
  all: cbn [res service]; intros Hres; one_more_response Hres; cbn.
  all: first [reflexivity | split; [reflexivity | reflexivity]
             | split; [assumption | discriminate]].
Qed.

Lemma routes_status_and_store_witness :
  let x := mkExchange two_todos [] in
  let out := createTodoRoutes ascii_toLowerCase ascii_trim (fun chunk => chunk)
               "/api/todos" None (mkIncomingMessage "PUT" [] None)
               "/api/todos/todo-2" x in
  res (snd out)
  = [mkResponse 200
       (TodoAndTodos (Some (mkTodo "todo-2" "Buy bread" true))
          (list_todos (service (snd out))))].
Proof.
  intros x out.
  assert (Hres : res (snd out)
                 = res x ++ [mkResponse 200
                               (TodoAndTodos (Some (mkTodo "todo-2" "Buy bread" true))
                                  [mkTodo "todo-1" "Buy milk" true;
                                   mkTodo "todo-2" "Buy bread" true])])
    by reflexivity.
  pose proof (routes_status_and_store ascii_toLowerCase ascii_trim
                (fun chunk => chunk) "/api/todos" None
                (mkIncomingMessage "PUT" [] None) "/api/todos/todo-2"
                x (snd out) (fst out) _ (surjective_pairing out) Hres) as H.
  cbn [statusCode data Z.ltb Z.compare Pos.compare Pos.compare_cont] in H.
  rewrite Hres, <- H. reflexivity.
Defined.

(** X17.  Handled means answered, once.  When the handler returns [true] it
    has written exactly one response; when it returns [false] it has
    written none and touched nothing.  It throws only in the routes for
    [PUT] and [DELETE], only the error of a rejected write, and then no
    response is written. *)
Theorem routes_one_response (toLowerCase trim toString : string -> string)
    (apiBase : string) (wf : option string) (req : IncomingMessage)
    (pathname : string) (x x' : Exchange) (r : bool + thrown) :
  createTodoRoutes toLowerCase trim toString apiBase wf req pathname x = (r, x') ->
  match r with
  | inl true => exists rsp, res x' = res x ++ [rsp]
  | inl false => x' = x
  | inr e =>
      res x' = res x /\
      (method req = "PUT" \/ method req = "DELETE") /\
      exists code, wf = Some code /\ e = Other (SystemError code)
  end.
Proof.
  unfold createTodoRoutes. intros Hrun. route_inv.
  all: cbn [res service]; try (eexists; reflexivity); try reflexivity.
  all: split; [reflexivity|]; split; [|eauto].
  all: repeat match goal with
       | H : String.eqb _ _ = true |- _ => apply String.eqb_eq in H
       end; auto.
Qed.

Lemma routes_one_response_witness :
  let x := mkExchange two_todos [] in
  let out := createTodoRoutes ascii_toLowerCase ascii_trim (fun chunk => chunk)
               "/api/todos" None (mkIncomingMessage "PATCH" [] None)
               "/api/todos/todo-2" x in
  fst out = inl false /\ snd out = x.
Proof.
  intros x out. split; [reflexivity|].
  exact (routes_one_response ascii_toLowerCase ascii_trim (fun chunk => chunk)
           "/api/todos" None (mkIncomingMessage "PATCH" [] None)
           "/api/todos/todo-2" x (snd out) (inl false) eq_refl).
Defined.

(** X18.  A write that the system rejects.  In the three [POST] routes the
    error is caught with the errors of the body: the answer is 400 with
    [Invalid request body], and the handler returns [true].  In the routes
    for [PUT] and [DELETE] nothing catches it: the handler throws the
    error and writes no response.  Either way [list()] is as before. *)
Theorem routes_rejected_write (toLowerCase trim toString : string -> string)
    (apiBase code : string) (req : IncomingMessage)
    (pathname : string) (x x' : Exchange) (r : bool + thrown) :
  createTodoRoutes toLowerCase trim toString apiBase (Some code) req pathname x
    = (r, x') ->
  writes (disk (service x')) <> writes (disk (service x)) ->
  list_todos (service x') = list_todos (service x) /\
  ((method req = "POST" /\ r = inl true /\
    res x' = res x ++ [mkResponse 400 (ErrorMessage "Invalid request body")]) \/
   ((method req = "PUT" \/ method req = "DELETE") /\
    r = inr (Other (SystemError code)) /\ res x' = res x)).
Proof.
  unfold createTodoRoutes. intros Hrun. route_inv.
  all: repeat match goal with
       | H : add ?wf ?t ?w = (Returned _, _) |- _ =>
           apply (returned_inv _ _ _ _ _ (add_one_write wf t w)) in H;
           [subst | discriminate]
       | H : completeById ?wf ?t ?w = (Returned _, _) |- _ =>
           apply (returned_inv _ _ _ _ _ (completeById_one_write wf t w)) in H;
           [subst | discriminate]
       | H : completeByIndex ?wf ?t ?w = (Returned _, _) |- _ =>
           apply (returned_inv _ _ _ _ _ (completeByIndex_one_write wf t w)) in H;
           [subst | discriminate]
       | H : completeByTitle ?tl ?wf ?t ?w = (Returned _, _) |- _ =>
           apply (returned_inv _ _ _ _ _ (completeByTitle_one_write tl wf t w)) in H;
           [subst | discriminate]
       | H : deleteById ?wf ?t ?w = (Returned _, _) |- _ =>
           apply (returned_inv _ _ _ _ _ (deleteById_one_write wf t w)) in H;
           [subst | discriminate]
       end.
  all: cbn [res service]; intros Hw; try (exfalso; apply Hw; reflexivity).
  all: repeat match goal with
       | H : _ && _ = true |- _ => apply andb_true_iff in H as [? ?]
       | H : String.eqb _ _ = true |- _ => apply String.eqb_eq in H
       | H : Some _ = Some _ |- _ => injection H as H
       end; subst.
  all: split; [assumption|].
  all: first [left; split; [assumption|]; split; reflexivity
             | right; split; [auto|]; split; reflexivity].
Qed.

Lemma routes_rejected_write_witness :
  let x := mkExchange two_todos [] in
  let out := createTodoRoutes ascii_toLowerCase ascii_trim (fun chunk => chunk)
               "/api/todos" (Some "ENOSPC") (mkIncomingMessage "PUT" [] None)
               "/api/todos/todo-2" x in
  fst out = inr (Other (SystemError "ENOSPC")) /\ res (snd out) = [] /\
  list_todos (service (snd out)) = list_todos two_todos.
Proof.
  intros x out.
  destruct (routes_rejected_write ascii_toLowerCase ascii_trim (fun chunk => chunk)
              "/api/todos" "ENOSPC" (mkIncomingMessage "PUT" [] None)
              "/api/todos/todo-2" x (snd out) (fst out) (surjective_pairing out)
              ltac:(discriminate))
    as (Hl & [(Hm & _) | (_ & Hr & Hres)]); [discriminate Hm|].
  split; [exact Hr|]. split; [exact Hres | exact Hl].
Defined.

Lemma get_property_inv (v : json) (key : string) (w w' : World)
    (o : outcome (option json)) :
  get_property v key w = (o, w') ->
  w' = w /\
  ((v = JNull /\ o = Threw TypeError) \/
   (o = Returned (optional_get (Some v) key))).
Proof.
  destruct v; cbn [get_property optional_get]; unfold ret, throw;
    intros [= <- <-]; auto.
Qed.

(** X19.  The REST routes and the internal API side by side, when the write
    goes through.  For a request whose body reads as the value [b], the
    handler mounted at [/api/todos] leaves the service exactly as
    [callInternalApi] does for the same method, path and [b]; an answer
    [ok: true] of the latter is the data of a response under 300 of the
    former, and where the latter answers [ok: false] or throws, the former
    responds with an error of status 400 or more, or not at all. *)
Theorem routes_agree_with_internal_api (toLowerCase trim toString : string -> string)
    (req : IncomingMessage) (pathname : string) (b : json)
    (x x' : Exchange) (r : bool + thrown) :
  parseJsonBody toString req = Some (inl b) ->
  createTodoRoutes toLowerCase trim toString "/api/todos" None req pathname x
    = (r, x') ->
  let answer :=
    callInternalApi toLowerCase trim None (method req) pathname (Some b) (service x) in
  service x' = snd answer /\
  match fst answer with
  | Returned (ErrorMessage _) | Threw _ =>
      res x' = res x \/
      exists s e, 400 <= s /\ res x' = res x ++ [mkResponse s (ErrorMessage e)]
  | Returned p =>
      exists s, s < 300 /\ res x' = res x ++ [mkResponse s p]
  end.
Proof.
  intros Hb Hrun answer. subst answer. revert Hrun.
  unfold createTodoRoutes, callInternalApi.
  change ("/api/todos" +:+ "/complete-by-index") with "/api/todos/complete-by-index".
  change ("/api/todos" +:+ "/complete-by-title") with "/api/todos/complete-by-title".
  rewrite !(andb_comm (String.eqb (method req) _)).
  intros Hrun. route_split.
  all: repeat match goal with
       | H : parseJsonBody ?t ?q = Some ?p, H' : parseJsonBody ?t ?q = Some ?p' |- _ =>
           assert (p = p') by congruence; clear H'
       | H : inl _ = inl _ |- _ => injection H as H
       | H : inl _ = inr _ |- _ => discriminate H
       | H : get_property _ _ _ = _ |- _ =>
           apply get_property_inv in H as (? & [[? ?] | ?])
       | H : Returned _ = Threw _ |- _ => discriminate H
       | H : Threw _ = Returned _ |- _ => discriminate H
       | H : Returned _ = Returned _ |- _ => injection H as H
       end; subst.
  all: cbn [service res] in *.
  all: try match goal with
       | H : deleteById None ?i ?w = _ |- _ =>
           unfold deleteById, bind, get_this, ret in H;
           cbv beta iota zeta delta [bind get_this ret set_todos save];
           destruct (List.find (has_id i) (todos (this w))) as [t|] eqn:?;
           [rewrite saveAtomically_written in H; cbn [this todos];
            rewrite saveAtomically_written|];
           injection H as ? ?; try discriminate; subst;
           cbn [this todos dataFile nextId disk files writes]
       end.
  all: repeat (cbv beta iota zeta delta [bind get_this ret fst snd optional_get];
               match goal with
               | H : ?l = _ |- context [?l] => rewrite H
               end).
  all: cbv beta iota zeta delta [bind get_this ret fst snd optional_get optional_trim
                                 is_missing integer_value].
  all: split; [reflexivity|].
  all: first [ left; reflexivity
             | eexists; split; [|reflexivity]; lia
             | right; eexists _, _; split; [|reflexivity]; lia ].
Qed.

Lemma routes_agree_with_internal_api_witness :
  let req :=
    mkIncomingMessage "POST"
      ["{" +:+ String dquote ("title" +:+ String dquote (":" +:+ String dquote " Call "));
       "home " +:+ String dquote "}"] None in
  let b := JObject [("title", JString " Call home ")] in
  let x := mkExchange two_todos [] in
  let out := createTodoRoutes ascii_toLowerCase ascii_trim (fun chunk => chunk)
               "/api/todos" None req "/api/todos" x in
  service (snd out)
  = snd (callInternalApi ascii_toLowerCase ascii_trim None "POST" "/api/todos"
           (Some b) two_todos) /\
  list_todos (service (snd out))
  = list_todos two_todos ++ [mkTodo "todo-3" "Call home" false].
Proof.
  intros req b x out.
  destruct (routes_agree_with_internal_api ascii_toLowerCase ascii_trim
              (fun chunk => chunk) req "/api/todos" b x (snd out) (fst out)
              eq_refl (surjective_pairing out)) as [Hs _].
  split; [exact Hs|]. rewrite Hs. reflexivity.
Defined.

(** * The tools of [mcp/todoTools.js] *)

Lemma bind_inv {S A B} (m : Prog S A) (k : A -> Prog S B) (s s' : S)
    (o : outcome B) :
  bind m k s = (o, s') ->
  (exists a s1, m s = (Returned a, s1) /\ k a s1 = (o, s')) \/
  (exists e, m s = (Threw e, s') /\ o = Threw e).
Proof.
  unfold bind. destruct (m s) as [[a|e] s1]; [left; eauto|].
  intros [= <- <-]. right. eauto.
Qed.

Lemma internal_get (toLowerCase trim : string -> string) (wf : option string)
    (body : option json) (w : World) :
  callInternalApi toLowerCase trim wf "GET" "/api/todos" body w
  = (Returned (Todos (list_todos w)), w).
Proof. reflexivity. Qed.

Ltac tool_inv :=
  repeat (cbv beta zeta in *; match goal with
  | H : bind _ _ _ = _ |- _ =>
      apply bind_inv in H as [(? & ? & ? & H) | (? & H & ?)]
  | H : ret _ _ = _ |- _ => unfold ret in H
  | H : throw _ _ = _ |- _ => unfold throw in H
  | H : reply_completed _ _ _ = _ |- _ => unfold reply_completed in H
  | H : (_, _) = (_, _) |- _ => injection H as ? ?
  | H : Returned _ = Threw _ |- _ => discriminate H
  | H : Threw _ = Returned _ |- _ => discriminate H
  | H : Returned _ = Returned _ |- _ => injection H as H
  | H : Threw _ = Threw _ |- _ => injection H as H
  | H : callInternalApi _ _ _ "GET" "/api/todos" _ _ = _ |- _ =>
      rewrite internal_get in H
  | H : callInternalApi _ _ _ _ _ _ _ = (Returned ?p, _) |- _ =>
      apply callInternalApi_outcome in H; destruct p
  | H : callInternalApi _ _ _ _ _ _ _ = (Threw _, _) |- _ =>
      apply callInternalApi_outcome in H;
      destruct H as [(_ & _ & ? & H) | (? & ? & ?)]; [discriminate H|]
  | H : (if ?b then _ else _) _ = _ |- _ => destruct b eqn:?
  | H : match ?v with _ => _ end _ = _ |- _ => destruct v eqn:?
  end; subst).

(** X20.  Which list a tool shows.  The [tasks] of a reply are the list as it
    is after the call, with one exception: when [add_todo] or
    [complete_todo] is refused (a title that trims to nothing, an id that
    no todo has), the reply carries the empty list, whatever the store
    holds, and nothing has changed. *)
Theorem tool_reply_tasks (toLowerCase trim : string -> string)
    (wf : option string) (c : tool_call) (w w' : World) (rp : CallToolResult) :
  call_tool toLowerCase trim wf c w = (Returned rp, w') ->
  tasks rp = Some (list_todos w') \/
  (tasks rp = Some [] /\ w' = w /\
   match c with
   | add_todo _ | complete_todo _ => True
   | _ => False
   end).
Proof.
  unfold call_tool. intros Hrun. tool_inv.
  all: cbn [tasks replyWithTodos answer_todos or_empty ok negb] in *.
  all: try discriminate.
  all: repeat match goal with
       | H : _ /\ _ |- _ => destruct H as [? ?]
       end; subst.
  all: first [ left; reflexivity
             | left; congruence
             | right; split; [reflexivity|]; split; [reflexivity | exact I] ].
Qed.

Lemma tool_reply_tasks_witness :
  let out := call_tool ascii_toLowerCase ascii_trim None
               (complete_todo_by_index (Some 5)) two_todos in
  exists rp, fst out = Returned rp /\
    content rp = ["Invalid index. There are only 2 todo(s)."] /\
    tasks rp = Some (list_todos (snd out)).
Proof.
  intros out. eexists. split; [reflexivity|]. split; [reflexivity|].
  destruct (tool_reply_tasks ascii_toLowerCase ascii_trim None
              (complete_todo_by_index (Some 5)) two_todos (snd out) _ eq_refl)
    as [H | (_ & _ & [])].
  exact H.
Defined.

(** X21.  The tools throw nothing of their own.  The reads of
    [result.todo.title] and [list.todos.length] never meet [undefined],
    and the body that a tool hands to [callInternalApi] never makes it
    throw: a call of a tool throws only when the system rejects the write,
    and then it throws that error. *)
Theorem call_tool_throws_only_rejected_write (toLowerCase trim : string -> string)
    (wf : option string) (c : tool_call) (w w' : World) (e : exn) :
  call_tool toLowerCase trim wf c w = (Threw e, w') ->
  exists code, wf = Some code /\ e = SystemError code.
Proof.
  unfold call_tool. intros Hrun. tool_inv.
  all: cbn [answer_todo answer_todos ok negb] in *.
  all: try discriminate.
  all: repeat match goal with
       | H : _ /\ _ |- _ => destruct H as [? ?]
       | H : exists _, _ |- _ => destruct H as [? ?]
       end; subst; try discriminate.
  all: eauto.
Qed.

Lemma call_tool_throws_only_rejected_write_witness :
  let out := call_tool ascii_toLowerCase ascii_trim (Some "EROFS")
               (add_todo (Some "Call home")) two_todos in
  fst out = Threw (SystemError "EROFS").
Proof.
  intros out.
  destruct (call_tool_throws_only_rejected_write ascii_toLowerCase ascii_trim
              (Some "EROFS") (add_todo (Some "Call home")) two_todos (snd out)
              (SystemError "EROFS") eq_refl) as (code & Hc & He).
  injection Hc as <-. reflexivity.
Defined.

(** X22.  [complete_todo] with an id that no todo has.  The reply says that
    the todo was not found and carries an empty list of tasks, also when
    the store holds todos; nothing is changed.  (The other completing
    tools fetch the list again when they are refused.) *)
Theorem complete_todo_unknown_id (toLowerCase trim : string -> string)
    (wf : option string) (i : string) (w : World) :
  i <> EmptyString ->
  List.find (has_id i) (list_todos w) = None ->
  call_tool toLowerCase trim wf (complete_todo (Some i)) w
  = (Returned (mkCallToolResult ["Todo " +:+ i +:+ " was not found."] (Some [])), w).
Proof.
  intros Hi Hf. destruct i as [|c i]; [contradiction|].
  cbn [call_tool]. cbv zeta.
  assert (Hcall : exists m,
    callInternalApi toLowerCase trim wf "PUT" ("/api/todos/" +:+ String c i) None w
    = (Returned (ErrorMessage m), w)).
  { unfold callInternalApi. cbn [String.eqb Ascii.eqb Bool.eqb andb].
    destruct (match_id "/api/todos" ("/api/todos/" +:+ String c i)) as [j|] eqn:Em;
      [|eauto].
    assert (j = String c i) as ->.
    { unfold match_id in Em.
      rewrite (proj2 (strip_prefix_spec ("/api/todos" +:+ "/")
                        ("/api/todos/" +:+ String c i) (String c i)) eq_refl) in Em.
      destruct (_ || _); congruence. }
    cbn [String.eqb Ascii.eqb Bool.eqb andb].
    unfold bind at 1. rewrite (completeById_not_found wf _ w Hf). eauto. }
  destruct Hcall as [m Hcall]. unfold bind. rewrite Hcall.
  cbn [ok negb ret answer_todos or_empty replyWithTodos].
  change ("Todo " +:+ String c i +:+ " was not found.")
    with (String "T" ("odo " +:+ String c i +:+ " was not found.")).
  reflexivity.
Qed.

Lemma complete_todo_unknown_id_witness :
  call_tool ascii_toLowerCase ascii_trim None (complete_todo (Some "todo-9")) two_todos
  = (Returned (mkCallToolResult ["Todo todo-9 was not found."] (Some [])), two_todos).
Proof.
  apply (complete_todo_unknown_id ascii_toLowerCase ascii_trim None "todo-9" two_todos).
  - discriminate.
  - reflexivity.
Defined.


